(** * Easy-Gmail-MCP: thread resolution and reply composition

    A shallow embedding of [src/imap-service.ts] (class [ImapService]),
    [src/smtp-service.ts] (class [SmtpService]) and [src/email-operations.ts]
    (class [EmailOperations]), with the response types of [src/types.ts].

    Conventions of the embedding.
    - A JavaScript string is a [string] whose characters are code units
      below 256.  [undefined] is [None]; a value of type [T | undefined] is
      an [option T].
    - A JavaScript number that the code only uses as an integer (a UID, a
      size in bytes, a position in an array, a count) is a [Z].  A number
      that a caller supplies and that the input schema does not require to
      be an integer (the index and the size limit of [getAttachment]) is a
      rational, a [Q]: every finite double is one, and the bounds of the
      schema let no other number through.
    - A [Date], and the ISO-8601 text [toISOString] makes of it, is the
      number of milliseconds it denotes, a [Z]: [new Date(iso).getTime()]
      is the identity on it.
    - A promise is the function from the state in which it is started to
      its settlement ([Resolved] or [Rejected] with the message of the
      error) and the state it leaves.  An [Error] is its [message].
    - The mail server, the MIME parser and the SMTP transport are the
      environment [Env]: every connection the code creates gets the
      behaviour the environment has for the connection of that number.
    - The calls to the sender ([sendReply], [transporter.sendMail]) are
      recorded in the state, so that what a reply sends can be stated.
    - The value a promise resolves with is the value at that moment: what
      a late handler pushes to an array afterwards is not in it. *)

From Stdlib Require Import ZArith QArith Ascii String List Sorting.Sorted Permutation Lia.
From stdpp Require Import base option list strings gmap pretty.

Open Scope Z_scope.

(** ** JavaScript strings *)

Module Js.

(** Truthiness of a string: only the empty string is falsy. *)
Definition truthy (s : string) : bool :=
  match s with EmptyString => false | String _ _ => true end.

(** Truthiness of [string | undefined]. *)
Definition truthy_opt (o : option string) : bool :=
  match o with Some s => truthy s | None => false end.

(** [o || d] for [o : string | undefined]. *)
Definition or_else (o : option string) (d : string) : string :=
  match o with
  | Some s => if truthy s then s else d
  | None => d
  end.

(** [o || undefined]. *)
Definition or_undefined (o : option string) : option string :=
  match o with
  | Some s => if truthy s then Some s else None
  | None => None
  end.

(** [xs.filter(Boolean)] on an array of [string | undefined]. *)
Fixpoint filter_Boolean (xs : list (option string)) : list string :=
  match xs with
  | [] => []
  | Some s :: r => if truthy s then s :: filter_Boolean r else filter_Boolean r
  | None :: r => filter_Boolean r
  end.

(** White space of [String.prototype.trim] and of the class [\s]:
    TAB, LF, VT, FF, CR, SPACE and NBSP. *)
Definition is_space (c : ascii) : bool :=
  match N_of_ascii c with
  | 9%N | 10%N | 11%N | 12%N | 13%N | 32%N | 160%N => true
  | _ => false
  end.

Definition LF : ascii := ascii_of_N 10.
Definition CR : ascii := ascii_of_N 13.
Definition TAB : ascii := ascii_of_N 9.
Definition nl : string := String LF EmptyString.
Definition DQ : ascii := ascii_of_N 34.

(** [s.startsWith(p)]. *)
Definition startsWith (p s : string) : bool := String.prefix p s.

(** [s.includes(sub)]. *)
Fixpoint includes (sub s : string) : bool :=
  String.prefix sub s ||
  match s with
  | EmptyString => false
  | String _ s' => includes sub s'
  end.

(** [s.indexOf(c)] for a single character, [None] for -1. *)
Fixpoint indexOf (c : ascii) (s : string) : option nat :=
  match s with
  | EmptyString => None
  | String a s' => if Ascii.eqb a c then Some 0%nat else S <$> indexOf c s'
  end.

Fixpoint trimStart (s : string) : string :=
  match s with
  | EmptyString => EmptyString
  | String a s' => if is_space a then trimStart s' else s
  end.

Fixpoint trimEnd (s : string) : string :=
  match s with
  | EmptyString => EmptyString
  | String a s' =>
      match trimEnd s' with
      | EmptyString => if is_space a then EmptyString else String a EmptyString
      | t => String a t
      end
  end.

Definition trim (s : string) : string := trimEnd (trimStart s).

(** [s.toLowerCase()] on code units below 256: A-Z and the Latin-1
    capitals (all of 192..222 but the multiplication sign 215). *)
Definition lower_char (c : ascii) : ascii :=
  let n := N_of_ascii c in
  if ((65 <=? n) && (n <=? 90))%N
     || ((192 <=? n) && (n <=? 222) && negb (n =? 215))%N
  then ascii_of_N (n + 32) else c.

Fixpoint toLowerCase (s : string) : string :=
  match s with
  | EmptyString => EmptyString
  | String a s' => String (lower_char a) (toLowerCase s')
  end.

(** Puts [a] in front of the first piece of a split. *)
Definition cons_head (a : ascii) (pieces : list string) : list string :=
  match pieces with
  | [] => [String a EmptyString]
  | h :: t => String a h :: t
  end.

(** [s.split(c)] for a one-character separator. *)
Fixpoint split (c : ascii) (s : string) : list string :=
  match s with
  | EmptyString => [EmptyString]
  | String a s' =>
      if Ascii.eqb a c then EmptyString :: split c s'
      else cons_head a (split c s')
  end.

(** [s.split(/\r?\n/)]. *)
Fixpoint split_lines (s : string) : list string :=
  match s with
  | EmptyString => [EmptyString]
  | String a s' =>
      if Ascii.eqb a LF then EmptyString :: split_lines s'
      else
        match s' with
        | String b s'' =>
            if Ascii.eqb a CR && Ascii.eqb b LF
            then EmptyString :: split_lines s''
            else cons_head a (split_lines s')
        | EmptyString => cons_head a (split_lines s')
        end
  end.

(** [s.split(/\s+/)]: [in_ws] says that the character before was
    white space, so that a run of white space separates once. *)
Fixpoint split_ws_from (in_ws : bool) (s : string) : list string :=
  match s with
  | EmptyString => [EmptyString]
  | String a s' =>
      if is_space a
      then (if in_ws then split_ws_from true s'
            else EmptyString :: split_ws_from true s')
      else cons_head a (split_ws_from false s')
  end.

Definition split_ws (s : string) : list string := split_ws_from false s.

(** [xs.join(sep)]. *)
Fixpoint join (sep : string) (xs : list string) : string :=
  match xs with
  | [] => EmptyString
  | [x] => x
  | x :: r => x +:+ sep +:+ join sep r
  end.

(** [s.substring(0, n)]. *)
Definition take (n : nat) (s : string) : string := String.substring 0 n s.

(** *** Numbers of a caller

    A number that need not be an integer is a rational. *)

(** [x] as a position in an array: [arr[x]] is an element only for an
    integer that is not negative; every other number names a property
    that an array does not have. *)
Definition array_index (x : Q) : option nat :=
  let r := Qred x in
  if (Qden r =? 1)%positive && (0 <=? Qnum r)
  then Some (Z.to_nat (Qnum r))
  else None.

(** The text of a number in a template literal: the decimal digits of
    an integer, and for every other number the text [decimal] gives. *)
Definition number_text (decimal : Q -> string) (x : Q) : string :=
  let r := Qred x in
  if (Qden r =? 1)%positive then pretty (Qnum r) else decimal x.

(** *** The regular expressions of the source

    The two patterns of [replyToMessage] are sequences of literals and
    greedy one-or-more character classes around one capture group; the
    matcher below is the backtracking matcher of [RegExp.prototype.exec]
    for such sequences. *)

Inductive node : Type :=
| Lit (c : ascii)
| Plus (cls : ascii -> bool)
| GroupOpen
| GroupClose.

Definition regex := list node.

(** The length of the longest prefix of [s] in the class. *)
Fixpoint run (cls : ascii -> bool) (s : string) : nat :=
  match s with
  | EmptyString => 0%nat
  | String a s' => if cls a then S (run cls s') else 0%nat
  end.

Fixpoint drop (n : nat) (s : string) : string :=
  match n, s with
  | O, _ => s
  | S n', String _ s' => drop n' s'
  | S _, EmptyString => EmptyString
  end.

(** Greedy choice: the longest repetition first, down to one. *)
Fixpoint longest_first {X} (k : nat) (f : nat -> option X) : option X :=
  match k with
  | O => None
  | S k' =>
      match f k with
      | Some x => Some x
      | None => longest_first k' f
      end
  end.

(** [match_here r s pos cap] matches [r] against [s], the rest of the
    subject from offset [pos]; [cap] are the offsets at which the group
    was opened and closed so far. *)
Fixpoint match_here (r : regex) (s : string) (pos : nat)
    (cap : nat * nat) : option (nat * nat) :=
  match r with
  | [] => Some cap
  | Lit c :: r' =>
      match s with
      | String a s' =>
          if Ascii.eqb a c then match_here r' s' (S pos) cap else None
      | EmptyString => None
      end
  | Plus cls :: r' =>
      longest_first (run cls s)
        (fun k => match_here r' (drop k s) (pos + k)%nat cap)
  | GroupOpen :: r' => match_here r' s pos (pos, snd cap)
  | GroupClose :: r' => match_here r' s pos (fst cap, pos)
  end.

(** Leftmost match: the first offset at which the pattern matches. *)
Fixpoint search (r : regex) (s : string) (pos : nat) : option (nat * nat) :=
  match match_here r s pos (pos, pos) with
  | Some c => Some c
  | None =>
      match s with
      | EmptyString => None
      | String _ s' => search r s' (S pos)
      end
  end.

(** [s.match(r)] for a pattern without the [g] flag, reduced to what
    the callers read: [None] for [null], else the text of group 1. *)
Definition match_group1 (r : regex) (s : string) : option string :=
  match search r s 0 with
  | Some (a, b) => Some (String.substring a (b - a) s)
  | None => None
  end.

End Js.

(** ** Response types ([src/types.ts]) *)

Module AttachmentInfo.
Record t := mk {
  index : Z;
  filename : string;
  contentType : string;
  size : Z
}.
End AttachmentInfo.

Module AttachmentContent.
Record t := mk {
  filename : string;
  contentType : string;
  size : Z;
  content : string
}.
End AttachmentContent.

Module EmailMessage.
Record t := mk {
  id : string;
  threadId : string;
  subject : string;
  from : string;
  to : list string;
  cc : option (list string);
  date : Z;
  snippet : string;
  body : option string;
  bodyHtml : option string;
  labels : list string;
  isRead : option bool;
  hasAttachments : option bool;
  attachments : option (list AttachmentInfo.t);
  inReplyTo : option string;
  references : option (list string);
  messageId : option string
}.
End EmailMessage.

Module SendResult.
Record t := mk {
  messageId : string;
  success : bool;
  message : string
}.
End SendResult.

Module ThreadResult.
Record t := mk {
  messages : list EmailMessage.t;
  threadId : string;
  messageCount : Z
}.
End ThreadResult.

(** The validated parameters of [replyToMessage] ([ReplyToMessageSchema]
    gives [includeQuote] its default before the call). *)
Module ReplyToMessageParams.
Record t := mk {
  id : string;
  body : string;
  includeQuote : bool
}.
End ReplyToMessageParams.

(** [ReplyParams] of [src/smtp-service.ts]. *)
Module ReplyParams.
Record t := mk {
  to : string;
  subject : string;
  body : string;
  inReplyTo : option string;
  references : option (list string);
  cc : option string
}.
End ReplyParams.

(** The options object [sendReply] hands to [transporter.sendMail]. *)
Module MailOptions.
Record t := mk {
  from : string;
  to : string;
  subject : string;
  text : string;
  cc : option string;
  inReplyTo : option string;
  references : option string
}.
End MailOptions.

(** ** The collaborators *)

(** What [mailparser] returns ([ParsedMail]), restricted to the fields the
    code reads.  A field that is one value or an array of them is a
    [one_or_many]. *)
Inductive one_or_many (A : Type) : Type :=
| One (a : A)
| Many (l : list A).
Arguments One {A} a.
Arguments Many {A} l.

Module Attachment.
Record t := mk {
  filename : option string;
  contentType : string;
  size : Z;
  content : string
}.
End Attachment.

Module ParsedMail.
Record t := mk {
  subject : option string;
  from : option string;               (* [from?.text] *)
  to : option (one_or_many string);   (* the [text] of each address object *)
  cc : option (one_or_many string);
  date : option Z;
  text : option string;
  html : option string;               (* [false] is [None] *)
  messageId : option string;
  inReplyTo : option string;
  references : option (one_or_many string);
  attachments : option (list Attachment.t)
}.
End ParsedMail.

(** A value that [JSON.stringify] is given.  The body structure that
    node-imap builds from a BODYSTRUCTURE response is made of [null],
    texts, integers, arrays and objects. *)
#[warnings="-register-all"] Inductive Json : Type :=
| JNull
| JBool (b : bool)
| JNumber (n : Z)
| JString (s : string)
| JArray (items : list Json)
| JObject (members : list (string * Json)).

Module JSON.

Definition hex (n : N) : ascii :=
  match n with
  | 0 => "0" | 1 => "1" | 2 => "2" | 3 => "3" | 4 => "4" | 5 => "5"
  | 6 => "6" | 7 => "7" | 8 => "8" | 9 => "9" | 10 => "a" | 11 => "b"
  | 12 => "c" | 13 => "d" | 14 => "e" | _ => "f"
  end%char%N.

(** [QuoteJSONString] for one code unit: the short escapes, [\u00xx]
    for the other control characters, and the character itself. *)
Definition escape_char (c : ascii) : string :=
  let n := N_of_ascii c in
  if (n =? 8)%N then "\b"
  else if (n =? 9)%N then "\t"
  else if (n =? 10)%N then "\n"
  else if (n =? 12)%N then "\f"
  else if (n =? 13)%N then "\r"
  else if (n =? 34)%N then String "\" (String Js.DQ "")
  else if (n =? 92)%N then "\\"
  else if (n <? 32)%N
  then "\u00" +:+ String (hex (n / 16)) (String (hex (n mod 16)) "")
  else String c "".

Fixpoint escape (s : string) : string :=
  match s with
  | EmptyString => EmptyString
  | String c r => escape_char c +:+ escape r
  end.

Definition quote (s : string) : string :=
  String Js.DQ (escape s +:+ String Js.DQ "").

(** [JSON.stringify(j)], without indentation. *)
Fixpoint stringify (j : Json) : string :=
  match j with
  | JNull => "null"
  | JBool b => if b then "true" else "false"
  | JNumber n => pretty n
  | JString s => quote s
  | JArray items => "[" +:+ Js.join "," (List.map stringify items) +:+ "]"
  | JObject members =>
      "{" +:+ Js.join ","
                (List.map (fun kv => quote (fst kv) +:+ ":" +:+ stringify (snd kv))
                   members)
          +:+ "}"
  end.

End JSON.

(** The attributes node-imap reports for a message; [struct] is the body
    structure, [None] when the attributes have none. *)
Module Attrs.
Record t := mk {
  uid : Z;
  date : option Z;
  flags : option (list string);
  struct : option Json
}.
End Attrs.

(** One ['message'] event of a fetch, when its ['end'] fires: the bytes
    collected from the body stream, the attributes ([null] when none
    came), and what [new Date()] gives when the handler builds the
    message.  For an [async] handler, whose code after
    [await simpleParser] runs when the parse is over: whether that is
    only after the fetch itself has emitted ['end'] or ['error'], and
    the rank of the end of the parse among the parses of the fetch.  A
    handler whose parse has the smaller rank continues first; handlers of
    one rank continue in the order of their events. *)
Module Fetched.
Record t := mk {
  raw : string;
  attrs : option Attrs.t;
  now : Z;
  parsed_late : bool;
  parse_rank : Z
}.
End Fetched.

(** A fetch: its messages in order, then ['end'] ([None]) or ['error']. *)
Module Fetch.
Record t := mk {
  msgs : list Fetched.t;
  error : option string
}.
End Fetch.

(** One IMAP connection: [connect] is [None] for ['ready'] and the
    message of the ['error'] event otherwise. *)
Module Connection.
Record t := mk {
  connect : option string;
  openBox : string + Z;                      (* error, or [box.messages.total] *)
  fetch : list string -> Fetch.t;            (* [imap.fetch(uids, {bodies: ''})] *)
  seq_fetch : string -> Fetch.t;             (* [imap.seq.fetch(range, ...)] *)
  search : string -> string -> string + option (list Z)
                                             (* [imap.search([['HEADER', field, value]])] *)
}.
End Connection.

Record Env := {
  server : nat -> Connection.t;                (* the n-th connection created *)
  simpleParser : string -> string + ParsedMail.t;
  sendMail : MailOptions.t -> string + string; (* error, or [info.messageId] *)
  smtp_user : string;                          (* [config.user] *)
  toLocaleString : Z -> string;                (* [new Date(d).toLocaleString()] *)
  base64 : string -> string;                   (* [buffer.toString('base64')] *)
  Number_toString : Q -> string                (* [String(x)] for [x] not an integer *)
}.

(** ** Promises over the state of the process *)

Inductive Call : Type :=
| CallSendReply (p : ReplyParams.t)
| CallSendMail (o : MailOptions.t).

Record State := {
  connections : nat;     (* how many connections were created so far *)
  calls : list Call      (* the calls made to the sender, oldest first *)
}.

Inductive settled (A : Type) : Type :=
| Resolved (a : A)
| Rejected (message : string).
Arguments Resolved {A} a.
Arguments Rejected {A} message.

Definition promise (A : Type) : Type := State -> settled A * State.

Definition resolve {A} (a : A) : promise A := fun st => (Resolved a, st).
Definition reject {A} (message : string) : promise A := fun st => (Rejected message, st).

(** [await p] followed by the rest of the function. *)
Definition await {A B} (p : promise A) (k : A -> promise B) : promise B :=
  fun st =>
    match p st with
    | (Resolved a, st') => k a st'
    | (Rejected e, st') => (Rejected e, st')
    end.

(** [try { p } catch (error) { h(error.message) }]. *)
Definition try_catch {A} (p : promise A) (h : string -> promise A) : promise A :=
  fun st =>
    match p st with
    | (Resolved a, st') => (Resolved a, st')
    | (Rejected e, st') => h e st'
    end.

Definition settle {A} (r : settled A) : promise A := fun st => (r, st).

Definition record_call (c : Call) : promise unit :=
  fun st => (Resolved tt, {| connections := connections st; calls := calls st ++ [c] |}).

Notation "'let!' x ':=' p 'in' k" := (await p (fun x => k))
  (at level 10, x name, p at level 100, k at level 200).

(** ** Arrays and sets of JavaScript *)

(** [Array.prototype.sort(compareFn)].  The language requires the sort to
    be stable; for a comparator that is a difference of keys every stable
    sort gives the same array, the one this insertion sort builds: an
    element goes in front of the first one it does not compare greater
    than, so that equal elements keep their order. *)
Section ArraySort.

Context {A : Type} (compareFn : A -> A -> Z).

Fixpoint sort_insert (x : A) (l : list A) : list A :=
  match l with
  | [] => [x]
  | y :: r => if compareFn x y <=? 0 then x :: y :: r else y :: sort_insert x r
  end.

Definition Array_sort (l : list A) : list A := foldr sort_insert [] l.

End ArraySort.

(** A [Set] iterates in insertion order and ignores a value it has. *)
Definition Set_add {A} `{EqDecision A} (x : A) (s : list A) : list A :=
  if decide (x ∈ s) then s else s ++ [x].

(** [new Set(xs)], and [xs.forEach(x => s.add(x))] from [s]. *)
Definition Set_add_all {A} `{EqDecision A} (xs : list A) (s : list A) : list A :=
  fold_left (fun s x => Set_add x s) xs s.

(** ** Events of a fetch *)

(** The order in which the [async] handlers of messages continue after
    [await simpleParser]: by the rank of the end of the parse, and for
    one rank by the order of the events.  It is the order that a stable
    sort by the rank gives, for which the insertion of [Array_sort]
    serves. *)
Definition in_parse_order (msgs : list Fetched.t) : list Fetched.t :=
  Array_sort (fun a b => Fetched.parse_rank a - Fetched.parse_rank b) msgs.

(** The messages whose parse is over before the fetch emits ['end'] or
    ['error'], in the order in which their handlers continue. *)
Definition parsed_early (f : Fetch.t) : list Fetched.t :=
  in_parse_order
    (List.filter (fun fm => negb (Fetched.parsed_late fm)) (Fetch.msgs f)).

(** [getMessage] and [getAttachment] settle their promise from three
    places: the [async] ['end'] handler of a message, the ['error'] handler
    of the fetch, and its ['end'] handler when no message came.  A promise
    keeps its first settlement.  The handlers of the messages whose parse
    is over before the fetch ends continue first, in the order of their
    parses; then the handler of the end of the fetch runs; then the
    handlers of the late messages continue. *)
Definition first_settlement {A} (on_message : Fetched.t -> settled (option A))
    (f : Fetch.t) : settled (option A) :=
  match parsed_early f with
  | fm :: _ => on_message fm
  | [] =>
      match Fetch.error f with
      | Some e => Rejected ("Fetch error: " +:+ e)
      | None =>
          match in_parse_order (Fetch.msgs f) with
          | [] => Resolved None            (* [!messageFound] *)
          | fm :: _ => on_message fm
          end
      end
  end.

(** [Array.isArray(v) ? v : [v]]. *)
Definition as_array {A} (v : one_or_many A) : list A :=
  match v with
  | One a => [a]
  | Many l => l
  end.

(** Truthiness of [parsed.references]: an array is truthy, also when
    empty; a string is truthy when it is not empty. *)
Definition truthy_one_or_many (v : one_or_many string) : bool :=
  match v with
  | One s => Js.truthy s
  | Many _ => true
  end.

(** [attrs?.flags?.includes('\\Seen') || false]. *)
Definition seen (attrs : option Attrs.t) : bool :=
  match attrs with
  | Some a =>
      match Attrs.flags a with
      | Some fl => bool_decide ("\Seen" ∈ fl)
      | None => false
      end
  | None => false
  end.

(** ** ImapService *)

Module ImapService.
Section WithEnv.

Variable E : Env.

(** [createConnection()]: the next connection of the environment. *)
Definition createConnection : promise Connection.t :=
  fun st =>
    (Resolved (server E (connections st)),
     {| connections := S (connections st); calls := calls st |}).

(** The attachment descriptors of [getMessage], without content. *)
Definition attachment_infos (atts : list Attachment.t) : list AttachmentInfo.t :=
  imap (fun index att =>
    {| AttachmentInfo.index := Z.of_nat index;
       AttachmentInfo.filename :=
         Js.or_else (Attachment.filename att) ("attachment_" +:+ pretty index);
       AttachmentInfo.contentType :=
         Js.or_else (Some (Attachment.contentType att)) "application/octet-stream";
       AttachmentInfo.size := Attachment.size att |}) atts.

(** The message [getMessage] builds from a parsed mail. *)
Definition message_of_parsed (uid : string) (fm : Fetched.t)
    (parsed : ParsedMail.t) : EmailMessage.t :=
  let attachments := attachment_infos (default [] (ParsedMail.attachments parsed)) in
  {| EmailMessage.id := uid;
     EmailMessage.threadId := uid;
     EmailMessage.subject := Js.or_else (ParsedMail.subject parsed) "(No Subject)";
     EmailMessage.from := Js.or_else (ParsedMail.from parsed) "";
     EmailMessage.to :=
       match ParsedMail.to parsed with
       | Some v => as_array v
       | None => []
       end;
     EmailMessage.cc :=
       match ParsedMail.cc parsed with
       | Some v => Some (as_array v)
       | None => None
       end;
     EmailMessage.date := default (Fetched.now fm) (ParsedMail.date parsed);
     EmailMessage.snippet := Js.take 200 (Js.or_else (ParsedMail.text parsed) "");
     EmailMessage.body := Some (Js.or_else (ParsedMail.text parsed) "");
     EmailMessage.bodyHtml := Js.or_undefined (ParsedMail.html parsed);
     EmailMessage.labels := ["INBOX"];
     EmailMessage.isRead := Some (seen (Fetched.attrs fm));
     EmailMessage.hasAttachments := Some (0 <? Z.of_nat (length attachments));
     EmailMessage.attachments := Some attachments;
     EmailMessage.messageId := ParsedMail.messageId parsed;
     EmailMessage.inReplyTo := ParsedMail.inReplyTo parsed;
     EmailMessage.references :=
       match ParsedMail.references parsed with
       | Some v => if truthy_one_or_many v then Some (as_array v) else None
       | None => None
       end |}.

(** The ['end'] handler of the message in [getMessage]. *)
Definition getMessage_on_message (uid : string) (fm : Fetched.t)
    : settled (option EmailMessage.t) :=
  match simpleParser E (Fetched.raw fm) with
  | inr parsed => Resolved (Some (message_of_parsed uid fm parsed))
  | inl e => Rejected ("Failed to parse message: " +:+ e)
  end.

(** [getMessage(uid)]. *)
Definition getMessage (uid : string) : promise (option EmailMessage.t) :=
  let! imap := createConnection in
  match Connection.connect imap with
  | Some e => reject ("IMAP connection error: " +:+ e)
  | None =>
      match Connection.openBox imap with
      | inl e => reject ("Failed to open inbox: " +:+ e)
      | inr _ =>
          settle (first_settlement (getMessage_on_message uid)
                    (Connection.fetch imap [uid]))
      end
  end.

(** What [getMessageHeaders] returns. *)
Record MessageHeaders := {
  h_from : string;
  h_subject : string;
  h_messageId : option string;
  h_references : list string;
  h_date : Z;
  h_body : string
}.

(** The object [getMessageHeaders] returns for a message. *)
Definition headers_of (message : EmailMessage.t) : MessageHeaders :=
  {| h_from := EmailMessage.from message;
     h_subject := EmailMessage.subject message;
     h_messageId := EmailMessage.messageId message;
     h_references :=
       Js.filter_Boolean
         ((Some <$> default [] (EmailMessage.references message))
            ++ [EmailMessage.messageId message]);
     h_date := EmailMessage.date message;
     h_body := Js.or_else (EmailMessage.body message) "" |}.

(** [getMessageHeaders(uid)]. *)
Definition getMessageHeaders (uid : string) : promise (option MessageHeaders) :=
  let! message := getMessage uid in
  match message with
  | None => resolve None
  | Some message => resolve (Some (headers_of message))
  end.

(** *** getThread *)

Definition ThreadResult_singleton (uid : string) (originalMessage : EmailMessage.t)
    : ThreadResult.t :=
  {| ThreadResult.messages := [originalMessage];
     ThreadResult.threadId := uid;
     ThreadResult.messageCount := 1 |}.

(** The anchor tokens: [threadMessageIds]. *)
Definition threadMessageIds (originalMessage : EmailMessage.t) : list string :=
  let s0 := [] in
  let s1 :=
    match EmailMessage.messageId originalMessage with
    | Some i => if Js.truthy i then Set_add i s0 else s0
    | None => s0
    end in
  let s2 :=
    match EmailMessage.inReplyTo originalMessage with
    | Some i => if Js.truthy i then Set_add i s1 else s1
    | None => s1
    end in
  match EmailMessage.references originalMessage with
  | Some refs => Set_add_all refs s2
  | None => s2
  end.

(** One search promise: [res(err ? [] : (results || []))]. *)
Definition search_header (imap : Connection.t) (field msgId : string) : list Z :=
  match Connection.search imap field msgId with
  | inl _ => []
  | inr results => default [] results
  end.

(** [uniqueUids]: both rounds of searches, flattened, without repeats. *)
Definition uniqueUids (imap : Connection.t) (ids : list string) : list Z :=
  let searchPromises := search_header imap "MESSAGE-ID" <$> ids in
  let refSearchPromises := search_header imap "REFERENCES" <$> ids in
  Set_add_all (concat (searchPromises ++ refSearchPromises)) [].

(** The ['end'] handler of a message of the thread fetch: the message it
    pushes, or [None] when the [catch] logs the error and drops it (the
    parser rejects, or [attrs] is [null] at [attrs.uid]). *)
Definition getThread_on_message (uid : string) (fm : Fetched.t)
    : option EmailMessage.t :=
  match simpleParser E (Fetched.raw fm) with
  | inl _ => None
  | inr parsed =>
      match Fetched.attrs fm with
      | None => None
      | Some attrs =>
          Some
            {| EmailMessage.id := pretty (Attrs.uid attrs);
               EmailMessage.threadId := uid;
               EmailMessage.subject := Js.or_else (ParsedMail.subject parsed) "(No Subject)";
               EmailMessage.from := Js.or_else (ParsedMail.from parsed) "";
               EmailMessage.to :=
                 match ParsedMail.to parsed with
                 | Some v => as_array v
                 | None => []
                 end;
               EmailMessage.cc := None;
               EmailMessage.date := default (Fetched.now fm) (ParsedMail.date parsed);
               EmailMessage.snippet := Js.take 200 (Js.or_else (ParsedMail.text parsed) "");
               EmailMessage.body := Some (Js.or_else (ParsedMail.text parsed) "");
               EmailMessage.bodyHtml := None;
               EmailMessage.labels := ["INBOX"];
               EmailMessage.isRead := Some (seen (Fetched.attrs fm));
               EmailMessage.hasAttachments := None;
               EmailMessage.attachments := None;
               EmailMessage.messageId := ParsedMail.messageId parsed;
               EmailMessage.inReplyTo := None;
               EmailMessage.references := None |}
      end
  end.

(** The array [messages] when the fetch emits ['end']: what the handlers
    that are through by then have pushed, each one after its
    [await simpleParser], in the order in which the parses were over. *)
Definition thread_messages (uid : string) (f : Fetch.t) : list EmailMessage.t :=
  omap (getThread_on_message uid) (parsed_early f).

(** [(a, b) => new Date(a.date).getTime() - new Date(b.date).getTime()]. *)
Definition oldest_first (a b : EmailMessage.t) : Z :=
  EmailMessage.date a - EmailMessage.date b.

(** [(a, b) => new Date(b.date).getTime() - new Date(a.date).getTime()]. *)
Definition newest_first (a b : EmailMessage.t) : Z :=
  EmailMessage.date b - EmailMessage.date a.

(** [getThread(uid)]. *)
Definition getThread (uid : string) : promise ThreadResult.t :=
  try_catch
    (let! originalMessage := getMessage uid in
     match originalMessage with
     | None =>
         resolve {| ThreadResult.messages := [];
                    ThreadResult.threadId := uid;
                    ThreadResult.messageCount := 0 |}
     | Some originalMessage =>
         let threadMessageIds := threadMessageIds originalMessage in
         if (length threadMessageIds =? 0)%nat
         then resolve (ThreadResult_singleton uid originalMessage)
         else
           let! imap := createConnection in
           match Connection.connect imap with
           | Some _ => resolve (ThreadResult_singleton uid originalMessage)
           | None =>
               match Connection.openBox imap with
               | inl _ => resolve (ThreadResult_singleton uid originalMessage)
               | inr _ =>
                   let uniqueUids := uniqueUids imap threadMessageIds in
                   if (length uniqueUids =? 0)%nat
                   then resolve (ThreadResult_singleton uid originalMessage)
                   else
                     let fetch := Connection.fetch imap (pretty <$> uniqueUids) in
                     match Fetch.error fetch with
                     | Some _ => resolve (ThreadResult_singleton uid originalMessage)
                     | None =>
                         let messages :=
                           Array_sort oldest_first (thread_messages uid fetch) in
                         resolve {| ThreadResult.messages := messages;
                                    ThreadResult.threadId := uid;
                                    ThreadResult.messageCount :=
                                      Z.of_nat (length messages) |}
                     end
               end
           end
     end)
    (fun error => reject ("Failed to get thread: " +:+ error)).

(** *** listMessages *)

(** One turn of the loop of [parseHeaders] over the lines; the state is
    [headers], [currentKey] and [currentValue].  A line with a colon has
    an [indexOf(':')], the only case in which the source reads it. *)
Definition parseHeaders_line (st : gmap string string * string * string)
    (line : string) : gmap string string * string * string :=
  let '(headers, currentKey, currentValue) := st in
  if Js.startsWith " " line || Js.startsWith (String Js.TAB "") line
  then (headers, currentKey, currentValue +:+ " " +:+ Js.trim line)
  else
    match Js.indexOf ":" line with
    | Some colonIndex =>
        let headers :=
          if Js.truthy currentKey
          then <[Js.toLowerCase currentKey := currentValue]> headers
          else headers in
        (headers,
         Js.trim (Js.take colonIndex line),
         Js.trim (Js.drop (S colonIndex) line))
    | None => st
    end.

(** [parseHeaders(headerStr)].  The keys the callers read are not
    properties of [Object.prototype], so that a lookup in the object is
    a lookup in the map. *)
Definition parseHeaders (headerStr : string) : gmap string string :=
  let '(headers, currentKey, currentValue) :=
    fold_left parseHeaders_line (Js.split_lines headerStr) (∅, "", "") in
  if Js.truthy currentKey
  then <[Js.toLowerCase currentKey := currentValue]> headers
  else headers.

(** The text [listMessages] looks for in the body structure. *)
Definition attachment_marker : string :=
  String Js.DQ ("disposition" +:+ String Js.DQ (":[" +:+
    String Js.DQ ("attachment" +:+ String Js.DQ ""))).

(** [s.split(',').map(e => e.trim()).filter(Boolean)]. *)
Definition address_list (s : string) : list string :=
  List.filter Js.truthy (Js.trim <$> Js.split "," s).

(** The ['end'] handler of a message in [listMessages]; [None] when the
    [catch] drops the message ([attrs] is [null] at [attrs.struct]). *)
Definition listMessages_on_message (fm : Fetched.t) : option EmailMessage.t :=
  let headers := parseHeaders (Fetched.raw fm) in
  match Fetched.attrs fm with
  | None => None
  | Some attrs =>
      let hasAttachments :=
        match Attrs.struct attrs with
        | Some struct =>
            Some (Js.includes attachment_marker (JSON.stringify struct))
        | None => None
        end in
      let subject := Js.or_else (headers !! "subject") "(No Subject)" in
      Some
        {| EmailMessage.id := pretty (Attrs.uid attrs);
           EmailMessage.threadId := pretty (Attrs.uid attrs);
           EmailMessage.subject := subject;
           EmailMessage.from := Js.or_else (headers !! "from") "";
           EmailMessage.to := address_list (Js.or_else (headers !! "to") "");
           EmailMessage.cc :=
             match headers !! "cc" with
             | Some cc => if Js.truthy cc then Some (address_list cc) else None
             | None => None
             end;
           EmailMessage.date := default (Fetched.now fm) (Attrs.date attrs);
           EmailMessage.snippet :=
             subject +:+ " - " +:+ Js.or_else (headers !! "from") "Unknown sender";
           EmailMessage.body := None;
           EmailMessage.bodyHtml := None;
           EmailMessage.labels := ["INBOX"];
           EmailMessage.isRead := Some (seen (Fetched.attrs fm));
           EmailMessage.hasAttachments := hasAttachments;
           EmailMessage.attachments := None;
           EmailMessage.messageId := headers !! "message-id";
           EmailMessage.inReplyTo := headers !! "in-reply-to";
           EmailMessage.references :=
             (fun r => List.filter Js.truthy (Js.split_ws r)) <$> headers !! "references" |}
  end.

(** [listMessages(count)].  The handlers are synchronous: every message
    is in the array when the fetch ends. *)
Definition listMessages (count : Z) : promise (list EmailMessage.t) :=
  let! imap := createConnection in
  match Connection.connect imap with
  | Some e => reject ("IMAP connection error: " +:+ e)
  | None =>
      match Connection.openBox imap with
      | inl e => reject ("Failed to open inbox: " +:+ e)
      | inr total =>
          if total =? 0 then resolve []
          else
            let start := Z.max 1 (total - count + 1) in
            let range := pretty start +:+ ":" +:+ pretty total in
            let fetch := Connection.seq_fetch imap range in
            let messages := omap listMessages_on_message (Fetch.msgs fetch) in
            match Fetch.error fetch with
            | Some e => reject ("Fetch error: " +:+ e)
            | None => resolve (Array_sort newest_first messages)
            end
      end
  end.

(** *** getAttachment *)

Definition size_limit_message (size : Z) (maxSizeBytes : Q) : string :=
  "Attachment size (" +:+ pretty size +:+ " bytes) exceeds limit ("
    +:+ Js.number_text (Number_toString E) maxSizeBytes +:+ " bytes)".

(** [parsed.attachments[attachmentIndex]]: [undefined] out of range and
    for an index that is no position. *)
Definition array_get {A} (l : list A) (i : Q) : option A :=
  match Js.array_index i with
  | Some n => l !! n
  | None => None
  end.

(** The ['end'] handler of the message in [getAttachment].  The index
    and the limit are the numbers of the caller, which need not be
    integers. *)
Definition getAttachment_on_message (attachmentIndex maxSizeBytes : Q)
    (fm : Fetched.t) : settled (option AttachmentContent.t) :=
  match simpleParser E (Fetched.raw fm) with
  | inl e => Rejected ("Failed to parse attachment: " +:+ e)
  | inr parsed =>
      let attachments := default [] (ParsedMail.attachments parsed) in
      if (length attachments =? 0)%nat then Resolved None
      else if Qle_bool (inject_Z (Z.of_nat (length attachments))) attachmentIndex
      then Resolved None
      else
        match array_get attachments attachmentIndex with
        | None =>
            Rejected ("Failed to parse attachment: " +:+
                      "Cannot read properties of undefined (reading 'size')")
        | Some attachment =>
            if negb (Qle_bool (inject_Z (Attachment.size attachment)) maxSizeBytes)
            then Rejected (size_limit_message (Attachment.size attachment) maxSizeBytes)
            else
              Resolved (Some
                {| AttachmentContent.filename :=
                     Js.or_else (Attachment.filename attachment)
                       ("attachment_"
                          +:+ Js.number_text (Number_toString E) attachmentIndex);
                   AttachmentContent.contentType :=
                     Js.or_else (Some (Attachment.contentType attachment))
                       "application/octet-stream";
                   AttachmentContent.size := Attachment.size attachment;
                   AttachmentContent.content :=
                     base64 E (Attachment.content attachment) |})
        end
  end.

(** [getAttachment(uid, attachmentIndex, maxSizeBytes)]. *)
Definition getAttachment (uid : string) (attachmentIndex maxSizeBytes : Q)
    : promise (option AttachmentContent.t) :=
  let! imap := createConnection in
  match Connection.connect imap with
  | Some e => reject ("IMAP connection error: " +:+ e)
  | None =>
      match Connection.openBox imap with
      | inl e => reject ("Failed to open inbox: " +:+ e)
      | inr _ =>
          settle (first_settlement
                    (getAttachment_on_message attachmentIndex maxSizeBytes)
                    (Connection.fetch imap [uid]))
      end
  end.

End WithEnv.
End ImapService.

(** ** SmtpService *)

Module SmtpService.
Section WithEnv.

Variable E : Env.

(** [this.transporter.sendMail(mailOptions)]. *)
Definition transporter_sendMail (mailOptions : MailOptions.t) : promise string :=
  let! _ := record_call (CallSendMail mailOptions) in
  match sendMail E mailOptions with
  | inl e => reject e
  | inr messageId => resolve messageId
  end.

(** The object [mailOptions] of [sendReply], after the threading headers
    were added to it. *)
Definition mailOptions_of (params : ReplyParams.t) : MailOptions.t :=
  {| MailOptions.from := smtp_user E;
     MailOptions.to := ReplyParams.to params;
     MailOptions.subject :=
       if Js.startsWith "Re:" (ReplyParams.subject params)
       then ReplyParams.subject params
       else "Re: " +:+ ReplyParams.subject params;
     MailOptions.text := ReplyParams.body params;
     MailOptions.cc := ReplyParams.cc params;
     MailOptions.inReplyTo := Js.or_undefined (ReplyParams.inReplyTo params);
     MailOptions.references :=
       match ReplyParams.references params with
       | Some references =>
           if (0 <? length references)%nat
           then Some (Js.join " " references)
           else None
       | None => None
       end |}.

(** [sendReply(params)]. *)
Definition sendReply (params : ReplyParams.t) : promise SendResult.t :=
  let! _ := record_call (CallSendReply params) in
  try_catch
    (if negb (Js.truthy (ReplyParams.to params))
        || negb (Js.includes "@" (ReplyParams.to params))
     then
       resolve {| SendResult.messageId := "";
                  SendResult.success := false;
                  SendResult.message := "Invalid recipient email address" |}
     else
       let mailOptions := mailOptions_of params in
       let! messageId := transporter_sendMail mailOptions in
       resolve {| SendResult.messageId := messageId;
                  SendResult.success := true;
                  SendResult.message := "Reply sent successfully" |})
    (fun error =>
       resolve {| SendResult.messageId := "";
                  SendResult.success := false;
                  SendResult.message := "Failed to send reply: " +:+ error |}).

End WithEnv.
End SmtpService.

(** ** EmailOperations *)

Module EmailOperations.
Section WithEnv.

Variable E : Env.

(** [/<([^>]+)>/] *)
Definition angle_address : Js.regex :=
  [Js.Lit "<"; Js.GroupOpen;
   Js.Plus (fun c => negb (Ascii.eqb c ">"));
   Js.GroupClose; Js.Lit ">"].

(** [/([^\s<]+@[^\s>]+)/] *)
Definition bare_address : Js.regex :=
  [Js.GroupOpen;
   Js.Plus (fun c => negb (Js.is_space c) && negb (Ascii.eqb c "<"));
   Js.Lit "@";
   Js.Plus (fun c => negb (Js.is_space c) && negb (Ascii.eqb c ">"));
   Js.GroupClose].

(** [fromMatch ? fromMatch[1] : originalHeaders.from]. *)
Definition replyTo_of (from : string) : string :=
  let fromMatch :=
    match Js.match_group1 angle_address from with
    | Some g => Some g
    | None => Js.match_group1 bare_address from
    end in
  match fromMatch with
  | Some g => g
  | None => from
  end.

(** [body.split('\n').map(line => `> ${line}`).join('\n')]. *)
Definition quotedBody (body : string) : string :=
  Js.join Js.nl ((fun line => "> " +:+ line) <$> Js.split Js.LF body).

(** [listMessages(params)]. *)
Definition listMessages (count : Z) : promise (list EmailMessage.t) :=
  try_catch (ImapService.listMessages E count)
    (fun error => reject ("Failed to list messages: " +:+ error)).

(** [getMessage(params)]. *)
Definition getMessage (id : string) : promise (option EmailMessage.t) :=
  try_catch (ImapService.getMessage E id)
    (fun error => reject ("Failed to get message: " +:+ error)).

(** [replyBody]: the body of the reply, with the quote when asked for
    and when the original has a body. *)
Definition replyBody_of (params : ReplyToMessageParams.t)
    (originalHeaders : ImapService.MessageHeaders) : string :=
  if ReplyToMessageParams.includeQuote params
     && Js.truthy (ImapService.h_body originalHeaders)
  then
    let formattedDate := toLocaleString E (ImapService.h_date originalHeaders) in
    ReplyToMessageParams.body params +:+ Js.nl +:+ Js.nl +:+ "---"
      +:+ Js.nl +:+ "On " +:+ formattedDate +:+ ", "
      +:+ ImapService.h_from originalHeaders +:+ " wrote:" +:+ Js.nl
      +:+ quotedBody (ImapService.h_body originalHeaders)
  else ReplyToMessageParams.body params.

(** The argument of the call of [sendReply]. *)
Definition replyParams_of (params : ReplyToMessageParams.t)
    (originalHeaders : ImapService.MessageHeaders) : ReplyParams.t :=
  {| ReplyParams.to := replyTo_of (ImapService.h_from originalHeaders);
     ReplyParams.subject := ImapService.h_subject originalHeaders;
     ReplyParams.body := replyBody_of params originalHeaders;
     ReplyParams.inReplyTo := ImapService.h_messageId originalHeaders;
     ReplyParams.references := Some (ImapService.h_references originalHeaders);
     ReplyParams.cc := None |}.

(** [replyToMessage(params)]. *)
Definition replyToMessage (params : ReplyToMessageParams.t) : promise SendResult.t :=
  try_catch
    (let! originalHeaders :=
       ImapService.getMessageHeaders E (ReplyToMessageParams.id params) in
     match originalHeaders with
     | None =>
         resolve {| SendResult.messageId := "";
                    SendResult.success := false;
                    SendResult.message := "Original message not found" |}
     | Some originalHeaders =>
         let replyTo := replyTo_of (ImapService.h_from originalHeaders) in
         if negb (Js.truthy replyTo) || negb (Js.includes "@" replyTo)
         then
           resolve {| SendResult.messageId := "";
                      SendResult.success := false;
                      SendResult.message :=
                        "Could not determine reply address from original message" |}
         else SmtpService.sendReply E (replyParams_of params originalHeaders)
     end)
    (fun error =>
       resolve {| SendResult.messageId := "";
                  SendResult.success := false;
                  SendResult.message := "Failed to send reply: " +:+ error |}).

(** [getThread(params)]. *)
Definition getThread (id : string) : promise ThreadResult.t :=
  try_catch (ImapService.getThread E id)
    (fun error => reject ("Failed to get thread: " +:+ error)).

(** [getAttachment(params)]. *)
Definition getAttachment (messageId : string) (attachmentIndex maxSizeBytes : Q)
    : promise (option AttachmentContent.t) :=
  try_catch (ImapService.getAttachment E messageId attachmentIndex maxSizeBytes)
    (fun error => reject ("Failed to get attachment: " +:+ error)).

End WithEnv.
End EmailOperations.

(** ** The other operations of the services

    [searchMessages] and [markAsRead] of [ImapService], [sendMessage] and
    [verifyConnection] of [SmtpService], and their callers in
    [EmailOperations].  What they ask of a connection beyond the calls
    modelled above, and of the transport, is the environment [Services]. *)

Module OperationResult.
Record t := mk {
  success : bool;
  message : string
}.
End OperationResult.

Module SearchResult.
Record t := mk {
  messages : list EmailMessage.t;
  totalCount : Z;
  query : string
}.
End SearchResult.

Module SendMessageParams.
Record t := mk {
  to : string;
  subject : string;
  body : string;
  cc : option string;
  bcc : option string
}.
End SendMessageParams.

(** The options object [sendMessage] hands to [transporter.sendMail]. *)
Module MessageOptions.
Record t := mk {
  from : string;
  to : string;
  subject : string;
  text : string;
  cc : option string;
  bcc : option string
}.
End MessageOptions.

Module MailboxOps.
Record t := mk {
  openBox_rw : string + Z;                    (* [imap.openBox('INBOX', false)] *)
  search_text : string -> string + option (list Z);
                                              (* [imap.search(['ALL', ['TEXT', query]])] *)
  fetch_headers : list string -> Fetch.t;     (* [imap.fetch(uids, {bodies: 'HEADER.FIELDS ...'})] *)
  addFlags : list string -> list string -> option string;
                                              (* [imap.addFlags(uids, flags, cb)]: the error *)
  delFlags : list string -> list string -> option string
}.
End MailboxOps.

Record Services := {
  ops : nat -> MailboxOps.t;                  (* of the n-th connection created *)
  sendMail_message : MessageOptions.t -> string + string;
                                              (* error, or [info.messageId] *)
  verify : option string                      (* [transporter.verify()]: the error *)
}.

(** [xs.slice(-n)]: the last [n] elements. *)
Definition slice_last {A} (n : nat) (xs : list A) : list A :=
  List.skipn (length xs - n) xs.

Module ImapServiceRest.
Section WithEnv.

Variable E : Env.
Variable X : Services.

(** [extractEmail(header)]. *)
Definition extractEmail (header : string) : string :=
  if negb (Js.truthy header) then ""
  else
    let match_ :=
      match Js.match_group1 EmailOperations.angle_address header with
      | Some g => Some g
      | None => Js.match_group1 EmailOperations.bare_address header
      end in
    match match_ with
    | Some g => g
    | None => header
    end.

(** [createConnection()], with what the connection does for the
    operations of this module. *)
Definition createConnection : promise (Connection.t * MailboxOps.t) :=
  fun st =>
    (Resolved (server E (connections st), ops X (connections st)),
     {| connections := S (connections st); calls := calls st |}).

(** The ['end'] handler of a message in [searchMessages]; [None] when the
    [catch] drops the message ([attrs] is [null] at [attrs.uid]). *)
Definition searchMessages_on_message (fm : Fetched.t) : option EmailMessage.t :=
  let headers := ImapService.parseHeaders (Fetched.raw fm) in
  match Fetched.attrs fm with
  | None => None
  | Some attrs =>
      let subject := Js.or_else (headers !! "subject") "(No Subject)" in
      Some
        {| EmailMessage.id := pretty (Attrs.uid attrs);
           EmailMessage.threadId := pretty (Attrs.uid attrs);
           EmailMessage.subject := subject;
           EmailMessage.from := Js.or_else (headers !! "from") "";
           EmailMessage.to :=
             ImapService.address_list (Js.or_else (headers !! "to") "");
           EmailMessage.cc := None;
           EmailMessage.date := default (Fetched.now fm) (Attrs.date attrs);
           EmailMessage.snippet :=
             subject +:+ " - " +:+ Js.or_else (headers !! "from") "Unknown sender";
           EmailMessage.body := None;
           EmailMessage.bodyHtml := None;
           EmailMessage.labels := ["INBOX"];
           EmailMessage.isRead := Some (seen (Fetched.attrs fm));
           EmailMessage.hasAttachments := None;
           EmailMessage.attachments := None;
           EmailMessage.messageId := None;
           EmailMessage.inReplyTo := None;
           EmailMessage.references := None |}
  end.

(** [searchMessages(query)]. *)
Definition searchMessages (query : string) : promise SearchResult.t :=
  let! conn := createConnection in
  let '(imap, more) := conn in
  match Connection.connect imap with
  | Some e => reject ("IMAP connection error: " +:+ e)
  | None =>
      match Connection.openBox imap with
      | inl e => reject ("Failed to open inbox: " +:+ e)
      | inr _ =>
          match MailboxOps.search_text more query with
          | inl e => reject ("Search error: " +:+ e)
          | inr results =>
              let results := default [] results in
              if (length results =? 0)%nat
              then resolve {| SearchResult.messages := [];
                              SearchResult.totalCount := 0;
                              SearchResult.query := query |}
              else
                let limitedResults := slice_last 50 results in
                let fetch := MailboxOps.fetch_headers more (pretty <$> limitedResults) in
                let messages := omap searchMessages_on_message (Fetch.msgs fetch) in
                match Fetch.error fetch with
                | Some e => reject ("Fetch error: " +:+ e)
                | None =>
                    resolve {| SearchResult.messages :=
                                 Array_sort ImapService.newest_first messages;
                               SearchResult.totalCount := Z.of_nat (length results);
                               SearchResult.query := query |}
                end
          end
      end
  end.

(** [markAsRead(uid, read)]. *)
Definition markAsRead (uid : string) (read : bool) : promise OperationResult.t :=
  let! conn := createConnection in
  let '(imap, more) := conn in
  match Connection.connect imap with
  | Some e => reject ("IMAP connection error: " +:+ e)
  | None =>
      match MailboxOps.openBox_rw more with
      | inl e => reject ("Failed to open inbox: " +:+ e)
      | inr _ =>
          let flagOperation :=
            if read then MailboxOps.addFlags more else MailboxOps.delFlags more in
          match flagOperation [uid] ["\Seen"] with
          | Some e =>
              resolve {| OperationResult.success := false;
                         OperationResult.message :=
                           "Failed to "
                             +:+ (if read then "mark as read" else "mark as unread")
                             +:+ ": " +:+ e |}
          | None =>
              resolve {| OperationResult.success := true;
                         OperationResult.message :=
                           "Message "
                             +:+ (if read then "marked as read" else "marked as unread")
                             +:+ " successfully" |}
          end
      end
  end.

End WithEnv.
End ImapServiceRest.

Module SmtpServiceRest.
Section WithEnv.

Variable E : Env.
Variable X : Services.

(** [this.transporter.sendMail(mailOptions)] for the options of
    [sendMessage]. *)
Definition transporter_sendMail (mailOptions : MessageOptions.t) : promise string :=
  match sendMail_message X mailOptions with
  | inl e => reject e
  | inr messageId => resolve messageId
  end.

(** [sendMessage(params)]. *)
Definition sendMessage (params : SendMessageParams.t) : promise SendResult.t :=
  try_catch
    (let mailOptions :=
       {| MessageOptions.from := smtp_user E;
          MessageOptions.to := SendMessageParams.to params;
          MessageOptions.subject := SendMessageParams.subject params;
          MessageOptions.text := SendMessageParams.body params;
          MessageOptions.cc := SendMessageParams.cc params;
          MessageOptions.bcc := SendMessageParams.bcc params |} in
     let! messageId := transporter_sendMail mailOptions in
     resolve {| SendResult.messageId := messageId;
                SendResult.success := true;
                SendResult.message := "Email sent successfully" |})
    (fun error =>
       resolve {| SendResult.messageId := "";
                  SendResult.success := false;
                  SendResult.message := "Failed to send email: " +:+ error |}).

(** [verifyConnection()]. *)
Definition verifyConnection : promise bool :=
  try_catch
    (match verify X with
     | Some e => reject e
     | None => resolve true
     end)
    (fun _ => resolve false).

End WithEnv.
End SmtpServiceRest.

Module EmailOperationsRest.
Section WithEnv.

Variable E : Env.
Variable X : Services.

(** [findMessages(params)]. *)
Definition findMessages (query : string) : promise SearchResult.t :=
  try_catch (ImapServiceRest.searchMessages E X query)
    (fun error => reject ("Failed to search messages: " +:+ error)).

(** [sendMessage(params)]. *)
Definition sendMessage (params : SendMessageParams.t) : promise SendResult.t :=
  try_catch (SmtpServiceRest.sendMessage E X params)
    (fun error =>
       resolve {| SendResult.messageId := "";
                  SendResult.success := false;
                  SendResult.message := "Failed to send email: " +:+ error |}).

(** [markAsRead(params)]. *)
Definition markAsRead (id : string) (read : bool) : promise OperationResult.t :=
  try_catch (ImapServiceRest.markAsRead E X id read)
    (fun error =>
       resolve {| OperationResult.success := false;
                  OperationResult.message :=
                    "Failed to update message: " +:+ error |}).

End WithEnv.
End EmailOperationsRest.

(** ** What a call of replyToMessage sends *)

(** The mails handed to the transport between two states. *)
Definition mails_sent (before after : State) : list MailOptions.t :=
  omap (fun c => match c with CallSendMail o => Some o | CallSendReply _ => None end)
    (List.skipn (length (calls before)) (calls after)).

(** The mails [replyToMessage(params)] hands to the transport. *)
Definition outgoing (E : Env) (params : ReplyToMessageParams.t) (st : State)
    : list MailOptions.t :=
  mails_sent st (snd (EmailOperations.replyToMessage E params st)).

(** The References header of a list of tokens: absent for no token. *)
Definition references_header (tokens : list string) : option string :=
  match tokens with
  | [] => None
  | _ :: _ => Some (Js.join " " tokens)
  end.

Definition not_empty (s : string) : bool := negb (String.eqb s "").

(** The tokens of a target that are there: its References without the
    empty ones, in their order, and then its Message-ID when it has one
    that is not empty. *)
Definition present_tokens (m : EmailMessage.t) : list string :=
  List.filter not_empty (default [] (EmailMessage.references m))
  ++ match EmailMessage.messageId m with
     | Some mid => if not_empty mid then [mid] else []
     | None => []
     end.

(** ** A mailbox to run the code on *)

Module Scenario.

Definition mail (subject from : string) (date : Z) (text : string)
    (messageId inReplyTo : option string)
    (references : option (one_or_many string))
    (attachments : option (list Attachment.t)) : ParsedMail.t :=
  {| ParsedMail.subject := Some subject;
     ParsedMail.from := Some from;
     ParsedMail.to := Some (One "me@example.com");
     ParsedMail.cc := None;
     ParsedMail.date := Some date;
     ParsedMail.text := Some text;
     ParsedMail.html := None;
     ParsedMail.messageId := messageId;
     ParsedMail.inReplyTo := inReplyTo;
     ParsedMail.references := references;
     ParsedMail.attachments := attachments |}.

Definition report_pdf : Attachment.t :=
  {| Attachment.filename := Some "report.pdf";
     Attachment.contentType := "application/pdf";
     Attachment.size := 2048;
     Attachment.content := "%PDF" |}.

(** Message 19 answers 18, which answers 17; 21 has no address and no
    threading header; the sender of 22 is a bare [a@]; 23 answers 17 and
    has no Message-ID of its own. *)
Definition parser (raw : string) : string + ParsedMail.t :=
  if String.eqb raw "raw18" then
    inr (mail "Meeting" "Bob <bob@example.com>" 1000 "see you"
           (Some "<m18@x>") (Some "<m17@x>") (Some (One "<m17@x>")) None)
  else if String.eqb raw "raw19" then
    inr (mail "Meeting" "Jane Doe <jane@example.com>" 2000
           ("line1" +:+ Js.nl +:+ "line2")
           (Some "<m19@x>") (Some "<m18@x>")
           (Some (Many ["<m17@x>"; "<m18@x>"])) (Some [report_pdf]))
  else if String.eqb raw "raw20" then
    inr (mail "Re: Meeting" "jane@example.com" 2000 "fine"
           (Some "<m20@x>") (Some "<m19@x>")
           (Some (Many ["<m17@x>"; "<m18@x>"; "<m19@x>"])) None)
  else if String.eqb raw "raw21" then
    inr (mail "Hello" "Jane Doe" 3000 "hi" None None None None)
  else if String.eqb raw "raw22" then
    inr (mail "Hello" "a@" 3000 "hi" None None None None)
  else if String.eqb raw "raw23" then
    inr (mail "Notes" "Ann <ann@example.com>" 4000 "attached"
           None (Some "<m17@x>") (Some (One "<m17@x>")) None)
  else inl "Unexpected end of input".

(** The parse of message 19, which has an attachment, takes longer than
    the parse of any other message. *)
Definition arrived (raw : string) (uid : Z) : Fetched.t :=
  {| Fetched.raw := raw;
     Fetched.attrs :=
       Some {| Attrs.uid := uid; Attrs.date := None;
               Attrs.flags := Some ["\Seen"]; Attrs.struct := None |};
     Fetched.now := 5000;
     Fetched.parsed_late := false;
     Fetched.parse_rank := if uid =? 19 then 1 else 0 |}.

(** The messages of the mailbox, by UID. *)
Definition stored (uid : string) : option Fetched.t :=
  if String.eqb uid "18" then Some (arrived "raw18" 18)
  else if String.eqb uid "19" then Some (arrived "raw19" 19)
  else if String.eqb uid "20" then Some (arrived "raw20" 20)
  else if String.eqb uid "21" then Some (arrived "raw21" 21)
  else if String.eqb uid "22" then Some (arrived "raw22" 22)
  else if String.eqb uid "23" then Some (arrived "raw23" 23)
  else None.

(** A text part of a body structure, as node-imap builds it. *)
Definition text_part (partID : string) (size lines : Z) : Json :=
  JObject [("partID", JString partID); ("type", JString "text");
           ("subtype", JString "plain");
           ("params", JObject [("charset", JString "utf-8")]);
           ("id", JNull); ("description", JNull);
           ("encoding", JString "7bit"); ("size", JNumber size);
           ("lines", JNumber lines); ("md5", JNull);
           ("disposition", JNull); ("language", JNull)].

(** A part that is an attachment: its disposition is the object
    [{type, params}]. *)
Definition attached_part (partID filename : string) (size : Z) : Json :=
  JObject [("partID", JString partID); ("type", JString "application");
           ("subtype", JString "pdf");
           ("params", JObject [("name", JString filename)]);
           ("id", JNull); ("description", JNull);
           ("encoding", JString "base64"); ("size", JNumber size);
           ("md5", JNull);
           ("disposition",
            JObject [("type", JString "attachment");
                     ("params", JObject [("filename", JString filename)])]);
           ("language", JArray [JString "en"])].

Definition mixed (parts : list Json) : Json :=
  JArray (JObject [("type", JString "mixed");
                   ("params", JObject [("boundary", JString "b1")]);
                   ("disposition", JNull); ("language", JNull)]
            :: ((fun part => JArray [part]) <$> parts)).

(** The header-only fetch of [listMessages]: two messages, the second
    with an attachment part in its body structure. *)
Definition listed : list Fetched.t :=
  [ {| Fetched.raw :=
         "Subject: Meeting" +:+ String Js.CR Js.nl +:+
         "From: Bob <bob@example.com>" +:+ String Js.CR Js.nl +:+
         "Message-ID: <m18@x>" +:+ String Js.CR Js.nl;
       Fetched.attrs :=
         Some {| Attrs.uid := 18; Attrs.date := Some 1000;
                 Attrs.flags := Some ["\Seen"];
                 Attrs.struct := Some (JArray [text_part "1" 7 1]) |};
       Fetched.now := 5000;
       Fetched.parsed_late := false;
       Fetched.parse_rank := 0 |};
    {| Fetched.raw :=
         "Subject: Meeting" +:+ String Js.CR Js.nl +:+
         "From: Jane Doe <jane@example.com>" +:+ String Js.CR Js.nl +:+
         "References: <m17@x>" +:+ String Js.CR Js.nl +:+
         " <m18@x>" +:+ String Js.CR Js.nl;
       Fetched.attrs :=
         Some {| Attrs.uid := 19; Attrs.date := Some 2000;
                 Attrs.flags := None;
                 Attrs.struct :=
                   Some (mixed [text_part "1" 11 2;
                                attached_part "2" "report.pdf" 2048]) |};
       Fetched.now := 5000;
       Fetched.parsed_late := false;
       Fetched.parse_rank := 0 |} ].

Definition inbox : Connection.t :=
  {| Connection.connect := None;
     Connection.openBox := inr 2;
     Connection.fetch := fun uids =>
       {| Fetch.msgs := omap stored uids; Fetch.error := None |};
     Connection.seq_fetch := fun _ =>
       {| Fetch.msgs := listed; Fetch.error := None |};
     Connection.search := fun field value =>
       if String.eqb field "REFERENCES" && String.eqb value "<m18@x>"
       then inr (Some [20; 19])
       else if String.eqb field "MESSAGE-ID" && String.eqb value "<m18@x>"
       then inr (Some [18])
       else if String.eqb field "MESSAGE-ID" && String.eqb value "<m19@x>"
       then inr (Some [19])
       else if String.eqb field "REFERENCES" then inl "BAD"
       else inr None |}.

(** A server on which every fetch breaks off. *)
Definition broken : Connection.t :=
  {| Connection.connect := None;
     Connection.openBox := inr 2;
     Connection.fetch := fun _ =>
       {| Fetch.msgs := []; Fetch.error := Some "socket closed" |};
     Connection.seq_fetch := fun _ =>
       {| Fetch.msgs := []; Fetch.error := Some "socket closed" |};
     Connection.search := fun _ _ => inl "socket closed" |}.

(** A server that refuses the connection. *)
Definition unreachable : Connection.t :=
  {| Connection.connect := Some "connect ECONNREFUSED";
     Connection.openBox := inl "Not authenticated";
     Connection.fetch := fun _ => {| Fetch.msgs := []; Fetch.error := None |};
     Connection.seq_fetch := fun _ => {| Fetch.msgs := []; Fetch.error := None |};
     Connection.search := fun _ _ => inl "Not authenticated" |}.

Definition env_of (c : Connection.t) : Env :=
  {| server := fun _ => c;
     simpleParser := parser;
     sendMail := fun _ => inr "<sent@example.com>";
     smtp_user := "me@example.com";
     toLocaleString := fun _ => "1/1/1970, 12:00:01 AM";
     base64 := fun _ => "JVBERg==";
     Number_toString := fun _ => "0.5" |}.

Definition mailbox : Env := env_of inbox.

(** The mailbox on the first connection only: every later connection is
    to the server on which searches and fetches break off. *)
Definition mailbox_once : Env :=
  {| server := fun n => match n with O => inbox | S _ => broken end;
     simpleParser := parser;
     sendMail := fun _ => inr "<sent@example.com>";
     smtp_user := "me@example.com";
     toLocaleString := fun _ => "1/1/1970, 12:00:01 AM";
     base64 := fun _ => "JVBERg==";
     Number_toString := fun _ => "0.5" |}.

(** The same mailbox behind a transport that refuses every mail. *)
Definition mailbox_without_relay : Env :=
  {| server := fun _ => inbox;
     simpleParser := parser;
     sendMail := fun _ => inl "Connection timeout";
     smtp_user := "me@example.com";
     toLocaleString := fun _ => "1/1/1970, 12:00:01 AM";
     base64 := fun _ => "JVBERg==";
     Number_toString := fun _ => "0.5" |}.

Definition start : State := {| connections := 0; calls := [] |}.

Definition reply (id body : string) (includeQuote : bool) : ReplyToMessageParams.t :=
  {| ReplyToMessageParams.id := id;
     ReplyToMessageParams.body := body;
     ReplyToMessageParams.includeQuote := includeQuote |}.

End Scenario.

(** ** Vocabulary of the statements *)

(** The state after one more connection was created. *)
Definition connected (st : State) : State :=
  {| connections := S (connections st); calls := calls st |}.

(** A message without threading header has no anchor token. *)
Definition no_threading_headers (m : EmailMessage.t) : Prop :=
  Js.truthy_opt (EmailMessage.messageId m) = false
  /\ Js.truthy_opt (EmailMessage.inReplyTo m) = false
  /\ (EmailMessage.references m = None \/ EmailMessage.references m = Some []).

(** Every search for an anchor token of [m] on connection [c] comes back
    with no UID (an error and [null] count as none). *)
Definition searches_find_nothing (c : Connection.t) (m : EmailMessage.t) : Prop :=
  forall field token,
    field ∈ ["MESSAGE-ID"; "REFERENCES"] ->
    token ∈ ImapService.threadMessageIds m ->
    ImapService.search_header c field token = [].

(** The fetch of the thread members that [getThread] starts for the
    target [m]: on the connection created after the one of [getMessage],
    for the UIDs its searches found. *)
Definition thread_fetch (E : Env) (st : State) (m : EmailMessage.t) : Fetch.t :=
  let imap := server E (S (connections st)) in
  Connection.fetch imap
    (pretty <$> ImapService.uniqueUids imap (ImapService.threadMessageIds m)).

Definition not_late (fm : Fetched.t) : bool := negb (Fetched.parsed_late fm).

(** The thread of [uid] without a message. *)
Definition empty_thread (uid : string) : ThreadResult.t :=
  {| ThreadResult.messages := [];
     ThreadResult.threadId := uid;
     ThreadResult.messageCount := 0 |}.

(** The flag [hasAttachments] is true exactly when the message has a list
    of attachment descriptors that is not empty. *)
Definition flag_matches_list (m : EmailMessage.t) : Prop :=
  EmailMessage.hasAttachments m = Some true
  <-> exists d, EmailMessage.attachments m = Some d /\ d <> [].

Definition produced_by_getMessage (E : Env) (uid : string) (st : State)
    (m : EmailMessage.t) : Prop :=
  fst (ImapService.getMessage E uid st) = Resolved (Some m).

Definition produced_by_getThread (E : Env) (uid : string) (st : State)
    (m : EmailMessage.t) : Prop :=
  exists r, fst (ImapService.getThread E uid st) = Resolved r
            /\ m ∈ ThreadResult.messages r.

Definition produced_by_listMessages (E : Env) (count : Z) (st : State)
    (m : EmailMessage.t) : Prop :=
  exists l, fst (ImapService.listMessages E count st) = Resolved l /\ m ∈ l.

(** A failure result: no message identifier, and the reason. *)
Definition failure (reason : string) : SendResult.t :=
  {| SendResult.messageId := "";
     SendResult.success := false;
     SendResult.message := reason |}.

(** The plain text of the target, as [getMessageHeaders] reads it. *)
Definition original_body (m : EmailMessage.t) : string :=
  Js.or_else (EmailMessage.body m) "".

(** The reply address cannot be determined: it is empty or has no [@]. *)
Definition address_undetermined (from : string) : bool :=
  negb (Js.truthy (EmailOperations.replyTo_of from))
  || negb (Js.includes "@" (EmailOperations.replyTo_of from)).

(** *** Body structures

    What node-imap builds from a BODYSTRUCTURE response holds, under the
    name [disposition], [null] or the object [{type, params}], and never
    an array. *)

(** [s] ends with [suffix]. *)
Fixpoint ends_with (suffix s : string) : bool :=
  String.eqb s suffix ||
  match s with
  | EmptyString => false
  | String _ r => ends_with suffix r
  end.

Definition is_array (j : Json) : bool :=
  match j with
  | JArray _ => true
  | _ => false
  end.

(** No member whose name ends with [disposition] holds an array, at any
    depth. *)
Fixpoint dispositions_are_no_arrays (j : Json) : bool :=
  match j with
  | JArray items => forallb dispositions_are_no_arrays items
  | JObject members =>
      forallb (fun kv =>
                 (negb (ends_with "disposition" (fst kv)) || negb (is_array (snd kv)))
                 && dispositions_are_no_arrays (snd kv))
        members
  | _ => true
  end.

(** The start of the marker of [listMessages], up to the bracket. *)
Definition watched : string :=
  String Js.DQ ("disposition" +:+ String Js.DQ ":[").

(** How much of [watched] the text read so far ends with, after one more
    character; 15 once all of it was read. *)
Definition step (k : nat) (c : ascii) : nat :=
  if (k =? 15)%nat then 15%nat
  else if match String.get k watched with
          | Some p => Ascii.eqb c p
          | None => false
          end then S k
  else if (k =? 13)%nat && Ascii.eqb c "d" then 2%nat
  else if Ascii.eqb c Js.DQ then 1%nat
  else 0%nat.

(** The state after the text [s], read from the state [k]. *)
Fixpoint scan (k : nat) (s : string) : nat :=
  match s with
  | EmptyString => k
  | String c r => scan (step k c) r
  end.

(** The characters of a number. *)
Definition digit_or_dash (c : ascii) : bool :=
  let n := N_of_ascii c in ((48 <=? n) && (n <=? 57) || (n =? 45))%N.

(** The states behind a whole value: at the start, behind a quote, behind
    the quoted [disposition], or behind its colon. *)
Definition rest_state (k : nat) : Prop :=
  k = 0%nat \/ k = 1%nat \/ k = 13%nat \/ k = 14%nat.

(** The body structures that the listing fetches of a connection deliver
    are as node-imap builds them. *)
Definition structures_as_built (c : Connection.t) : Prop :=
  forall range fm attrs struct,
    fm ∈ Fetch.msgs (Connection.seq_fetch c range) ->
    Fetched.attrs fm = Some attrs ->
    Attrs.struct attrs = Some struct ->
    dispositions_are_no_arrays struct = true.

(** *** What the two patterns of the reply address look for *)

(** Every character of [s] is in the class. *)
Fixpoint all_in (cls : ascii -> bool) (s : string) : bool :=
  match s with
  | EmptyString => true
  | String a s' => cls a && all_in cls s'
  end.

Definition not_gt (c : ascii) : bool := negb (Ascii.eqb c ">").
Definition local_char (c : ascii) : bool := negb (Js.is_space c) && negb (Ascii.eqb c "<").
Definition domain_char (c : ascii) : bool := negb (Js.is_space c) && negb (Ascii.eqb c ">").

(** After [pre], [s] has a [<], the text [g] that is not empty and has no
    [>], and a [>]. *)
Definition bracket_pair_at (s pre g : string) : Prop :=
  exists post,
    s = pre +:+ "<" +:+ g +:+ ">" +:+ post
    /\ g <> "" /\ all_in not_gt g = true.

(** [g] is the content of the first such pair of [s]. *)
Definition first_bracket_pair (s g : string) : Prop :=
  exists pre,
    bracket_pair_at s pre g
    /\ forall pre' g', bracket_pair_at s pre' g' ->
         (String.length pre <= String.length pre')%nat.

Definition no_bracket_pair (s : string) : Prop :=
  forall pre g, ~ bracket_pair_at s pre g.

(** After [pre], [s] has [local], an [@] and [domain]: two texts that are
    not empty, without white space, the first without [<] and the second
    without [>]. *)
Definition bare_token_at (s pre local domain : string) : Prop :=
  exists post,
    s = pre +:+ local +:+ "@" +:+ domain +:+ post
    /\ local <> "" /\ all_in local_char local = true
    /\ domain <> "" /\ all_in domain_char domain = true.

(** The pattern of a bare address from its [@] on: [@[^\s>]+], after
    which the group closes. *)
Definition at_domain : Js.regex :=
  [Js.Lit "@";
   Js.Plus (fun c => negb (Js.is_space c) && negb (Ascii.eqb c ">"));
   Js.GroupClose].

(** [g] is the first such token of [s], with the longest [local] part
    there is at that place and the longest [domain] part after it. *)
Definition first_bare_token (s g : string) : Prop :=
  exists pre local domain,
    g = local +:+ "@" +:+ domain
    /\ bare_token_at s pre local domain
    /\ forall pre' local' domain', bare_token_at s pre' local' domain' ->
         (String.length pre < String.length pre')%nat
         \/ (String.length pre = String.length pre'
             /\ ((String.length local' < String.length local)%nat
                 \/ (String.length local' = String.length local
                     /\ (String.length domain' <= String.length domain)%nat))).

Definition no_bare_token (s : string) : Prop :=
  forall pre local domain, ~ bare_token_at s pre local domain.

(** ** Vocabulary of the further properties *)

(** The state after [n] more connections, the calls to the sender as
    they were. *)
Definition connected_times (n : nat) (st : State) : State :=
  {| connections := (n + connections st)%nat; calls := calls st |}.

(** *** Header blocks *)

Definition CRLF : string := String Js.CR Js.nl.

(** The text of a list of lines, each one ended by CR LF. *)
Fixpoint lines_text (lines : list string) : string :=
  match lines with
  | [] => EmptyString
  | line :: rest => line +:+ CRLF +:+ lines_text rest
  end.

Definition name_char (c : ascii) : bool := negb (Js.is_space c) && negb (Ascii.eqb c ":").
Definition line_char (c : ascii) : bool := negb (Ascii.eqb c Js.CR) && negb (Ascii.eqb c Js.LF).

(** A header in a block: its name, the text after the colon, and the
    texts of its continuation lines. *)
Definition header : Type := string * string * list string.

Definition header_name (h : header) : string := fst (fst h).

(** The name is not empty and has no white space and no colon; no text
    has a CR or a LF. *)
Definition header_ok (h : header) : Prop :=
  let '(name, value, more) := h in
  name <> "" /\ all_in name_char name = true
  /\ all_in line_char value = true
  /\ Forall (fun w => all_in line_char w = true) more.

(** The lines of a header: [name:value], then each continuation behind a
    space. *)
Definition header_lines (h : header) : list string :=
  let '(name, value, more) := h in
  (name +:+ ":" +:+ value) :: ((fun w => " " +:+ w) <$> more).

(** The value [parseHeaders] keeps for a header: the trimmed texts of
    its lines, with one space between them. *)
Definition folded_value (h : header) : string :=
  let '(name, value, more) := h in
  fold_left (fun acc w => acc +:+ " " +:+ Js.trim w) more (Js.trim value).

Definition header_block (hs : list header) : string :=
  lines_text (concat (header_lines <$> hs)).

(** Every key of the map is a lower-case name that is not empty. *)
Definition lowercase_keys (headers : gmap string string) : Prop :=
  forall k v, headers !! k = Some v -> Js.toLowerCase k = k /\ k <> "".

(** [if (currentKey) headers[currentKey.toLowerCase()] = currentValue]. *)
Definition save (st : gmap string string * string * string) : gmap string string :=
  let '(headers, currentKey, currentValue) := st in
  if Js.truthy currentKey
  then <[Js.toLowerCase currentKey := currentValue]> headers
  else headers.

(** The map after a list of headers: each one stored under its
    lower-case name, a later one over an earlier one. *)
Definition stored_headers (hs : list header) (m : gmap string string)
    : gmap string string :=
  fold_left (fun m h => <[Js.toLowerCase (header_name h) := folded_value h]> m) hs m.

(** Takes the quote marks off a quoted body: the first two characters
    of every line. *)
Definition unquote (quoted : string) : string :=
  Js.join Js.nl (Js.drop 2 <$> Js.split Js.LF quoted).

Definition not_space (c : ascii) : bool := negb (Js.is_space c).
Definition not_comma (c : ascii) : bool := negb (Ascii.eqb c ",").

(** The flag operation of [markAsRead] on a connection. *)
Definition flag_operation (more : MailboxOps.t) (uid : string) (read : bool)
    : option string :=
  (if read then MailboxOps.addFlags more else MailboxOps.delFlags more)
    [uid] ["\Seen"].

(** The server delivers at most one message for each UID it is asked. *)
Definition one_message_per_uid (more : MailboxOps.t) : Prop :=
  forall uids,
    (length (Fetch.msgs (MailboxOps.fetch_headers more uids)) <= length uids)%nat.

(** ** Further mailboxes to run the code on *)

Module Further.

(** The mailbox on the first connection; every later connection is
    refused. *)
Definition searches_unreachable : Env :=
  {| server := fun n => match n with O => Scenario.inbox | S _ => Scenario.unreachable end;
     simpleParser := Scenario.parser;
     sendMail := fun _ => inr "<sent@example.com>";
     smtp_user := "me@example.com";
     toLocaleString := fun _ => "1/1/1970, 12:00:01 AM";
     base64 := fun _ => "JVBERg==";
     Number_toString := fun _ => "0.5" |}.

(** A server that answers the search for [meeting] with 60 UIDs and
    delivers one message for every UID it is asked for; its flags can be
    set but not cleared. *)
Definition many_hits : list Z := Z.of_nat <$> seq 1 60.

Definition header_only (uid : string) : Fetched.t :=
  {| Fetched.raw := "Subject: Meeting " +:+ uid +:+ CRLF;
     Fetched.attrs :=
       Some {| Attrs.uid := 7; Attrs.date := Some 1000;
               Attrs.flags := None; Attrs.struct := None |};
     Fetched.now := 5000;
     Fetched.parsed_late := false;
     Fetched.parse_rank := 0 |}.

Definition searchable : MailboxOps.t :=
  {| MailboxOps.openBox_rw := inr 2;
     MailboxOps.search_text := fun query =>
       if String.eqb query "meeting" then inr (Some many_hits) else inr None;
     MailboxOps.fetch_headers := fun uids =>
       {| Fetch.msgs := header_only <$> uids; Fetch.error := None |};
     MailboxOps.addFlags := fun _ _ => None;
     MailboxOps.delFlags := fun _ _ => Some "Mailbox is read-only" |}.

Definition services : Services :=
  {| ops := fun _ => searchable;
     sendMail_message := fun o =>
       if Js.includes "@" (MessageOptions.to o)
       then inr "<out@example.com>"
       else inl "No recipients defined";
     verify := None |}.

Definition message_to (to : string) : SendMessageParams.t :=
  {| SendMessageParams.to := to;
     SendMessageParams.subject := "Hello";
     SendMessageParams.body := "Hi there";
     SendMessageParams.cc := None;
     SendMessageParams.bcc := None |}.

End Further.

(** * Properties *)

(** ** Array.prototype.sort *)

Section ArraySortFacts.

Context {A : Type} (compareFn : A -> A -> Z) (key : A -> Z).

(** The comparator orders by the key: it is a difference of keys. *)
Hypothesis compareFn_key : forall x y, compareFn x y <= 0 <-> key x <= key y.

Lemma sort_insert_Permutation x l : Permutation (x :: l) (sort_insert compareFn x l).
Proof.
  induction l as [|y r IH]; simpl; [reflexivity|].
  destruct (compareFn x y <=? 0); [reflexivity|].
  rewrite perm_swap. now apply perm_skip.
Qed.

Lemma Array_sort_Permutation l : Permutation l (Array_sort compareFn l).
Proof.
  induction l as [|x l IH]; simpl; [reflexivity|].
  etransitivity; [apply perm_skip, IH|]. apply sort_insert_Permutation.
Qed.

Lemma sort_insert_sorted x l :
  StronglySorted (fun a b => key a <= key b) l -> StronglySorted (fun a b => key a <= key b) (sort_insert compareFn x l).
Proof.
  induction 1 as [|y r Hr IH Hy]; simpl.
  - repeat constructor.
  - destruct (Z.leb_spec (compareFn x y) 0) as [Hle|Hgt].
    + apply compareFn_key in Hle.
      constructor; [now constructor|].
      constructor; [exact Hle|].
      eapply Forall_impl; [exact Hy|].
      intros z Hz. cbn in *. lia.
    + constructor; [exact IH|].
      assert (Hyx : key y <= key x).
      { destruct (Z.le_gt_cases (key x) (key y)) as [H|H]; [|lia].
        apply compareFn_key in H. lia. }
      rewrite <- (sort_insert_Permutation x r).
      constructor; [exact Hyx | exact Hy].
Qed.

Lemma Array_sort_sorted l : StronglySorted (fun a b => key a <= key b) (Array_sort compareFn l).
Proof.
  induction l as [|x l IH]; simpl; [constructor|].
  now apply sort_insert_sorted.
Qed.

(** Stability: the elements of one key are in the order they had. *)
Lemma sort_insert_same_key x l k :
  List.filter (fun a => key a =? k) (sort_insert compareFn x l)
  = List.filter (fun a => key a =? k) (x :: l).
Proof.
  induction l as [|y r IH]; [reflexivity|].
  cbn [sort_insert].
  destruct (Z.leb_spec (compareFn x y) 0) as [Hle|Hgt]; [reflexivity|].
  cbn [List.filter] in *. rewrite IH.
  destruct (Z.eqb_spec (key x) k) as [Hx|Hx]; [|reflexivity].
  destruct (Z.eqb_spec (key y) k) as [Hy|Hy]; [|reflexivity].
  exfalso. assert (key x <= key y) as H%compareFn_key by lia. lia.
Qed.

Lemma Array_sort_stable l k :
  List.filter (fun a => key a =? k) (Array_sort compareFn l)
  = List.filter (fun a => key a =? k) l.
Proof.
  induction l as [|x l IH]; [reflexivity|].
  cbn [Array_sort foldr]. fold (Array_sort compareFn l).
  rewrite sort_insert_same_key. cbn [List.filter]. now rewrite IH.
Qed.

End ArraySortFacts.

(** ** The state a call leaves *)


Lemma getMessage_state E uid st :
  snd (ImapService.getMessage E uid st) = connected st.
Proof.
  unfold ImapService.getMessage, await, ImapService.createConnection,
    reject, settle. cbn.
  destruct (Connection.connect _); [reflexivity|].
  destruct (Connection.openBox _); reflexivity.
Qed.

Lemma getMessage_eq E uid st :
  ImapService.getMessage E uid st
  = (fst (ImapService.getMessage E uid st), connected st).
Proof.
  rewrite <- (getMessage_state E uid st).
  now destruct (ImapService.getMessage E uid st).
Qed.

Lemma getMessage_fst E uid st r :
  fst (ImapService.getMessage E uid st) = r ->
  ImapService.getMessage E uid st = (r, connected st).
Proof. intros <-. apply getMessage_eq. Qed.

(** [getMessage] on a connection that is ready and whose box opens. *)
Lemma getMessage_ready E uid st total :
  Connection.connect (server E (connections st)) = None ->
  Connection.openBox (server E (connections st)) = inr total ->
  ImapService.getMessage E uid st
  = (first_settlement (ImapService.getMessage_on_message E uid)
       (Connection.fetch (server E (connections st)) [uid]),
     connected st).
Proof.
  intros Hc Ho.
  unfold ImapService.getMessage, await, ImapService.createConnection, settle.
  cbn. now rewrite Hc, Ho.
Qed.

(** *** The first settlement *)

Lemma in_parse_order_Permutation msgs : Permutation msgs (in_parse_order msgs).
Proof. apply Array_sort_Permutation. Qed.

Lemma parsed_early_elem f fm : fm ∈ parsed_early f -> fm ∈ Fetch.msgs f.
Proof.
  unfold parsed_early. rewrite <- in_parse_order_Permutation.
  intros H%list_elem_of_In%filter_In. now apply list_elem_of_In.
Qed.

Lemma parsed_early_all_late f :
  Forall (fun fm => Fetched.parsed_late fm = true) (Fetch.msgs f) ->
  parsed_early f = [].
Proof.
  intros Hlate. unfold parsed_early.
  assert (Hnone : List.filter (fun fm => negb (Fetched.parsed_late fm)) (Fetch.msgs f)
                  = []).
  { induction Hlate as [|fm msgs Hfm _ IH]; [reflexivity|].
    cbn. now rewrite Hfm. }
  now rewrite Hnone.
Qed.

(** The settlement is that of the handler of a message of the fetch, or
    the error of the fetch, or [null] for a fetch without message. *)
Lemma first_settlement_cases {A} (on_message : Fetched.t -> settled (option A)) f :
  (exists fm, fm ∈ Fetch.msgs f /\ first_settlement on_message f = on_message fm)
  \/ (exists e, Fetch.error f = Some e
                /\ first_settlement on_message f = Rejected ("Fetch error: " +:+ e))
  \/ (Fetch.msgs f = [] /\ Fetch.error f = None
      /\ first_settlement on_message f = Resolved None).
Proof.
  unfold first_settlement.
  destruct (parsed_early f) as [|fm early] eqn:Hearly.
  - destruct (Fetch.error f) as [e|]; [right; left; now exists e|].
    destruct (in_parse_order (Fetch.msgs f)) as [|fm late] eqn:Hlate.
    + right; right. split; [|now split].
      apply Permutation_nil. now rewrite (in_parse_order_Permutation (Fetch.msgs f)), Hlate.
    + left. exists fm. split; [|reflexivity].
      rewrite (in_parse_order_Permutation (Fetch.msgs f)), Hlate. apply list_elem_of_here.
  - left. exists fm. split; [|reflexivity].
    apply parsed_early_elem. rewrite Hearly. apply list_elem_of_here.
Qed.

Lemma first_settlement_one {A} (on_message : Fetched.t -> settled (option A)) f fm :
  Fetch.msgs f = [fm] -> Fetch.error f = None ->
  first_settlement on_message f = on_message fm.
Proof.
  intros Hmsgs Herr. unfold first_settlement, parsed_early. rewrite Hmsgs, Herr.
  cbn. now destruct (Fetched.parsed_late fm).
Qed.

Lemma first_settlement_rejected {A} (on_message : Fetched.t -> settled (option A)) f e :
  first_settlement on_message f = Rejected e ->
  (exists e', e = "Fetch error: " +:+ e')
  \/ (exists fm, fm ∈ Fetch.msgs f /\ on_message fm = Rejected e).
Proof.
  destruct (first_settlement_cases on_message f)
    as [(fm & Hfm & ->) | [(e' & _ & ->) | (_ & _ & ->)]].
  - intros H. right. now exists fm.
  - intros [= <-]. left. now exists e'.
  - discriminate.
Qed.

(** ** The thread resolver *)

Lemma Set_add_all_nil {A} `{EqDecision A} (s : list A) : Set_add_all [] s = s.
Proof. reflexivity. Qed.

Lemma concat_all_nil {A} (ls : list (list A)) :
  Forall (fun l => l = []) ls -> concat ls = [].
Proof. induction 1 as [|l ls Hl _ IH]; [reflexivity|]. cbn. now rewrite Hl, IH. Qed.


Lemma no_threading_headers_no_anchor m :
  no_threading_headers m -> ImapService.threadMessageIds m = [].
Proof.
  intros (Hid & Hirt & Hrefs). unfold ImapService.threadMessageIds.
  destruct (EmailMessage.messageId m) as [i|]; cbn in Hid; [rewrite Hid|];
    (destruct (EmailMessage.inReplyTo m) as [j|]; cbn in Hirt; [rewrite Hirt|]);
    destruct Hrefs as [-> | ->]; reflexivity.
Qed.

Lemma searches_find_nothing_no_uid c m :
  searches_find_nothing c m ->
  ImapService.uniqueUids c (ImapService.threadMessageIds m) = [].
Proof.
  intros Hs. unfold ImapService.uniqueUids.
  rewrite concat_all_nil; [reflexivity|].
  apply Forall_app; split; apply Forall_fmap, Forall_forall; intros tok Htok;
    cbn; apply Hs; [set_solver | exact Htok | set_solver | exact Htok].
Qed.

(** C2. When the target is fetched and either it has no Message-ID, no
    In-Reply-To and no References, or the searches for its anchor tokens
    find no UID, [getThread] resolves with the thread of the target alone:
    one message, count 1. *)
Theorem getThread_singleton E uid st m st1 :
  ImapService.getMessage E uid st = (Resolved (Some m), st1) ->
  no_threading_headers m \/ searches_find_nothing (server E (connections st1)) m ->
  exists st',
    ImapService.getThread E uid st
    = (Resolved {| ThreadResult.messages := [m];
                   ThreadResult.threadId := uid;
                   ThreadResult.messageCount := 1 |}, st').
Proof.
  intros Hget Hcase.
  unfold ImapService.getThread, try_catch, await. rewrite Hget.
  destruct (length (ImapService.threadMessageIds m) =? 0)%nat eqn:Hlen;
    [eexists; reflexivity|].
  destruct Hcase as [Hnone | Hsearch].
  { apply no_threading_headers_no_anchor in Hnone.
    rewrite Hnone in Hlen. discriminate. }
  unfold ImapService.createConnection. cbn.
  destruct (Connection.connect _); [eexists; reflexivity|].
  destruct (Connection.openBox _); [eexists; reflexivity|].
  rewrite (searches_find_nothing_no_uid _ _ Hsearch). cbn.
  eexists; reflexivity.
Qed.

Lemma getThread_singleton_witness :
  (exists m st',
     ImapService.getMessage Scenario.mailbox "21" Scenario.start
       = (Resolved (Some m), connected Scenario.start)
     /\ no_threading_headers m
     /\ ImapService.getThread Scenario.mailbox "21" Scenario.start
        = (Resolved {| ThreadResult.messages := [m];
                       ThreadResult.threadId := "21";
                       ThreadResult.messageCount := 1 |}, st'))
  /\ (exists m st',
        ImapService.getMessage Scenario.mailbox_once "19" Scenario.start
          = (Resolved (Some m), connected Scenario.start)
        /\ ImapService.threadMessageIds m = ["<m19@x>"; "<m18@x>"; "<m17@x>"]
        /\ ImapService.getThread Scenario.mailbox_once "19" Scenario.start
           = (Resolved {| ThreadResult.messages := [m];
                          ThreadResult.threadId := "19";
                          ThreadResult.messageCount := 1 |}, st')).
Proof.
  split.
  - assert (Hget : ImapService.getMessage Scenario.mailbox "21" Scenario.start
      = (Resolved (Some
           (ImapService.message_of_parsed "21" (Scenario.arrived "raw21" 21)
              (Scenario.mail "Hello" "Jane Doe" 3000 "hi" None None None None))),
         connected Scenario.start)) by reflexivity.
    assert (Hnone : no_threading_headers
      (ImapService.message_of_parsed "21" (Scenario.arrived "raw21" 21)
         (Scenario.mail "Hello" "Jane Doe" 3000 "hi" None None None None))).
    { repeat split; try reflexivity. now left. }
    destruct (getThread_singleton Scenario.mailbox "21" Scenario.start _ _ Hget
                (or_introl Hnone)) as [st' Hst'].
    eexists. exists st'. split; [exact Hget|]. split; [exact Hnone | exact Hst'].
  - destruct (ImapService.getMessage Scenario.mailbox_once "19" Scenario.start)
      as [[[m|]|e] st1] eqn:Hget; try (vm_compute in Hget; discriminate Hget).
    assert (Hm : m = ImapService.message_of_parsed "19" (Scenario.arrived "raw19" 19)
                   (Scenario.mail "Meeting" "Jane Doe <jane@example.com>" 2000
                      ("line1" +:+ Js.nl +:+ "line2")
                      (Some "<m19@x>") (Some "<m18@x>")
                      (Some (Many ["<m17@x>"; "<m18@x>"]))
                      (Some [Scenario.report_pdf]))
                 /\ st1 = connected Scenario.start).
    { vm_compute in Hget. now injection Hget as <- <-. }
    destruct Hm as [Hm ->].
    assert (Hsearch : searches_find_nothing
              (server Scenario.mailbox_once (connections (connected Scenario.start))) m).
    { intros field token _ _. reflexivity. }
    destruct (getThread_singleton Scenario.mailbox_once "19" Scenario.start _ _ Hget
                (or_intror Hsearch)) as [st' Hst'].
    exists m, st'. split; [reflexivity|]. split; [|exact Hst'].
    rewrite Hm. reflexivity.
Defined.

(** What a resolved [getThread] holds: nothing when the target is not
    there, the target alone on every fallback, and otherwise the sorted
    array of the messages of the second fetch. *)
Lemma getThread_cases E uid st r st' :
  ImapService.getThread E uid st = (Resolved r, st') ->
  ThreadResult.threadId r = uid
  /\ ThreadResult.messageCount r = Z.of_nat (length (ThreadResult.messages r))
  /\ ((fst (ImapService.getMessage E uid st) = Resolved None
       /\ ThreadResult.messages r = [])
      \/ (exists m, fst (ImapService.getMessage E uid st) = Resolved (Some m)
                    /\ ThreadResult.messages r = [m])
      \/ (exists m, fst (ImapService.getMessage E uid st) = Resolved (Some m)
                    /\ ThreadResult.messages r
                       = Array_sort ImapService.oldest_first
                           (ImapService.thread_messages E uid (thread_fetch E st m)))).
Proof.
  unfold ImapService.getThread, try_catch, await.
  rewrite (getMessage_eq E uid st).
  destruct (fst (ImapService.getMessage E uid st)) as [[m|]|e]; cbn [fst].
  - assert (Hsingle : forall s,
      (Resolved (ImapService.ThreadResult_singleton uid m), s) = (Resolved r, st') ->
      ThreadResult.threadId r = uid
      /\ ThreadResult.messageCount r = Z.of_nat (length (ThreadResult.messages r))
      /\ ((Resolved (Some m) = Resolved None /\ ThreadResult.messages r = [])
          \/ (exists m0, Resolved (Some m) = Resolved (Some m0)
                         /\ ThreadResult.messages r = [m0])
          \/ (exists m0, Resolved (Some m) = Resolved (Some m0)
                         /\ ThreadResult.messages r
                            = Array_sort ImapService.oldest_first
                                (ImapService.thread_messages E uid
                                   (thread_fetch E st m0))))).
    { intros s [= <- _]. cbn. repeat split. right; left. now exists m. }
    destruct (length (ImapService.threadMessageIds m) =? 0)%nat;
      [apply Hsingle|].
    unfold ImapService.createConnection. cbn.
    destruct (Connection.connect _); [apply Hsingle|].
    destruct (Connection.openBox _); [apply Hsingle|].
    destruct (length (ImapService.uniqueUids _ _) =? 0)%nat; [apply Hsingle|].
    destruct (Fetch.error _) eqn:Herr; [apply Hsingle|].
    intros [= <- _]. cbn. repeat split. right; right. now exists m.
  - intros [= <- _]. cbn. repeat split. now left.
  - discriminate.
Qed.

(** [getThread] rejects exactly when the fetch of the target does. *)
Lemma getThread_rejected E uid st e :
  fst (ImapService.getThread E uid st) = Rejected e
  <-> exists e0, fst (ImapService.getMessage E uid st) = Rejected e0
                 /\ e = "Failed to get thread: " +:+ e0.
Proof.
  unfold ImapService.getThread, try_catch, await.
  rewrite (getMessage_eq E uid st).
  destruct (fst (ImapService.getMessage E uid st)) as [[m|]|e0]; cbn [fst].
  - split; [|now intros (e0 & [=] & _)].
    destruct (length (ImapService.threadMessageIds m) =? 0)%nat; [discriminate|].
    unfold ImapService.createConnection. cbn.
    destruct (Connection.connect _); [discriminate|].
    destruct (Connection.openBox _); [discriminate|].
    destruct (length (ImapService.uniqueUids _ _) =? 0)%nat; [discriminate|].
    destruct (Fetch.error _); discriminate.
  - split; [discriminate | now intros (e0 & [=] & _)].
  - cbn. split; [intros [= <-]; now exists e0 | now intros (e' & [= <-] & ->)].
Qed.

(** C4, as the code has it.  When the target does not exist (the fetch of
    its UID ends without a message) [getThread] resolves with no message,
    the input ID and count zero.  When the fetch of the target fails,
    [getThread] rejects: it rejects exactly when [getMessage] does, with
    the words [Failed to get thread: ] before the error of [getMessage],
    and so whenever the fetch emits an error before the parse of a
    message is over. *)
Theorem getThread_not_found E uid st :
  (fst (ImapService.getMessage E uid st) = Resolved None ->
   ImapService.getThread E uid st = (Resolved (empty_thread uid), connected st))
  /\ (forall total,
        Connection.connect (server E (connections st)) = None ->
        Connection.openBox (server E (connections st)) = inr total ->
        Fetch.msgs (Connection.fetch (server E (connections st)) [uid]) = [] ->
        Fetch.error (Connection.fetch (server E (connections st)) [uid]) = None ->
        ImapService.getThread E uid st
        = (Resolved (empty_thread uid), connected st))
  /\ (forall e,
        fst (ImapService.getThread E uid st) = Rejected e
        <-> exists e0,
              fst (ImapService.getMessage E uid st) = Rejected e0
              /\ e = "Failed to get thread: " +:+ e0)
  /\ (forall total e,
        Connection.connect (server E (connections st)) = None ->
        Connection.openBox (server E (connections st)) = inr total ->
        Fetch.error (Connection.fetch (server E (connections st)) [uid]) = Some e ->
        Forall (fun fm => Fetched.parsed_late fm = true)
          (Fetch.msgs (Connection.fetch (server E (connections st)) [uid])) ->
        ImapService.getThread E uid st
        = (Rejected ("Failed to get thread: " +:+ ("Fetch error: " +:+ e)),
           connected st)).
Proof.
  assert (Hnone : fst (ImapService.getMessage E uid st) = Resolved None ->
                  ImapService.getThread E uid st
                  = (Resolved (empty_thread uid), connected st)).
  { intros Hget. unfold ImapService.getThread, try_catch, await.
    now rewrite (getMessage_fst E uid st _ Hget). }
  split; [exact Hnone|]. split; [|split].
  - intros total Hc Ho Hmsgs Herr. apply Hnone.
    rewrite (getMessage_ready E uid st total Hc Ho). cbn [fst].
    unfold first_settlement, parsed_early. now rewrite Hmsgs, Herr.
  - apply getThread_rejected.
  - intros total e Hc Ho Herr Hlate.
    assert (Hget : fst (ImapService.getMessage E uid st)
                   = Rejected ("Fetch error: " +:+ e)).
    { rewrite (getMessage_ready E uid st total Hc Ho). cbn [fst].
      unfold first_settlement. now rewrite (parsed_early_all_late _ Hlate), Herr. }
    unfold ImapService.getThread, try_catch, await.
    now rewrite (getMessage_fst E uid st _ Hget).
Qed.

Lemma getThread_not_found_witness :
  ImapService.getThread Scenario.mailbox "404" Scenario.start
    = (Resolved (empty_thread "404"), connected Scenario.start)
  /\ ImapService.getThread (Scenario.env_of Scenario.broken) "19" Scenario.start
     = (Rejected "Failed to get thread: Fetch error: socket closed",
        connected Scenario.start).
Proof.
  split.
  - apply (proj1 (proj2 (getThread_not_found Scenario.mailbox "404" Scenario.start)) 2);
      reflexivity.
  - apply (proj2 (proj2 (proj2 (getThread_not_found (Scenario.env_of Scenario.broken)
                                   "19" Scenario.start))) 2 "socket closed");
      try reflexivity.
    constructor.
Defined.

(** Where the fetch of the target fails, [getThread] throws: it does not
    resolve with the empty thread. *)
Lemma getThread_fetch_failure_rejects :
  Fetch.error (Connection.fetch (server (Scenario.env_of Scenario.broken) 0) ["19"])
    = Some "socket closed"
  /\ ImapService.getThread (Scenario.env_of Scenario.broken) "19" Scenario.start
     = (Rejected "Failed to get thread: Fetch error: socket closed",
        connected Scenario.start)
  /\ ~ (exists st',
          ImapService.getThread (Scenario.env_of Scenario.broken) "19" Scenario.start
          = (Resolved {| ThreadResult.messages := [];
                         ThreadResult.threadId := "19";
                         ThreadResult.messageCount := 0 |}, st')).
Proof.
  split; [reflexivity|]. split; [reflexivity|].
  intros [st' H]. vm_compute in H. discriminate H.
Qed.

(** ** Order of the results *)

Lemma StronglySorted_weaken {A} (R S : A -> A -> Prop) l :
  (forall a b, R a b -> S a b) -> StronglySorted R l -> StronglySorted S l.
Proof.
  intros HRS. induction 1 as [|a l _ IH Ha]; constructor; [exact IH|].
  eapply Forall_impl; [exact Ha|]. intros b. apply HRS.
Qed.

Lemma oldest_first_sorted l :
  StronglySorted (fun a b => EmailMessage.date a <= EmailMessage.date b)
    (Array_sort ImapService.oldest_first l).
Proof.
  apply (Array_sort_sorted ImapService.oldest_first EmailMessage.date).
  intros x y. unfold ImapService.oldest_first. lia.
Qed.

Lemma newest_first_sorted l :
  StronglySorted (fun a b => EmailMessage.date b <= EmailMessage.date a)
    (Array_sort ImapService.newest_first l).
Proof.
  eapply StronglySorted_weaken;
    [|apply (Array_sort_sorted ImapService.newest_first
               (fun m => - EmailMessage.date m))].
  - intros a b. cbn. lia.
  - intros x y. unfold ImapService.newest_first. lia.
Qed.

Lemma listMessages_cases E count st l st' :
  ImapService.listMessages E count st = (Resolved l, st') ->
  exists pushed,
    Forall (fun m => exists fm, ImapService.listMessages_on_message fm = Some m) pushed
    /\ l = Array_sort ImapService.newest_first pushed.
Proof.
  unfold ImapService.listMessages, await, ImapService.createConnection, reject, resolve.
  cbn.
  destruct (Connection.connect _); [discriminate|].
  destruct (Connection.openBox _) as [e|total]; [discriminate|].
  destruct (total =? 0).
  - intros [= <- _]. exists []. split; [constructor | reflexivity].
  - destruct (Fetch.error _); [discriminate|].
    intros [= <- _]. eexists; split; [|reflexivity].
    apply Forall_forall. intros m Hm.
    apply list_elem_of_omap in Hm as (fm & _ & Hfm). now exists fm.
Qed.

(** C3. The messages of every thread result are in ascending order of
    their timestamps.  They are nothing, one message, or the messages
    that the handlers of the second fetch have pushed, of which those of
    one timestamp are in the order in which they were pushed.  The
    handlers push in the order in which the parses of the messages are
    over (for parses of one rank, in the order of the fetch), which need
    not be the order of the fetch.  [listMessages] has the opposite order,
    descending. *)
Theorem getThread_oldest_first E uid st r st' count st2 l st2' :
  (ImapService.getThread E uid st = (Resolved r, st') ->
   StronglySorted (fun a b => EmailMessage.date a <= EmailMessage.date b)
     (ThreadResult.messages r)
   /\ (ThreadResult.messages r = []
       \/ (exists m, ThreadResult.messages r = [m])
       \/ (exists m,
             fst (ImapService.getMessage E uid st) = Resolved (Some m)
             /\ Permutation
                  (omap (ImapService.getThread_on_message E uid)
                     (parsed_early (thread_fetch E st m)))
                  (ThreadResult.messages r)
             /\ forall t,
                  List.filter (fun a => EmailMessage.date a =? t)
                    (ThreadResult.messages r)
                  = List.filter (fun a => EmailMessage.date a =? t)
                      (omap (ImapService.getThread_on_message E uid)
                         (parsed_early (thread_fetch E st m))))))
  /\ (forall f : Fetch.t,
        Permutation (List.filter not_late (Fetch.msgs f)) (parsed_early f)
        /\ StronglySorted (fun a b => Fetched.parse_rank a <= Fetched.parse_rank b)
             (parsed_early f)
        /\ forall i,
             List.filter (fun fm => Fetched.parse_rank fm =? i) (parsed_early f)
             = List.filter (fun fm => Fetched.parse_rank fm =? i)
                 (List.filter not_late (Fetch.msgs f)))
  /\ (ImapService.listMessages E count st2 = (Resolved l, st2') ->
      StronglySorted (fun a b => EmailMessage.date b <= EmailMessage.date a) l).
Proof.
  split; [|split].
  - intros Hthread.
    apply getThread_cases in Hthread as (_ & _ & Hcases).
    destruct Hcases as [[_ ->] | [(m & _ & ->) | (m & Hget & ->)]].
    + split; [constructor | now left].
    + split; [repeat constructor | right; left; now exists m].
    + split; [apply oldest_first_sorted|]. right; right. exists m.
      split; [exact Hget|]. split.
      * apply Array_sort_Permutation.
      * intros t.
        apply (Array_sort_stable ImapService.oldest_first EmailMessage.date).
        intros x y. unfold ImapService.oldest_first. lia.
  - intros f. unfold parsed_early, in_parse_order.
    fold not_late. change (fun fm => negb (Fetched.parsed_late fm)) with not_late.
    split; [apply Array_sort_Permutation|]. split.
    + apply (Array_sort_sorted _ Fetched.parse_rank). intros x y. lia.
    + intros i. apply (Array_sort_stable _ Fetched.parse_rank). intros x y. lia.
  - intros Hlist. apply listMessages_cases in Hlist as (pushed & _ & ->).
    apply newest_first_sorted.
Qed.

Lemma getThread_oldest_first_witness :
  exists r l,
    fst (ImapService.getThread Scenario.mailbox "19" Scenario.start) = Resolved r
    /\ fst (ImapService.listMessages Scenario.mailbox 10 Scenario.start) = Resolved l
    /\ Fetched.raw
         <$> Fetch.msgs (thread_fetch Scenario.mailbox Scenario.start
                           (ImapService.message_of_parsed "19"
                              (Scenario.arrived "raw19" 19)
                              (Scenario.mail "Meeting" "Jane Doe <jane@example.com>" 2000
                                 ("line1" +:+ Js.nl +:+ "line2")
                                 (Some "<m19@x>") (Some "<m18@x>")
                                 (Some (Many ["<m17@x>"; "<m18@x>"]))
                                 (Some [Scenario.report_pdf]))))
       = ["raw19"; "raw18"; "raw20"]
    /\ EmailMessage.id <$> ThreadResult.messages r = ["18"; "20"; "19"]
    /\ EmailMessage.date <$> ThreadResult.messages r = [1000; 2000; 2000]
    /\ EmailMessage.id <$> l = ["19"; "18"]
    /\ StronglySorted (fun a b => EmailMessage.date a <= EmailMessage.date b)
         (ThreadResult.messages r)
    /\ StronglySorted (fun a b => EmailMessage.date b <= EmailMessage.date a) l.
Proof.
  destruct (ImapService.getThread Scenario.mailbox "19" Scenario.start)
    as [[r|e] st'] eqn:Hthread; [|vm_compute in Hthread; discriminate Hthread].
  destruct (ImapService.listMessages Scenario.mailbox 10 Scenario.start)
    as [[l|e] st2'] eqn:Hlist; [|vm_compute in Hlist; discriminate Hlist].
  exists r, l.
  destruct (getThread_oldest_first Scenario.mailbox "19" Scenario.start r st'
              10 Scenario.start l st2') as (Hasc & _ & Hdesc).
  destruct (Hasc Hthread) as [Hsorted _]. specialize (Hdesc Hlist).
  repeat split; try assumption.
  - vm_compute in Hthread. now injection Hthread as <- _.
  - vm_compute in Hthread. now injection Hthread as <- _.
  - vm_compute in Hlist. now injection Hlist as <- _.
Defined.

(** ** The attachment flag *)

(** A message of [getMessage] is built from a message of the fetch of
    the UID and from what the parser makes of its bytes. *)
Lemma getMessage_source E uid st m st' :
  ImapService.getMessage E uid st = (Resolved (Some m), st') ->
  exists fm parsed,
    fm ∈ Fetch.msgs (Connection.fetch (server E (connections st)) [uid])
    /\ simpleParser E (Fetched.raw fm) = inr parsed
    /\ m = ImapService.message_of_parsed uid fm parsed.
Proof.
  unfold ImapService.getMessage, await, ImapService.createConnection,
    reject, settle. cbn.
  destruct (Connection.connect _); [discriminate|].
  destruct (Connection.openBox _); [discriminate|].
  destruct (first_settlement_cases (ImapService.getMessage_on_message E uid)
              (Connection.fetch (server E (connections st)) [uid]))
    as [(fm & Hfm & ->) | [(e' & _ & ->) | (_ & _ & ->)]]; [|discriminate..].
  unfold ImapService.getMessage_on_message.
  destruct (simpleParser E (Fetched.raw fm)) as [e|parsed] eqn:Hparsed; [discriminate|].
  intros [= <- _]. now exists fm, parsed.
Qed.

Lemma getMessage_message E uid st m st' :
  ImapService.getMessage E uid st = (Resolved (Some m), st') ->
  exists fm parsed, m = ImapService.message_of_parsed uid fm parsed.
Proof.
  intros (fm & parsed & _ & _ & ->)%getMessage_source. now exists fm, parsed.
Qed.

Lemma message_of_parsed_flag uid fm parsed :
  flag_matches_list (ImapService.message_of_parsed uid fm parsed).
Proof.
  unfold flag_matches_list. cbn.
  destruct (ImapService.attachment_infos _) as [|a d]; cbn.
  - split; [discriminate|]. intros (d & [= <-] & Hd). now destruct Hd.
  - split; [|reflexivity]. intros _. eexists; split; [reflexivity | discriminate].
Qed.

Lemma thread_messages_no_attachment_field E uid f m :
  m ∈ ImapService.thread_messages E uid f ->
  EmailMessage.hasAttachments m = None /\ EmailMessage.attachments m = None.
Proof.
  unfold ImapService.thread_messages.
  intros (fm & _ & Hfm)%list_elem_of_omap.
  unfold ImapService.getThread_on_message in Hfm.
  destruct (simpleParser E _); [discriminate|].
  destruct (Fetched.attrs fm); [|discriminate].
  injection Hfm as <-. now split.
Qed.

(** *** The marker in the text of a body structure *)

Lemma Json_induction (P : Json -> Prop) :
  P JNull -> (forall b, P (JBool b)) -> (forall n, P (JNumber n)) ->
  (forall s, P (JString s)) ->
  (forall items, Forall P items -> P (JArray items)) ->
  (forall members, Forall (fun kv => P (snd kv)) members -> P (JObject members)) ->
  forall j, P j.
Proof.
  intros HN HB HZ HS HA HO. fix IH 1.
  intros [| b | n | s | items | members];
    [exact HN | apply HB | apply HZ | apply HS | |].
  - apply HA. induction items as [|x r IHr]; constructor; [apply IH | exact IHr].
  - apply HO. induction members as [|[k v] r IHr]; constructor; [apply IH | exact IHr].
Qed.

Lemma scan_app k a b : scan k (a +:+ b) = scan (scan k a) b.
Proof.
  revert k. induction a as [|c a IH]; intros k; [reflexivity|].
  change (String c a +:+ b) with (String c (a +:+ b)). cbn [scan]. apply IH.
Qed.

Lemma scan_done s : scan 15 s = 15%nat.
Proof. induction s as [|c s IH]; [reflexivity|]. exact IH. Qed.

Lemma step_le k c : (k <= 15)%nat -> (step k c <= 15)%nat.
Proof.
  intros Hk. unfold step.
  destruct (Nat.eqb_spec k 15); [lia|].
  destruct (match String.get k watched with Some p => Ascii.eqb c p | None => false end);
    [lia|].
  destruct (_ && _); [lia|]. destruct (Ascii.eqb c Js.DQ); lia.
Qed.

Lemma scan_watched k rest : (k <= 15)%nat -> scan k (watched +:+ rest) = 15%nat.
Proof.
  intros Hk. rewrite scan_app.
  assert (H : scan k watched = 15%nat).
  { do 16 (destruct k as [|k]; [reflexivity|]). lia. }
  rewrite H. apply scan_done.
Qed.

Lemma prefix_append p s : String.prefix p s = true -> exists rest, s = p +:+ rest.
Proof.
  revert s. induction p as [|a p IH]; intros s.
  - intros _. now exists s.
  - destruct s as [|b s]; [discriminate|]. cbn [String.prefix].
    destruct (ascii_dec a b) as [<-|Hab]; [|discriminate].
    intros [rest ->]%IH. now exists rest.
Qed.

Lemma prefix_of_append p q s :
  String.prefix (p +:+ q) s = true -> String.prefix p s = true.
Proof.
  revert s. induction p as [|a p IH]; intros s; [now destruct s|].
  change (String a p +:+ q) with (String a (p +:+ q)).
  destruct s as [|b s]; cbn [String.prefix]; [discriminate|].
  destruct (ascii_dec a b); [apply IH | discriminate].
Qed.

Lemma includes_of_append p q s :
  Js.includes (p +:+ q) s = true -> Js.includes p s = true.
Proof.
  induction s as [|c s IH]; cbn [Js.includes].
  - rewrite !orb_false_r. apply prefix_of_append.
  - intros [H|H]%orb_true_iff; apply orb_true_iff;
      [left; now apply (prefix_of_append p q) | right; now apply IH].
Qed.

(** The scanner finds every occurrence of the watched text. *)
Lemma includes_scan s k :
  Js.includes watched s = true -> (k <= 15)%nat -> scan k s = 15%nat.
Proof.
  revert k. induction s as [|c s IH]; intros k; cbn [Js.includes].
  - rewrite orb_false_r. intros [rest Hrest]%prefix_append Hk.
    rewrite Hrest. now apply scan_watched.
  - intros [[rest Hrest]%prefix_append | H]%orb_true_iff Hk.
    + rewrite Hrest. now apply scan_watched.
    + cbn [scan]. apply IH; [exact H | now apply step_le].
Qed.

Lemma marker_not_scanned s :
  scan 0 s <> 15%nat -> Js.includes ImapService.attachment_marker s = false.
Proof.
  intros Hscan. destruct (Js.includes ImapService.attachment_marker s) eqn:Hin; [|reflexivity].
  destruct Hscan. apply includes_scan; [|lia].
  apply (includes_of_append watched
           (String Js.DQ ("attachment" +:+ String Js.DQ ""))).
  exact Hin.
Qed.

(** One character of a text between quotes: the scanner goes on in
    [watched] only by that very character, and otherwise falls back to
    the start (or behind the quote that an escaped quote ends with). *)
Lemma escape_char_scan c k :
  (k <= 12)%nat ->
  (scan k (JSON.escape_char c) = S k /\ String.get k watched = Some c /\ (k < 12)%nat)
  \/ scan k (JSON.escape_char c) = 0%nat
  \/ scan k (JSON.escape_char c) = 1%nat.
Proof.
  intros Hk.
  assert (Hcheck :
    (Nat.eqb (scan k (JSON.escape_char c)) (S k)
     && match String.get k watched with Some p => Ascii.eqb c p | None => false end
     && (k <? 12)%nat)
    || Nat.eqb (scan k (JSON.escape_char c)) 0
    || Nat.eqb (scan k (JSON.escape_char c)) 1 = true).
  { destruct c as [[] [] [] [] [] [] [] []];
      do 13 (destruct k as [|k]; [vm_compute; reflexivity|]); lia. }
  apply orb_true_iff in Hcheck as [[H|H]%orb_true_iff|H].
  - left. apply andb_true_iff in H as [[H1 H2]%andb_true_iff H3].
    apply Nat.eqb_eq in H1. apply Nat.ltb_lt in H3.
    split; [exact H1|]. split; [|exact H3].
    destruct (String.get k watched) as [p|]; [|discriminate].
    now apply Ascii.eqb_eq in H2 as ->.
  - right; left. now apply Nat.eqb_eq.
  - right; right. now apply Nat.eqb_eq.
Qed.

Lemma watched_from k c :
  (k < 12)%nat -> String.get k watched = Some c ->
  String c (String.substring (S k) (12 - S k) watched)
  = String.substring k (12 - k) watched.
Proof.
  intros Hk Hc.
  do 12 (destruct k as [|k]; [cbn in Hc; injection Hc as <-; reflexivity|]). lia.
Qed.

Lemma ends_with_cons suffix c s :
  ends_with suffix s = true -> ends_with suffix (String c s) = true.
Proof. intros H. cbn [ends_with]. rewrite H. apply orb_true_r. Qed.

(** Inside a text between quotes the scanner is through the letters of
    [disposition] only at the end of a text that ends with them. *)
Lemma escape_scan s k :
  (k <= 12)%nat ->
  (scan k (JSON.escape s) <= 12)%nat
  /\ (scan k (JSON.escape s) = 12%nat ->
      ends_with "disposition" s = true
      \/ s = String.substring k (12 - k) watched).
Proof.
  revert k. induction s as [|c s IH]; intros k Hk.
  - cbn [JSON.escape scan]. split; [exact Hk|]. intros ->. now right.
  - cbn [JSON.escape]. rewrite scan_app.
    destruct (escape_char_scan c k Hk) as [(-> & Hc & Hlt) | [-> | ->]].
    + destruct (IH (S k) ltac:(lia)) as [Hle Hend]. split; [exact Hle|].
      intros [H | ->]%Hend; [left; now apply ends_with_cons|].
      right. now apply watched_from.
    + destruct (IH 0%nat ltac:(lia)) as [Hle Hend]. split; [exact Hle|].
      intros [H | ->]%Hend; left; apply ends_with_cons; [exact H | reflexivity].
    + destruct (IH 1%nat ltac:(lia)) as [Hle Hend]. split; [exact Hle|].
      intros [H | ->]%Hend; left; apply ends_with_cons; [exact H | reflexivity].
Qed.

(** A text between quotes leaves the scanner behind a quote, and behind
    the quoted [disposition] only when the text ends with that word. *)
Lemma quote_scan s q :
  q = 0%nat \/ q = 14%nat ->
  (scan q (JSON.quote s) = 1%nat
   \/ (scan q (JSON.quote s) = 13%nat /\ ends_with "disposition" s = true)).
Proof.
  intros Hq. unfold JSON.quote. cbn [scan].
  assert (Hopen : step q Js.DQ = 1%nat) by (destruct Hq as [-> | ->]; reflexivity).
  rewrite Hopen, scan_app. cbn [scan].
  destruct (escape_scan s 1 ltac:(lia)) as [Hle Hend].
  destruct (Nat.eq_dec (scan 1 (JSON.escape s)) 12%nat) as [H12|Hne].
  - right. rewrite H12. split; [reflexivity|].
    destruct (Hend H12) as [H | ->]; [exact H | reflexivity].
  - left. revert Hle Hne. generalize (scan 1 (JSON.escape s)). intros k Hle Hne.
    do 12 (destruct k as [|k]; [reflexivity|]). lia.
Qed.

(** *** Numbers, punctuation and whole values *)

Lemma pretty_N_go_digits x s :
  all_in digit_or_dash s = true -> all_in digit_or_dash (pretty_N_go x s) = true.
Proof.
  revert s. induction (N.lt_wf_0 x) as [x _ IH]; intros s Hs.
  destruct (N.eq_dec x 0%N) as [->|Hx]; [now rewrite pretty_N_go_0|].
  rewrite pretty_N_go_step by lia. apply IH.
  - apply N.div_lt; lia.
  - cbn [all_in]. rewrite Hs, andb_true_r.
    unfold pretty_N_char. now repeat case_match.
Qed.

Lemma pretty_Z_digits (n : Z) : all_in digit_or_dash (pretty n) = true.
Proof.
  assert (Hpos : forall p : positive, all_in digit_or_dash (pretty p) = true).
  { intros p. unfold pretty, pretty_positive, pretty, pretty_N.
    destruct (decide _); [reflexivity|]. now apply pretty_N_go_digits. }
  destruct n as [|p|p]; [reflexivity | apply Hpos |].
  unfold pretty, pretty_Z.
  change ("-" +:+ pretty p) with (String "-" (pretty p)).
  cbn [all_in]. now rewrite Hpos.
Qed.

Lemma digits_scan s q :
  all_in digit_or_dash s = true -> q = 0%nat \/ q = 14%nat ->
  scan q s = 0%nat \/ scan q s = 14%nat.
Proof.
  revert q. induction s as [|c s IH]; intros q Hs Hq.
  - cbn. destruct Hq; auto.
  - cbn [all_in] in Hs. apply andb_true_iff in Hs as [Hc Hs].
    cbn [scan].
    assert (Hstep : step q c = 0%nat).
    { destruct c as [[] [] [] [] [] [] [] []]; try discriminate Hc;
        destruct Hq as [-> | ->]; reflexivity. }
    rewrite Hstep. apply IH; [exact Hs | now left].
Qed.

Lemma rest_state_delimiter k c :
  rest_state k -> c = ","%char \/ c = "]"%char \/ c = "}"%char -> step k c = 0%nat.
Proof.
  intros [-> | [-> | [-> | ->]]] [-> | [-> | ->]]; reflexivity.
Qed.

(** The elements of an array or the members of an object, each one read
    from the start and followed by a comma or by the closing bracket. *)
Lemma join_scan (texts : list string) (close : ascii) :
  close = "]"%char \/ close = "}"%char ->
  Forall (fun t => rest_state (scan 0 t)) texts ->
  scan 0 (Js.join "," texts +:+ String close "") = 0%nat.
Proof.
  intros Hclose Htexts. induction Htexts as [|t texts Ht _ IH].
  - destruct Hclose as [-> | ->]; reflexivity.
  - destruct texts as [|t' texts].
    + cbn [Js.join]. rewrite scan_app. cbn [scan].
      apply rest_state_delimiter; [exact Ht | now right].
    + change (Js.join "," (t :: t' :: texts))
        with (t +:+ String "," (Js.join "," (t' :: texts))).
      rewrite !scan_app. cbn [scan].
      rewrite (rest_state_delimiter _ "," Ht) by now left.
      rewrite scan_app in IH. exact IH.
Qed.

(** A value read from the start, or behind [disposition] and a colon
    when it is no array, leaves the scanner at the start, behind a quote,
    behind the quoted [disposition] or where it was. *)
Lemma stringify_scan j :
  dispositions_are_no_arrays j = true ->
  forall q, q = 0%nat \/ (q = 14%nat /\ is_array j = false) ->
  rest_state (scan q (JSON.stringify j)).
Proof.
  induction j as [| b | n | s | items IH | members IH] using Json_induction;
    intros Hshape q Hq.
  - destruct Hq as [-> | [-> _]]; [now left | now left].
  - destruct b, Hq as [-> | [-> _]]; now left.
  - cbn [JSON.stringify].
    destruct (digits_scan (pretty n) q (pretty_Z_digits n)) as [-> | ->];
      [destruct Hq as [-> | [-> _]]; auto | now left | now right; right; right].
  - cbn [JSON.stringify].
    destruct (quote_scan s q) as [-> | [-> _]];
      [destruct Hq as [-> | [-> _]]; auto | now right; left | now right; right; left].
  - destruct Hq as [-> | [_ [=]]]. left.
    cbn [JSON.stringify].
    change ("[" +:+ ?t) with (String "[" t). cbn [scan].
    change (step 0 "[") with 0%nat.
    apply join_scan; [now left|].
    cbn [dispositions_are_no_arrays] in Hshape. rewrite forallb_forall in Hshape.
    apply Forall_forall. intros t (x & <- & Hx)%list_elem_of_In%in_map_iff.
    rewrite Forall_forall in IH. apply IH.
    + now apply list_elem_of_In.
    + now apply Hshape.
    + now left.
  - left. cbn [JSON.stringify].
    change ("{" +:+ ?t) with (String "{" t). cbn [scan].
    assert (Hopen : step q "{" = 0%nat) by (destruct Hq as [-> | [-> _]]; reflexivity).
    rewrite Hopen.
    apply join_scan; [now right|].
    cbn [dispositions_are_no_arrays] in Hshape. rewrite forallb_forall in Hshape.
    apply Forall_forall. intros t ([k v] & <- & Hkv)%list_elem_of_In%in_map_iff.
    rewrite Forall_forall in IH.
    specialize (IH (k, v) (proj2 (list_elem_of_In _ _) Hkv)).
    specialize (Hshape (k, v) Hkv). cbn [fst snd] in *.
    apply andb_true_iff in Hshape as [Hkey Hv].
    rewrite scan_app.
    change (":" +:+ ?t) with (String ":" t). cbn [scan].
    destruct (quote_scan k 0 ltac:(now left)) as [-> | [-> Hends]].
    + change (step 1 ":") with 0%nat. apply IH; [exact Hv | now left].
    + change (step 13 ":") with 14%nat. apply IH; [exact Hv | right].
      split; [reflexivity|]. rewrite Hends in Hkey. cbn in Hkey.
      now apply negb_true_iff in Hkey.
Qed.

(** A body structure in which no [disposition] holds an array has a JSON
    text without the marker that [listMessages] looks for. *)
Lemma marker_absent j :
  dispositions_are_no_arrays j = true ->
  Js.includes ImapService.attachment_marker (JSON.stringify j) = false.
Proof.
  intros Hshape. apply marker_not_scanned.
  destruct (stringify_scan j Hshape 0%nat ltac:(now left)) as [H | [H | [H | H]]];
    rewrite H; discriminate.
Qed.

Lemma listMessages_source E count st l st' m :
  ImapService.listMessages E count st = (Resolved l, st') ->
  m ∈ l ->
  exists range fm,
    fm ∈ Fetch.msgs (Connection.seq_fetch (server E (connections st)) range)
    /\ ImapService.listMessages_on_message fm = Some m.
Proof.
  unfold ImapService.listMessages, await, ImapService.createConnection, reject, resolve.
  cbn.
  destruct (Connection.connect _); [discriminate|].
  destruct (Connection.openBox _) as [e|total]; [discriminate|].
  destruct (total =? 0).
  - intros [= <- _] Hm. now apply elem_of_nil in Hm.
  - destruct (Fetch.error _); [discriminate|].
    intros [= <- _] Hm.
    rewrite <- (Array_sort_Permutation ImapService.newest_first) in Hm.
    apply list_elem_of_omap in Hm as (fm & Hfm & Hm).
    eexists _, fm. split; [exact Hfm | exact Hm].
Qed.

(** C9. On every message of [getMessage], of [getThread] and of
    [listMessages] the flag is true exactly when the message has a list of
    descriptors that is not empty.  [getMessage] sets the flag from the
    list it builds.  The messages of the second fetch of [getThread] have
    neither the flag nor the list.  [listMessages] builds no list, and the
    text it looks for in the body structure is never there, since
    node-imap holds a disposition as an object and not as an array: the
    flag of a listed message is never true. *)
Theorem hasAttachments_matches_list E uid st count st2 m :
  (produced_by_getMessage E uid st m \/ produced_by_getThread E uid st m ->
   flag_matches_list m)
  /\ (structures_as_built (server E (connections st2)) ->
      produced_by_listMessages E count st2 m ->
      flag_matches_list m
      /\ EmailMessage.hasAttachments m <> Some true
      /\ EmailMessage.attachments m = None).
Proof.
  split.
  - intros [Hget | (r & Hr & Hm)].
    + apply getMessage_fst, getMessage_message in Hget as (fm & parsed & ->).
      apply message_of_parsed_flag.
    + destruct (ImapService.getThread E uid st) as [out st'] eqn:Hthread.
      cbn in Hr. subst out.
      apply getThread_cases in Hthread as (_ & _ & Hcases).
      destruct Hcases as [[_ H] | [(m0 & Hget & H) | (m0 & _ & H)]]; rewrite H in Hm.
      * now apply elem_of_nil in Hm.
      * apply list_elem_of_singleton in Hm as ->.
        apply getMessage_fst, getMessage_message in Hget as (fm & parsed & ->).
        apply message_of_parsed_flag.
      * rewrite <- (Array_sort_Permutation ImapService.oldest_first) in Hm.
        apply thread_messages_no_attachment_field in Hm as [Hflag Hlist].
        unfold flag_matches_list. rewrite Hflag, Hlist.
        split; [discriminate|]. now intros (d & ? & _).
  - intros Hbuilt (l & Hl & Hm).
    destruct (ImapService.listMessages E count st2) as [out st'] eqn:Hlist.
    cbn in Hl. subst out.
    destruct (listMessages_source _ _ _ _ _ _ Hlist Hm) as (range & fm & Hfm & Hon).
    unfold ImapService.listMessages_on_message in Hon.
    destruct (Fetched.attrs fm) as [attrs|] eqn:Hattrs; [|discriminate].
    injection Hon as <-.
    assert (Hflag : match Attrs.struct attrs with
                    | Some struct =>
                        Some (Js.includes ImapService.attachment_marker
                                (JSON.stringify struct))
                    | None => None
                    end <> Some true).
    { destruct (Attrs.struct attrs) as [struct|] eqn:Hstruct; [|discriminate].
      rewrite (marker_absent struct (Hbuilt range fm attrs struct Hfm Hattrs Hstruct)).
      discriminate. }
    unfold flag_matches_list.
    cbn [EmailMessage.hasAttachments EmailMessage.attachments].
    split; [|split; [exact Hflag | reflexivity]].
    split; [intros H; now destruct Hflag | now intros (d & ? & _)].
Qed.

Lemma hasAttachments_matches_list_witness :
  (exists m,
     produced_by_getMessage Scenario.mailbox "19" Scenario.start m
     /\ EmailMessage.hasAttachments m = Some true
     /\ flag_matches_list m)
  /\ (exists m,
        produced_by_listMessages Scenario.mailbox 10 Scenario.start m
        /\ EmailMessage.id m = "19"
        /\ EmailMessage.hasAttachments m = Some false
        /\ flag_matches_list m).
Proof.
  split.
  - destruct (ImapService.getMessage Scenario.mailbox "19" Scenario.start)
      as [[[m|]|e] st'] eqn:Hget;
      [|vm_compute in Hget; discriminate Hget..].
    assert (Hm : produced_by_getMessage Scenario.mailbox "19" Scenario.start m).
    { unfold produced_by_getMessage. now rewrite Hget. }
    exists m. split; [exact Hm|]. split.
    + vm_compute in Hget. now injection Hget as <- _.
    + exact (proj1 (hasAttachments_matches_list Scenario.mailbox "19" Scenario.start
                      10 Scenario.start m) (or_introl Hm)).
  - assert (Hbuilt : structures_as_built
                       (server Scenario.mailbox (connections Scenario.start))).
    { intros range fm attrs struct Hfm Hattrs Hstruct. cbn in Hfm.
      apply elem_of_cons in Hfm as [-> | Hfm];
        [|apply list_elem_of_singleton in Hfm as ->];
        injection Hattrs as <-; injection Hstruct as <-; reflexivity. }
    destruct (ImapService.listMessages Scenario.mailbox 10 Scenario.start)
      as [[[|m l]|e] st'] eqn:Hlist; try (vm_compute in Hlist; discriminate Hlist).
    assert (Hm : produced_by_listMessages Scenario.mailbox 10 Scenario.start m).
    { exists (m :: l). rewrite Hlist. split; [reflexivity | apply list_elem_of_here]. }
    exists m. split; [exact Hm|].
    destruct (proj2 (hasAttachments_matches_list Scenario.mailbox "19" Scenario.start
                       10 Scenario.start m) Hbuilt Hm) as (Hiff & _ & _).
    vm_compute in Hlist. injection Hlist as <- _ _.
    split; [reflexivity|]. split; [reflexivity | exact Hiff].
Defined.

(** ** The reply composer *)

Lemma getMessageHeaders_eq E uid st :
  ImapService.getMessageHeaders E uid st
  = (match fst (ImapService.getMessage E uid st) with
     | Resolved (Some m) => Resolved (Some (ImapService.headers_of m))
     | Resolved None => Resolved None
     | Rejected e => Rejected e
     end, connected st).
Proof.
  unfold ImapService.getMessageHeaders, await.
  rewrite (getMessage_eq E uid st). cbn [fst].
  now destruct (fst (ImapService.getMessage E uid st)) as [[m|]|e].
Qed.

(** The run of [replyToMessage] by the outcome of the fetch. *)
Lemma replyToMessage_eq E p st :
  EmailOperations.replyToMessage E p st
  = match fst (ImapService.getMessage E (ReplyToMessageParams.id p) st) with
    | Rejected e => (Resolved (failure ("Failed to send reply: " +:+ e)), connected st)
    | Resolved None => (Resolved (failure "Original message not found"), connected st)
    | Resolved (Some m) =>
        if address_undetermined (EmailMessage.from m)
        then (Resolved (failure "Could not determine reply address from original message"),
              connected st)
        else
          let rp := EmailOperations.replyParams_of E p (ImapService.headers_of m) in
          let mo := SmtpService.mailOptions_of E rp in
          (Resolved
             match sendMail E mo with
             | inl e => failure ("Failed to send reply: " +:+ e)
             | inr messageId =>
                 {| SendResult.messageId := messageId;
                    SendResult.success := true;
                    SendResult.message := "Reply sent successfully" |}
             end,
           {| connections := S (connections st);
              calls := calls st ++ [CallSendReply rp; CallSendMail mo] |})
    end.
Proof.
  unfold EmailOperations.replyToMessage, try_catch, await.
  rewrite getMessageHeaders_eq.
  destruct (fst (ImapService.getMessage E _ st)) as [[m|]|e]; try reflexivity.
  unfold address_undetermined. cbn [ImapService.h_from ImapService.headers_of].
  destruct (negb _ || negb _) eqn:Hbad; [reflexivity|].
  unfold SmtpService.sendReply, SmtpService.transporter_sendMail,
    try_catch, await, record_call, resolve, reject.
  cbn [ReplyParams.to EmailOperations.replyParams_of ImapService.h_from
       ImapService.headers_of connected connections calls].
  rewrite Hbad. cbn [connections calls]. rewrite <- app_assoc. cbn [app].
  now destruct (sendMail E _).
Qed.

Lemma mails_sent_app st n new :
  mails_sent st {| connections := n; calls := calls st ++ new |}
  = omap (fun c => match c with CallSendMail o => Some o | CallSendReply _ => None end) new.
Proof. unfold mails_sent. cbn. now rewrite drop_app_length. Qed.

Lemma mails_sent_connected st : mails_sent st (connected st) = [].
Proof. unfold mails_sent. cbn. now rewrite skipn_all. Qed.

(** What [replyToMessage] sends: one mail when the target is there and
    its address can be determined, and nothing otherwise. *)
Lemma outgoing_eq E p st :
  outgoing E p st
  = match fst (ImapService.getMessage E (ReplyToMessageParams.id p) st) with
    | Resolved (Some m) =>
        if address_undetermined (EmailMessage.from m) then []
        else [SmtpService.mailOptions_of E
                (EmailOperations.replyParams_of E p (ImapService.headers_of m))]
    | _ => []
    end.
Proof.
  unfold outgoing. rewrite replyToMessage_eq.
  destruct (fst (ImapService.getMessage E _ st)) as [[m|]|e]; cbn [snd];
    try apply mails_sent_connected.
  destruct (address_undetermined _); cbn [snd]; [apply mails_sent_connected|].
  now rewrite mails_sent_app.
Qed.

Lemma outgoing_found E p st m mo :
  fst (ImapService.getMessage E (ReplyToMessageParams.id p) st) = Resolved (Some m) ->
  mo ∈ outgoing E p st ->
  mo = SmtpService.mailOptions_of E
         (EmailOperations.replyParams_of E p (ImapService.headers_of m)).
Proof.
  intros Hget. rewrite outgoing_eq, Hget.
  destruct (address_undetermined _).
  - intros H. now apply elem_of_nil in H.
  - intros H. now apply list_elem_of_singleton in H.
Qed.

Lemma filter_Boolean_present (m : EmailMessage.t) :
  Js.filter_Boolean
    ((Some <$> default [] (EmailMessage.references m)) ++ [EmailMessage.messageId m])
  = present_tokens m.
Proof.
  unfold present_tokens.
  induction (default [] (EmailMessage.references m)) as [|r refs IH].
  - cbn. destruct (EmailMessage.messageId m) as [[|c mid]|]; reflexivity.
  - cbn [fmap list_fmap app Js.filter_Boolean List.filter]. rewrite IH.
    now destruct r.
Qed.

Lemma filter_not_empty refs :
  Forall (fun r => r <> "") refs -> List.filter not_empty refs = refs.
Proof.
  induction 1 as [|r refs Hr _ IH]; [reflexivity|].
  cbn. rewrite IH. destruct r; [contradiction | reflexivity].
Qed.

(** C1. The mail of a reply to an existing target has as References the
    References of the target followed by its Message-ID, in that order and
    without the entries that are absent (an empty token, or the Message-ID
    of a target that has none), and as In-Reply-To the Message-ID of the
    target.  With a Message-ID and no empty entry, that is the whole list
    followed by the Message-ID; without a Message-ID, it is the list
    alone and the mail has no In-Reply-To. *)
Theorem reply_threading_headers E p st m mo :
  fst (ImapService.getMessage E (ReplyToMessageParams.id p) st) = Resolved (Some m) ->
  mo ∈ outgoing E p st ->
  MailOptions.references mo = references_header (present_tokens m)
  /\ (forall mid,
        EmailMessage.messageId m = Some mid -> mid <> "" ->
        MailOptions.inReplyTo mo = Some mid
        /\ exists kept, present_tokens m = kept ++ [mid])
  /\ (EmailMessage.messageId m = None \/ EmailMessage.messageId m = Some "" ->
      MailOptions.inReplyTo mo = None
      /\ present_tokens m
         = List.filter not_empty (default [] (EmailMessage.references m)))
  /\ (forall token,
        token ∈ present_tokens m
        <-> token <> ""
            /\ (token ∈ default [] (EmailMessage.references m)
                \/ EmailMessage.messageId m = Some token))
  /\ (forall mid,
        EmailMessage.messageId m = Some mid -> mid <> "" ->
        Forall (fun r => r <> "") (default [] (EmailMessage.references m)) ->
        MailOptions.references mo
        = Some (Js.join " " (default [] (EmailMessage.references m) ++ [mid]))
        /\ MailOptions.inReplyTo mo = Some mid).
Proof.
  intros Hget Hmo. rewrite (outgoing_found E p st m mo Hget Hmo).
  assert (Href : MailOptions.references
      (SmtpService.mailOptions_of E
         (EmailOperations.replyParams_of E p (ImapService.headers_of m)))
    = references_header (present_tokens m)).
  { cbn. rewrite filter_Boolean_present. now destruct (present_tokens m). }
  assert (Hirt : MailOptions.inReplyTo
      (SmtpService.mailOptions_of E
         (EmailOperations.replyParams_of E p (ImapService.headers_of m)))
    = Js.or_undefined (EmailMessage.messageId m)) by reflexivity.
  split; [exact Href|]. split; [|split; [|split]].
  - intros mid Hmid Hne. rewrite Hirt, Hmid. split; [now destruct mid|].
    unfold present_tokens. rewrite Hmid. eexists.
    now destruct mid.
  - intros Hnone. rewrite Hirt. unfold present_tokens.
    destruct Hnone as [-> | ->]; cbn; now rewrite app_nil_r.
  - intros token. unfold present_tokens.
    rewrite elem_of_app, !list_elem_of_In, filter_In, <- !list_elem_of_In.
    unfold not_empty. split.
    + intros [[Hin Hne] | Hmid].
      * split; [now destruct token | now left].
      * destruct (EmailMessage.messageId m) as [[|c mid]|];
          try (now apply elem_of_nil in Hmid).
        apply list_elem_of_singleton in Hmid as ->. split; [discriminate | now right].
    + intros [Hne [Hin | ->]].
      * left. split; [exact Hin | now destruct token].
      * right. destruct token; [contradiction|]. apply list_elem_of_here.
  - intros mid Hmid Hne Hrefs. rewrite Href, Hirt. unfold present_tokens.
    rewrite Hmid, (filter_not_empty _ Hrefs).
    assert (Hmid' : not_empty mid = true) by now destruct mid.
    rewrite Hmid'. split.
    + now destruct (default [] (EmailMessage.references m) ++ [mid]) eqn:Hl;
        [apply app_eq_nil in Hl as [_ [=]]|].
    + cbn. now destruct mid.
Qed.

Lemma reply_threading_headers_witness :
  (exists mo,
     outgoing Scenario.mailbox (Scenario.reply "19" "Thanks!" false) Scenario.start
       = [mo]
     /\ MailOptions.references mo = Some "<m17@x> <m18@x> <m19@x>"
     /\ MailOptions.inReplyTo mo = Some "<m19@x>")
  /\ (exists m mo,
        fst (ImapService.getMessage Scenario.mailbox "23" Scenario.start)
          = Resolved (Some m)
        /\ EmailMessage.references m = Some ["<m17@x>"]
        /\ EmailMessage.messageId m = None
        /\ outgoing Scenario.mailbox (Scenario.reply "23" "Thanks!" false)
             Scenario.start = [mo]
        /\ MailOptions.references mo = Some "<m17@x>"
        /\ MailOptions.inReplyTo mo = None).
Proof.
  assert (Hreply : forall uid mos m st',
    outgoing Scenario.mailbox (Scenario.reply uid "Thanks!" false) Scenario.start = mos ->
    ImapService.getMessage Scenario.mailbox uid Scenario.start
      = (Resolved (Some m), st') ->
    forall mo, mo ∈ mos ->
      MailOptions.references mo = references_header (present_tokens m)
      /\ (forall mid, EmailMessage.messageId m = Some mid -> mid <> "" ->
                      MailOptions.inReplyTo mo = Some mid)
      /\ (EmailMessage.messageId m = None -> MailOptions.inReplyTo mo = None)).
  { intros uid mos m st' Hout Hget mo Hin.
    assert (Hm : fst (ImapService.getMessage Scenario.mailbox
                   (ReplyToMessageParams.id (Scenario.reply uid "Thanks!" false))
                   Scenario.start) = Resolved (Some m)).
    { cbn [ReplyToMessageParams.id Scenario.reply]. now rewrite Hget. }
    rewrite <- Hout in Hin.
    destruct (reply_threading_headers _ _ _ _ _ Hm Hin) as (Href & Hsome & Hnone & _).
    split; [exact Href|]. split.
    - intros mid Hmid Hne. now destruct (Hsome mid Hmid Hne).
    - intros Hmid. now destruct (Hnone (or_introl Hmid)). }
  split.
  - destruct (outgoing Scenario.mailbox (Scenario.reply "19" "Thanks!" false)
                Scenario.start) as [|mo [|]] eqn:Hout;
      try (vm_compute in Hout; discriminate Hout).
    destruct (ImapService.getMessage Scenario.mailbox "19" Scenario.start)
      as [[[m|]|e] st'] eqn:Hget; try (vm_compute in Hget; discriminate Hget).
    destruct (Hreply "19" [mo] m st' Hout Hget mo (list_elem_of_here _ _))
      as (Href & Hsome & _).
    exists mo. split; [reflexivity|].
    vm_compute in Hget. injection Hget as <- _.
    split; [exact Href | now apply Hsome].
  - destruct (outgoing Scenario.mailbox (Scenario.reply "23" "Thanks!" false)
                Scenario.start) as [|mo [|]] eqn:Hout;
      try (vm_compute in Hout; discriminate Hout).
    destruct (ImapService.getMessage Scenario.mailbox "23" Scenario.start)
      as [[[m|]|e] st'] eqn:Hget; try (vm_compute in Hget; discriminate Hget).
    destruct (Hreply "23" [mo] m st' Hout Hget mo (list_elem_of_here _ _))
      as (Href & _ & Hnone).
    exists m, mo. split; [reflexivity|].
    vm_compute in Hget. injection Hget as <- _.
    repeat split; [exact Href | now apply Hnone].
Defined.

Lemma startsWith_spec p s :
  Js.startsWith p s = true <-> exists rest, s = p +:+ rest.
Proof.
  unfold Js.startsWith. revert s.
  induction p as [|a p IH]; intros s; cbn.
  - split; [intros _; now exists s | intros _; now destruct s].
  - destruct s as [|b s]; [split; [discriminate | now intros [rest [=]]]|].
    cbn. destruct (ascii_dec a b) as [<-|Hab].
    + rewrite IH. split; intros [rest H]; exists rest.
      * now rewrite H.
      * now injection H.
    + split; [discriminate|]. intros [rest [= H _]]. now destruct Hab.
Qed.

(** C5. The subject of the mail of a reply is the subject of the target
    when that one starts with the very characters [Re:], and [Re: ] in
    front of it when it does not. *)
Theorem reply_subject E p st m mo :
  fst (ImapService.getMessage E (ReplyToMessageParams.id p) st) = Resolved (Some m) ->
  mo ∈ outgoing E p st ->
  ((exists rest, EmailMessage.subject m = "Re:" +:+ rest) ->
   MailOptions.subject mo = EmailMessage.subject m)
  /\ ((forall rest, EmailMessage.subject m <> "Re:" +:+ rest) ->
      MailOptions.subject mo = "Re: " +:+ EmailMessage.subject m)
  /\ (EmailMessage.subject m = "Meeting" -> MailOptions.subject mo = "Re: Meeting")
  /\ (EmailMessage.subject m = "Re: Meeting" -> MailOptions.subject mo = "Re: Meeting")
  /\ (EmailMessage.subject m = "RE: Meeting" -> MailOptions.subject mo = "Re: RE: Meeting").
Proof.
  intros Hget Hmo. rewrite (outgoing_found E p st m mo Hget Hmo).
  cbn [MailOptions.subject SmtpService.mailOptions_of ReplyParams.subject
       EmailOperations.replyParams_of ImapService.h_subject ImapService.headers_of].
  repeat split.
  - intros H%startsWith_spec. now rewrite H.
  - intros H. destruct (Js.startsWith "Re:" (EmailMessage.subject m)) eqn:Hs;
      [|reflexivity].
    apply startsWith_spec in Hs as [rest Hrest]. now destruct (H rest).
  - now intros ->.
  - now intros ->.
  - now intros ->.
Qed.

Lemma reply_subject_witness :
  exists m mo,
    fst (ImapService.getMessage Scenario.mailbox "20" Scenario.start) = Resolved (Some m)
    /\ outgoing Scenario.mailbox (Scenario.reply "20" "Thanks!" true) Scenario.start = [mo]
    /\ EmailMessage.subject m = "Re: Meeting"
    /\ MailOptions.subject mo = "Re: Meeting".
Proof.
  destruct (outgoing Scenario.mailbox (Scenario.reply "20" "Thanks!" true) Scenario.start)
    as [|mo [|]] eqn:Hout; try (vm_compute in Hout; discriminate Hout).
  destruct (ImapService.getMessage Scenario.mailbox "20" Scenario.start)
    as [[[m|]|e] st'] eqn:Hget; try (vm_compute in Hget; discriminate Hget).
  assert (Hm : fst (ImapService.getMessage Scenario.mailbox
                 (ReplyToMessageParams.id (Scenario.reply "20" "Thanks!" true))
                 Scenario.start) = Resolved (Some m)).
  { cbn [ReplyToMessageParams.id Scenario.reply]. now rewrite Hget. }
  assert (Hin : mo ∈ outgoing Scenario.mailbox
                  (Scenario.reply "20" "Thanks!" true) Scenario.start).
  { rewrite Hout. apply list_elem_of_here. }
  destruct (reply_subject _ _ _ _ _ Hm Hin) as (_ & _ & _ & Hre & _).
  assert (Hsubject : EmailMessage.subject m = "Re: Meeting").
  { vm_compute in Hget. now injection Hget as <- _. }
  exists m, mo. repeat split; [exact Hsubject | exact (Hre Hsubject)].
Defined.

(** *** Quoting *)

Lemma split_not_nil c s : Js.split c s <> [].
Proof.
  destruct s as [|a s]; cbn; [discriminate|].
  destruct (Ascii.eqb a c); [discriminate|].
  now destruct (Js.split c s).
Qed.

Lemma split_pieces c s : Forall (fun piece => Js.indexOf c piece = None) (Js.split c s).
Proof.
  induction s as [|a s IH]; cbn; [now repeat constructor|].
  destruct (Ascii.eqb a c) eqn:Hac; [now constructor|].
  destruct (Js.split c s) as [|h t]; cbn.
  - repeat constructor. cbn. now rewrite Hac.
  - inversion IH as [|? ? Hh Ht]; subst. constructor; [|exact Ht].
    cbn. now rewrite Hac, Hh.
Qed.

Lemma split_without_separator c s : Js.indexOf c s = None -> Js.split c s = [s].
Proof.
  induction s as [|a s IH]; cbn; [reflexivity|].
  destruct (Ascii.eqb a c); [discriminate|].
  destruct (Js.indexOf c s); [discriminate|]. intros _. now rewrite IH.
Qed.

Lemma split_app_separator c x y :
  Js.indexOf c x = None ->
  Js.split c (x +:+ String c y) = x :: Js.split c y.
Proof.
  induction x as [|a x IH]; cbn [Js.indexOf].
  - intros _. change (Js.split c (String c y) = "" :: Js.split c y).
    cbn. now rewrite Ascii.eqb_refl.
  - destruct (Ascii.eqb a c) eqn:Hac; [discriminate|].
    destruct (Js.indexOf c x); [discriminate|]. intros _.
    change (String a x +:+ String c y) with (String a (x +:+ String c y)).
    cbn. now rewrite Hac, IH.
Qed.

Lemma split_join c l :
  l <> [] -> Forall (fun piece => Js.indexOf c piece = None) l ->
  Js.split c (Js.join (String c "") l) = l.
Proof.
  intros Hl Hpieces. induction Hpieces as [|x r Hx Hr IH]; [contradiction|].
  destruct r as [|y r].
  - cbn. now apply split_without_separator.
  - change (Js.join (String c "") (x :: y :: r))
      with (x +:+ String c (Js.join (String c "") (y :: r))).
    rewrite (split_app_separator c x _ Hx). f_equal. now apply IH.
Qed.

(** The lines of a quoted body are the lines of the body, each behind [> ]. *)
Lemma quotedBody_lines body :
  Js.split Js.LF (EmailOperations.quotedBody body)
  = (fun line => "> " +:+ line) <$> Js.split Js.LF body.
Proof.
  unfold EmailOperations.quotedBody, Js.nl. apply split_join.
  - intros H%fmap_nil_inv. now apply split_not_nil in H.
  - apply Forall_fmap. eapply Forall_impl; [apply split_pieces|].
    intros line Hline.
    change (Js.indexOf Js.LF (String ">" (String " " line)) = None).
    cbn in Hline |- *. now rewrite Hline.
Qed.

(** C6. With [includeQuote] and a target that has a body, the text of the
    mail is the body of the caller, the separator with the date and the
    sender of the target, and the body of the target with [> ] in front of
    every line; without [includeQuote] it is the body of the caller. *)
Theorem reply_quote E p st m mo :
  fst (ImapService.getMessage E (ReplyToMessageParams.id p) st) = Resolved (Some m) ->
  mo ∈ outgoing E p st ->
  (ReplyToMessageParams.includeQuote p = true -> original_body m <> "" ->
   MailOptions.text mo
   = ReplyToMessageParams.body p +:+ Js.nl +:+ Js.nl +:+ "---" +:+ Js.nl
       +:+ "On " +:+ toLocaleString E (EmailMessage.date m) +:+ ", "
       +:+ EmailMessage.from m +:+ " wrote:" +:+ Js.nl
       +:+ EmailOperations.quotedBody (original_body m))
  /\ (ReplyToMessageParams.includeQuote p = false ->
      MailOptions.text mo = ReplyToMessageParams.body p)
  /\ (forall body,
        Js.split Js.LF (EmailOperations.quotedBody body)
        = (fun line => "> " +:+ line) <$> Js.split Js.LF body)
  /\ EmailOperations.quotedBody ("line1" +:+ Js.nl +:+ "line2")
     = "> line1" +:+ Js.nl +:+ "> line2".
Proof.
  intros Hget Hmo. rewrite (outgoing_found E p st m mo Hget Hmo).
  cbn [MailOptions.text SmtpService.mailOptions_of ReplyParams.body
       EmailOperations.replyParams_of].
  unfold EmailOperations.replyBody_of.
  cbn [ImapService.h_body ImapService.h_date ImapService.h_from ImapService.headers_of].
  fold (original_body m).
  repeat split.
  - intros -> Hbody. destruct (original_body m); [contradiction | reflexivity].
  - now intros ->.
  - apply quotedBody_lines.
Qed.

Lemma reply_quote_witness :
  exists mo,
    outgoing Scenario.mailbox (Scenario.reply "19" "Thanks!" true) Scenario.start = [mo]
    /\ MailOptions.text mo
       = "Thanks!" +:+ Js.nl +:+ Js.nl +:+ "---" +:+ Js.nl
           +:+ "On 1/1/1970, 12:00:01 AM, Jane Doe <jane@example.com> wrote:" +:+ Js.nl
           +:+ "> line1" +:+ Js.nl +:+ "> line2".
Proof.
  destruct (outgoing Scenario.mailbox (Scenario.reply "19" "Thanks!" true) Scenario.start)
    as [|mo [|]] eqn:Hout; try (vm_compute in Hout; discriminate Hout).
  destruct (ImapService.getMessage Scenario.mailbox "19" Scenario.start)
    as [[[m|]|e] st'] eqn:Hget; try (vm_compute in Hget; discriminate Hget).
  assert (Hm : fst (ImapService.getMessage Scenario.mailbox
                 (ReplyToMessageParams.id (Scenario.reply "19" "Thanks!" true))
                 Scenario.start) = Resolved (Some m)).
  { cbn [ReplyToMessageParams.id Scenario.reply]. now rewrite Hget. }
  assert (Hin : mo ∈ outgoing Scenario.mailbox
                  (Scenario.reply "19" "Thanks!" true) Scenario.start).
  { rewrite Hout. apply list_elem_of_here. }
  destruct (reply_quote _ _ _ _ _ Hm Hin) as (Hquote & _).
  exists mo. split; [reflexivity|].
  vm_compute in Hget. injection Hget as <- _.
  rewrite Hquote; [reflexivity | reflexivity | discriminate].
Defined.

(** *** The failures *)

(** C8, as the code has it.  [replyToMessage] never rejects: it resolves
    with a failure result when the target is missing, when the reply
    address cannot be determined, when the sender fails, and also when the
    fetch of the target fails, connection errors included. *)
Theorem replyToMessage_never_rejects E p st :
  exists r,
    fst (EmailOperations.replyToMessage E p st) = Resolved r
    /\ (fst (ImapService.getMessage E (ReplyToMessageParams.id p) st) = Resolved None ->
        r = failure "Original message not found")
    /\ (forall m,
          fst (ImapService.getMessage E (ReplyToMessageParams.id p) st)
            = Resolved (Some m) ->
          address_undetermined (EmailMessage.from m) = true ->
          r = failure "Could not determine reply address from original message")
    /\ (forall mo e,
          mo ∈ outgoing E p st -> sendMail E mo = inl e ->
          r = failure ("Failed to send reply: " +:+ e))
    /\ (forall e,
          fst (ImapService.getMessage E (ReplyToMessageParams.id p) st) = Rejected e ->
          r = failure ("Failed to send reply: " +:+ e)).
Proof.
  rewrite outgoing_eq, replyToMessage_eq.
  destruct (fst (ImapService.getMessage E _ st)) as [[m|]|e] eqn:Hget.
  - destruct (address_undetermined (EmailMessage.from m)) eqn:Hund.
    + eexists. split; [reflexivity|]. split; [discriminate|].
      split; [reflexivity|]. split; [|discriminate].
      now intros mo e H%elem_of_nil.
    + eexists. split; [reflexivity|]. split; [discriminate|].
      split; [|split; [|discriminate]].
      * intros m' [= <-]. now rewrite Hund.
      * intros mo e ->%list_elem_of_singleton ->. reflexivity.
  - eexists. split; [reflexivity|]. split; [reflexivity|].
    split; [discriminate|]. split; [|discriminate].
    now intros mo e H%elem_of_nil.
  - eexists. split; [reflexivity|]. split; [discriminate|].
    split; [discriminate|]. split.
    + now intros mo e' H%elem_of_nil.
    + now intros e' [= <-].
Qed.

Lemma replyToMessage_never_rejects_witness :
  fst (EmailOperations.replyToMessage Scenario.mailbox_without_relay
         (Scenario.reply "19" "Thanks!" false) Scenario.start)
  = Resolved (failure "Failed to send reply: Connection timeout").
Proof.
  destruct (replyToMessage_never_rejects Scenario.mailbox_without_relay
              (Scenario.reply "19" "Thanks!" false) Scenario.start)
    as (r & -> & _ & _ & Hsender & _).
  f_equal. eapply Hsender; [|reflexivity].
  vm_compute. apply list_elem_of_here.
Defined.

(** A connection error during the fetch of the target is not thrown to
    the caller: it comes back as a failure result. *)
Lemma replyToMessage_connection_error_is_a_result :
  fst (ImapService.getMessage (Scenario.env_of Scenario.unreachable) "19" Scenario.start)
    = Rejected "IMAP connection error: connect ECONNREFUSED"
  /\ fst (EmailOperations.replyToMessage (Scenario.env_of Scenario.unreachable)
            (Scenario.reply "19" "Thanks!" true) Scenario.start)
     = Resolved (failure
         "Failed to send reply: IMAP connection error: connect ECONNREFUSED")
  /\ ~ (exists e,
          fst (EmailOperations.replyToMessage (Scenario.env_of Scenario.unreachable)
                 (Scenario.reply "19" "Thanks!" true) Scenario.start)
          = Rejected e).
Proof.
  split; [reflexivity|]. split; [reflexivity|].
  intros [e H]. vm_compute in H. discriminate H.
Qed.

(** ** Attachments *)

Lemma getAttachment_ready E uid attachmentIndex maxSizeBytes st total :
  Connection.connect (server E (connections st)) = None ->
  Connection.openBox (server E (connections st)) = inr total ->
  ImapService.getAttachment E uid attachmentIndex maxSizeBytes st
  = (first_settlement
       (ImapService.getAttachment_on_message E attachmentIndex maxSizeBytes)
       (Connection.fetch (server E (connections st)) [uid]),
     connected st).
Proof.
  intros Hc Ho.
  unfold ImapService.getAttachment, await, ImapService.createConnection, settle.
  cbn. now rewrite Hc, Ho.
Qed.

Lemma getAttachment_rejected E uid attachmentIndex maxSizeBytes st e :
  fst (ImapService.getAttachment E uid attachmentIndex maxSizeBytes st) = Rejected e ->
  (exists e', e = "IMAP connection error: " +:+ e')
  \/ (exists e', e = "Failed to open inbox: " +:+ e')
  \/ first_settlement
       (ImapService.getAttachment_on_message E attachmentIndex maxSizeBytes)
       (Connection.fetch (server E (connections st)) [uid]) = Rejected e.
Proof.
  unfold ImapService.getAttachment, await, ImapService.createConnection,
    reject, settle. cbn.
  destruct (Connection.connect _) as [e'|];
    [intros [= <-]; left; now exists e'|].
  destruct (Connection.openBox _) as [e'|total];
    [intros [= <-]; right; left; now exists e'|].
  intros H. now right; right.
Qed.

(** C10. [getAttachment] resolves with [null] when the fetch of the
    message ends without a message, when the message has no attachment,
    and when the index is at or past the number of attachments; it rejects
    with the message of the size limit only for an attachment that is at
    the index and whose size is over the limit. *)
Theorem getAttachment_not_found E uid attachmentIndex maxSizeBytes st :
  (forall total,
     Connection.connect (server E (connections st)) = None ->
     Connection.openBox (server E (connections st)) = inr total ->
     Fetch.error (Connection.fetch (server E (connections st)) [uid]) = None ->
     (Fetch.msgs (Connection.fetch (server E (connections st)) [uid]) = [] ->
      ImapService.getAttachment E uid attachmentIndex maxSizeBytes st
      = (Resolved None, connected st))
     /\ (forall fm parsed,
           Fetch.msgs (Connection.fetch (server E (connections st)) [uid]) = [fm] ->
           simpleParser E (Fetched.raw fm) = inr parsed ->
           ParsedMail.attachments parsed = None
           \/ ParsedMail.attachments parsed = Some []
           \/ (exists attachments,
                 ParsedMail.attachments parsed = Some attachments
                 /\ (inject_Z (Z.of_nat (length attachments)) <= attachmentIndex)%Q) ->
           ImapService.getAttachment E uid attachmentIndex maxSizeBytes st
           = (Resolved None, connected st)))
  /\ (forall size limit,
        fst (ImapService.getAttachment E uid attachmentIndex maxSizeBytes st)
          = Rejected (ImapService.size_limit_message E size limit) ->
        exists fm parsed attachment,
          fm ∈ Fetch.msgs (Connection.fetch (server E (connections st)) [uid])
          /\ simpleParser E (Fetched.raw fm) = inr parsed
          /\ ImapService.array_get (default [] (ParsedMail.attachments parsed))
               attachmentIndex = Some attachment
          /\ (maxSizeBytes < inject_Z (Attachment.size attachment))%Q).
Proof.
  split.
  - intros total Hc Ho Herr.
    rewrite (getAttachment_ready E uid attachmentIndex maxSizeBytes st total Hc Ho).
    split.
    + intros Hmsgs. unfold first_settlement, parsed_early. now rewrite Hmsgs, Herr.
    + intros fm parsed Hmsgs Hparsed Hcase.
      rewrite (first_settlement_one _ _ fm Hmsgs Herr).
      unfold ImapService.getAttachment_on_message. rewrite Hparsed.
      destruct Hcase as [-> | [-> | (attachments & -> & Hlen)]]; try reflexivity.
      change (default [] (Some attachments)) with attachments.
      destruct (length attachments =? 0)%nat; [reflexivity|].
      apply Qle_bool_iff in Hlen. now rewrite Hlen.
  - intros size limit Hrej.
    apply getAttachment_rejected in Hrej as [[e' He'] | [[e' He'] | Hrej]];
      [discriminate He' | discriminate He' |].
    apply first_settlement_rejected in Hrej as [[e' He'] | (fm & Hfm & Hrej)];
      [discriminate He'|].
    unfold ImapService.getAttachment_on_message in Hrej.
    destruct (simpleParser E (Fetched.raw fm)) as [e'|parsed] eqn:Hparsed;
      [discriminate Hrej|].
    destruct (length _ =? 0)%nat; [discriminate Hrej|].
    destruct (Qle_bool _ attachmentIndex); [discriminate Hrej|].
    destruct (ImapService.array_get _ _) as [attachment|] eqn:Hget;
      [|discriminate Hrej].
    destruct (Qle_bool (inject_Z (Attachment.size attachment)) maxSizeBytes)
      eqn:Hsize; [discriminate Hrej|].
    exists fm, parsed, attachment. repeat split; try assumption.
    apply Qnot_le_lt. intros Hle%Qle_bool_iff. congruence.
Qed.

Lemma getAttachment_not_found_witness :
  ImapService.getAttachment Scenario.mailbox "19" 1%Q 100%Q Scenario.start
    = (Resolved None, connected Scenario.start)
  /\ ImapService.getAttachment Scenario.mailbox "404" 0%Q 100%Q Scenario.start
     = (Resolved None, connected Scenario.start)
  /\ (fst (ImapService.getAttachment Scenario.mailbox "19" 0%Q 100%Q Scenario.start)
      = Rejected (ImapService.size_limit_message Scenario.mailbox 2048 100%Q)
      /\ exists attachment,
           ImapService.array_get [Scenario.report_pdf] 0%Q = Some attachment
           /\ (100 < inject_Z (Attachment.size attachment))%Q).
Proof.
  split; [|split].
  - eapply (proj2 (proj1 (getAttachment_not_found Scenario.mailbox "19" 1%Q 100%Q
                            Scenario.start) 2 eq_refl eq_refl eq_refl));
      [reflexivity | reflexivity |].
    right; right. eexists; split; [reflexivity | cbn; discriminate].
  - now apply (proj1 (proj1 (getAttachment_not_found Scenario.mailbox "404" 0%Q 100%Q
                               Scenario.start) 2 eq_refl eq_refl eq_refl)).
  - split; [reflexivity|].
    destruct (proj2 (getAttachment_not_found Scenario.mailbox "19" 0%Q 100%Q
                       Scenario.start) 2048 100%Q eq_refl)
      as (fm & parsed & attachment & Hfm & Hparsed & Hget & Hsize).
    apply list_elem_of_singleton in Hfm as ->.
    injection Hparsed as <-.
    now exists attachment.
Defined.
(** ** The reply address

    *** The matcher *)

#[local] Arguments append !_ _ : simpl nomatch.

Lemma append_nil_r s : s +:+ "" = s.
Proof.
  induction s as [|a s IH]; [reflexivity|].
  change (String a s +:+ "") with (String a (s +:+ "")). now rewrite IH.
Qed.

Lemma append_assoc s t u : (s +:+ t) +:+ u = s +:+ t +:+ u.
Proof.
  induction s as [|a s IH]; [reflexivity|].
  change (String a ((s +:+ t) +:+ u) = String a (s +:+ t +:+ u)). now rewrite IH.
Qed.

Lemma length_append s t :
  String.length (s +:+ t) = (String.length s + String.length t)%nat.
Proof.
  induction s as [|a s IH]; [reflexivity|].
  change (S (String.length (s +:+ t)) = S (String.length s + String.length t)).
  now rewrite IH.
Qed.

Lemma drop_append pre t : Js.drop (String.length pre) (pre +:+ t) = t.
Proof. induction pre as [|a pre IH]; [reflexivity | exact IH]. Qed.

(** The first [k] characters of a string and the rest of it. *)
Lemma take_drop k s :
  (k <= String.length s)%nat ->
  exists pre, s = pre +:+ Js.drop k s /\ String.length pre = k.
Proof.
  revert s. induction k as [|k IH]; intros s Hk.
  - now exists "".
  - destruct s as [|a s]; [cbn in Hk; lia|].
    destruct (IH s) as (pre & Hpre & Hlen); [cbn in Hk; lia|].
    exists (String a pre). split; [|cbn; now rewrite Hlen].
    change (String a s = String a (pre +:+ Js.drop k s)). now rewrite <- Hpre.
Qed.

Lemma substring_prefix g post :
  String.substring 0 (String.length g) (g +:+ post) = g.
Proof.
  induction g as [|b g IH]; [now destruct post|].
  change (String b (String.substring 0 (String.length g) (g +:+ post)) = String b g).
  now rewrite IH.
Qed.

Lemma substring_append pre g post :
  String.substring (String.length pre) (String.length g) (pre +:+ g +:+ post) = g.
Proof.
  induction pre as [|a pre IH]; [exact (substring_prefix g post) | exact IH].
Qed.

Lemma run_all_in cls g rest :
  all_in cls g = true -> (String.length g <= Js.run cls (g +:+ rest))%nat.
Proof.
  induction g as [|a g IH]; cbn [all_in String.length]; [lia|].
  intros [Ha Hg]%andb_true_iff.
  change (String a g +:+ rest) with (String a (g +:+ rest)).
  cbn. rewrite Ha. specialize (IH Hg). lia.
Qed.

(** The first [k] characters of a run of the class are in the class. *)
Lemma run_take cls k s :
  (k <= Js.run cls s)%nat ->
  exists g, s = g +:+ Js.drop k s /\ String.length g = k /\ all_in cls g = true.
Proof.
  revert s. induction k as [|k IH]; intros s Hk.
  - now exists "".
  - destruct s as [|a s]; [cbn in Hk; lia|].
    cbn in Hk. destruct (cls a) eqn:Ha; [|lia].
    destruct (IH s) as (g & Hg & Hlen & Hall); [lia|].
    exists (String a g). repeat split.
    + change (String a s = String a (g +:+ Js.drop k s)). now rewrite <- Hg.
    + cbn. now rewrite Hlen.
    + cbn. now rewrite Ha, Hall.
Qed.

(** A run stops at the end or at a character that is not in the class. *)
Lemma run_stop cls g a rest :
  all_in cls g = true -> cls a = false ->
  Js.run cls (g +:+ String a rest) = String.length g.
Proof.
  intros Hg Ha. induction g as [|b g IH].
  - cbn. now rewrite Ha.
  - cbn in Hg. apply andb_true_iff in Hg as [Hb Hg].
    change (String b g +:+ String a rest) with (String b (g +:+ String a rest)).
    cbn. now rewrite Hb, IH.
Qed.

Lemma longest_first_Some {X} n (f : nat -> option X) x :
  Js.longest_first n f = Some x ->
  exists k, (1 <= k <= n)%nat /\ f k = Some x
            /\ forall j, (k < j <= n)%nat -> f j = None.
Proof.
  induction n as [|n IH]; [discriminate|]. cbn.
  destruct (f (S n)) as [y|] eqn:Hf.
  - intros [= <-]. exists (S n). repeat split; [lia | lia | exact Hf | lia].
  - intros (k & Hk & Hfk & Hlater)%IH. exists k. repeat split; [lia | lia | exact Hfk |].
    intros j Hj. destruct (decide (j = S n)) as [-> | Hne]; [exact Hf|].
    apply Hlater. lia.
Qed.

Lemma longest_first_None {X} n (f : nat -> option X) :
  Js.longest_first n f = None -> forall k, (1 <= k <= n)%nat -> f k = None.
Proof.
  induction n as [|n IH]; [intros _ k Hk; lia|]. cbn.
  destruct (f (S n)) as [y|] eqn:Hf; [discriminate|].
  intros Hn k Hk. destruct (decide (k = S n)) as [-> | Hne]; [exact Hf|].
  apply IH; [exact Hn | lia].
Qed.

(** The leftmost match: where it is, and that no place before has one. *)
Lemma search_Some r s pos c :
  Js.search r s pos = Some c ->
  exists k, (k <= String.length s)%nat
    /\ Js.match_here r (Js.drop k s) (pos + k) (pos + k, pos + k)%nat = Some c
    /\ forall j, (j < k)%nat ->
         Js.match_here r (Js.drop j s) (pos + j) (pos + j, pos + j)%nat = None.
Proof.
  revert pos. induction s as [|a s IH]; intros pos; cbn [Js.search].
  - destruct (Js.match_here r "" pos (pos, pos)) eqn:Hm; [|discriminate].
    intros [= <-]. exists 0%nat. rewrite Nat.add_0_r.
    repeat split; [cbn; lia | exact Hm | lia].
  - destruct (Js.match_here r (String a s) pos (pos, pos)) eqn:Hm.
    + intros [= <-]. exists 0%nat. rewrite Nat.add_0_r.
      repeat split; [cbn; lia | exact Hm | lia].
    + intros (k & Hk & Hmk & Hbefore)%IH. exists (S k).
      rewrite <- Nat.add_succ_comm. repeat split; [cbn; lia | exact Hmk |].
      intros [|j] Hj; [now rewrite Nat.add_0_r|].
      rewrite <- Nat.add_succ_comm. apply Hbefore. lia.
Qed.

Lemma search_None r s pos :
  Js.search r s pos = None ->
  forall k, (k <= String.length s)%nat ->
    Js.match_here r (Js.drop k s) (pos + k) (pos + k, pos + k)%nat = None.
Proof.
  revert pos. induction s as [|a s IH]; intros pos; cbn [Js.search].
  - destruct (Js.match_here r "" pos (pos, pos)) eqn:Hm; [discriminate|].
    intros _ [|k] Hk; [now rewrite Nat.add_0_r | cbn in Hk; lia].
  - destruct (Js.match_here r (String a s) pos (pos, pos)) eqn:Hm; [discriminate|].
    intros Hs [|k] Hk; [now rewrite Nat.add_0_r|].
    rewrite <- Nat.add_succ_comm. apply (IH (S pos) Hs). cbn in Hk. lia.
Qed.

(** *** The pattern of an address in angle brackets *)

Lemma angle_address_here t pos cap g rest :
  t = "<" +:+ g +:+ ">" +:+ rest -> g <> "" -> all_in not_gt g = true ->
  Js.match_here EmailOperations.angle_address t pos cap
  = Some (S pos, S pos + String.length g)%nat.
Proof.
  intros -> Hg Hall. cbn.
  rewrite (run_stop (fun c => negb (Ascii.eqb c ">")) g ">" rest Hall eq_refl).
  destruct g as [|a g]; [contradiction|].
  cbn [String.length Js.longest_first].
  change (Js.drop (S (String.length g)) (String a g +:+ String ">" rest))
    with (Js.drop (String.length (String a g)) (String a g +:+ String ">" rest)).
  rewrite drop_append. cbn. reflexivity.
Qed.

Lemma angle_address_here_Some t pos cap a b :
  Js.match_here EmailOperations.angle_address t pos cap = Some (a, b) ->
  exists g rest,
    t = "<" +:+ g +:+ ">" +:+ rest /\ g <> "" /\ all_in not_gt g = true
    /\ a = S pos /\ b = (S pos + String.length g)%nat.
Proof.
  cbn. destruct t as [|c t]; [discriminate|].
  destruct (Ascii.eqb_spec c "<") as [->|]; [|discriminate].
  intros (k & Hk & Hfk & _)%longest_first_Some.
  destruct (run_take not_gt k t) as (g & Hg & Hlen & Hall); [exact (proj2 Hk)|].
  destruct (Js.drop k t) as [|d rest]; [discriminate|].
  destruct (Ascii.eqb_spec d ">") as [->|]; [|discriminate].
  injection Hfk as <- <-.
  exists g, rest. repeat split.
  - now rewrite Hg at 1.
  - intros ->. cbn in Hlen. lia.
  - exact Hall.
  - now rewrite Hlen.
Qed.

Lemma angle_address_Some s g :
  Js.match_group1 EmailOperations.angle_address s = Some g -> first_bracket_pair s g.
Proof.
  unfold Js.match_group1.
  destruct (Js.search _ s 0) as [[a b]|] eqn:Hsearch; [|discriminate].
  intros [= <-].
  apply search_Some in Hsearch as (k & Hk & Hm & Hbefore).
  apply angle_address_here_Some in Hm as (g & rest & Ht & Hg & Hall & -> & ->).
  destruct (take_drop k s Hk) as (pre & Hs & Hlen).
  rewrite Ht in Hs.
  replace (S (0 + k) + String.length g - S (0 + k))%nat with (String.length g) by lia.
  assert (Hsub : String.substring (S (0 + k)) (String.length g) s = g).
  { rewrite Hs at 1. rewrite <- (append_assoc pre "<").
    replace (S (0 + k)) with (String.length (pre +:+ "<"))
      by (rewrite length_append, Hlen; cbn; lia).
    apply substring_append. }
  rewrite Hsub. exists pre. split; [now exists rest|].
  intros pre' g' (post' & Hs' & Hg' & Hall').
  destruct (Nat.le_gt_cases (String.length pre) (String.length pre')) as [|Hlt];
    [assumption|].
  specialize (Hbefore (String.length pre') ltac:(lia)).
  rewrite Hs' in Hbefore at 1. rewrite drop_append in Hbefore.
  now rewrite (angle_address_here _ _ _ g' post' eq_refl Hg' Hall') in Hbefore.
Qed.

Lemma angle_address_None s :
  Js.match_group1 EmailOperations.angle_address s = None -> no_bracket_pair s.
Proof.
  unfold Js.match_group1.
  destruct (Js.search _ s 0) as [[a b]|] eqn:Hsearch; [discriminate|]. intros _.
  intros pre g (post & Hs & Hg & Hall).
  assert (Hlen : (String.length pre <= String.length s)%nat)
    by (rewrite Hs, length_append; lia).
  pose proof (search_None _ _ _ Hsearch (String.length pre) Hlen) as Hnone.
  rewrite Hs in Hnone at 1. rewrite drop_append in Hnone.
  now rewrite (angle_address_here _ _ _ g post eq_refl Hg Hall) in Hnone.
Qed.

(** *** The pattern of a bare address *)

Lemma longest_first_always {X} n (g : nat -> X) :
  Js.longest_first n (fun k => Some (g k))
  = match n with O => None | S _ => Some (g n) end.
Proof. now destruct n. Qed.

Lemma append_same_length l x l' x' :
  l +:+ x = l' +:+ x' -> String.length l = String.length l' -> l = l' /\ x = x'.
Proof.
  revert l'. induction l as [|a l IH]; intros [|a' l'] H Hlen; try discriminate Hlen.
  - now split.
  - cbn in H. injection H as <- H. injection Hlen as Hlen.
    destruct (IH l' H Hlen) as [-> ->]. now split.
Qed.

Lemma at_domain_here u p cap :
  Js.match_here at_domain u p cap
  = match u with
    | String c u' =>
        if Ascii.eqb c "@"
        then match Js.run domain_char u' with
             | O => None
             | S n => Some (fst cap, (S p + S n)%nat)
             end
        else None
    | EmptyString => None
    end.
Proof.
  destruct u as [|c u']; [reflexivity|]. cbn.
  destruct (Ascii.eqb c "@"); [|reflexivity].
  rewrite (longest_first_always _ (fun k => (fst cap, S (p + k)))).
  now destruct (Js.run _ u').
Qed.

Lemma at_domain_found domain rest p cap :
  domain <> "" -> all_in domain_char domain = true ->
  exists n, Js.run domain_char (domain +:+ rest) = S n
    /\ (String.length domain <= S n)%nat
    /\ Js.match_here at_domain ("@" +:+ domain +:+ rest) p cap
       = Some (fst cap, (S p + S n)%nat).
Proof.
  intros Hd Hall. pose proof (run_all_in domain_char domain rest Hall) as Hrun.
  destruct (Js.run domain_char (domain +:+ rest)) as [|n] eqn:Hn.
  - destruct domain; [contradiction | cbn in Hrun; lia].
  - exists n. repeat split; [exact Hrun|].
    rewrite at_domain_here. cbn. now rewrite Hn.
Qed.

Lemma bare_address_unfold t pos cap :
  Js.match_here EmailOperations.bare_address t pos cap
  = Js.longest_first (Js.run local_char t)
      (fun k => Js.match_here at_domain (Js.drop k t) (pos + k)%nat (pos, snd cap)).
Proof. reflexivity. Qed.

Lemma bare_address_here_Some t pos cap a b :
  Js.match_here EmailOperations.bare_address t pos cap = Some (a, b) ->
  exists local domain rest,
    t = local +:+ "@" +:+ domain +:+ rest
    /\ local <> "" /\ all_in local_char local = true
    /\ domain <> "" /\ all_in domain_char domain = true
    /\ a = pos /\ b = (pos + String.length (local +:+ "@" +:+ domain))%nat
    /\ Js.run domain_char (domain +:+ rest) = String.length domain
    /\ forall j, (String.length local < j <= Js.run local_char t)%nat ->
         Js.match_here at_domain (Js.drop j t) (pos + j)%nat (pos, snd cap) = None.
Proof.
  rewrite bare_address_unfold.
  intros (k & Hk & Hfk & Hlonger)%longest_first_Some.
  destruct (run_take local_char k t (proj2 Hk)) as (local & Ht & Hlen & Hlocal).
  rewrite at_domain_here in Hfk.
  destruct (Js.drop k t) as [|c u] eqn:Hdrop; [discriminate|].
  destruct (Ascii.eqb_spec c "@") as [->|]; [|discriminate].
  destruct (Js.run domain_char u) as [|n] eqn:Hrun; [discriminate|].
  injection Hfk as <- <-.
  destruct (run_take domain_char (S n) u) as (domain & Hu & Hdlen & Hdomain); [lia|].
  exists local, domain, (Js.drop (S n) u). repeat split.
  - rewrite Ht at 1. now rewrite Hu at 1.
  - intros ->. cbn in Hlen. lia.
  - exact Hlocal.
  - intros ->. discriminate Hdlen.
  - exact Hdomain.
  - rewrite !length_append, Hlen, Hdlen. cbn. lia.
  - rewrite <- Hu. now rewrite Hdlen.
  - intros j Hj. apply Hlonger. lia.
Qed.

Lemma bare_address_here_token t pos cap local domain rest :
  t = local +:+ "@" +:+ domain +:+ rest ->
  local <> "" -> all_in local_char local = true ->
  domain <> "" -> all_in domain_char domain = true ->
  (1 <= String.length local <= Js.run local_char t)%nat
  /\ exists c, Js.match_here at_domain (Js.drop (String.length local) t)
                 (pos + String.length local)%nat cap = Some c.
Proof.
  intros -> Hl Hlocal Hd Hdomain. split.
  - split; [destruct local; [contradiction | cbn; lia]|].
    now apply run_all_in.
  - rewrite drop_append.
    destruct (at_domain_found domain rest (pos + String.length local)%nat cap
                Hd Hdomain) as (n & _ & _ & ->).
    now eexists.
Qed.

Lemma bare_address_here_is_Some t pos cap local domain rest :
  t = local +:+ "@" +:+ domain +:+ rest ->
  local <> "" -> all_in local_char local = true ->
  domain <> "" -> all_in domain_char domain = true ->
  Js.match_here EmailOperations.bare_address t pos cap <> None.
Proof.
  intros Ht Hl Hlocal Hd Hdomain Hnone.
  rewrite bare_address_unfold in Hnone.
  destruct (bare_address_here_token t pos (pos, snd cap) local domain rest
              Ht Hl Hlocal Hd Hdomain) as (Hrange & c & Hc).
  now rewrite (longest_first_None _ _ Hnone _ Hrange) in Hc.
Qed.

Lemma bare_address_Some s g :
  Js.match_group1 EmailOperations.bare_address s = Some g -> first_bare_token s g.
Proof.
  unfold Js.match_group1.
  destruct (Js.search _ s 0) as [[a b]|] eqn:Hsearch; [|discriminate].
  intros [= <-].
  apply search_Some in Hsearch as (k & Hk & Hm & Hbefore).
  apply bare_address_here_Some in Hm
    as (local & domain & rest & Ht & Hl & Hlocal & Hd & Hdomain & -> & -> & Hrun & Hlonger).
  destruct (take_drop k s Hk) as (pre & Hs & Hlen).
  rewrite Ht in Hs.
  replace (0 + k + String.length (local +:+ "@" +:+ domain) - (0 + k))%nat
    with (String.length (local +:+ "@" +:+ domain)) by lia.
  assert (Hsub : String.substring (0 + k) (String.length (local +:+ "@" +:+ domain)) s
                 = local +:+ "@" +:+ domain).
  { assert (Hs2 : s = pre +:+ (local +:+ "@" +:+ domain) +:+ rest)
      by (rewrite Hs; now rewrite !append_assoc).
    rewrite Hs2 at 1. cbn [Nat.add]. rewrite <- Hlen. apply substring_append. }
  rewrite Hsub. exists pre, local, domain.
  split; [reflexivity|]. split; [now exists rest|].
  intros pre' local' domain' (post' & Hs' & Hl' & Hlocal' & Hd' & Hdomain').
  destruct (Nat.lt_trichotomy (String.length pre) (String.length pre'))
    as [Hlt | [Heq | Hgt]]; [now left | right; split; [exact Heq|] |].
  - assert (Hsame : local +:+ "@" +:+ domain +:+ rest
                    = local' +:+ "@" +:+ domain' +:+ post').
    { rewrite Hs in Hs'. now apply append_same_length in Hs' as [_ ?]. }
    destruct (Nat.lt_trichotomy (String.length local') (String.length local))
      as [Hll | [Hll | Hll]]; [now left | right; split; [exact Hll|] |].
    + symmetry in Hll. apply append_same_length in Hsame as [_ Hsame]; [|exact Hll].
      injection Hsame as Hsame. rewrite <- Hrun, Hsame. now apply run_all_in.
    + exfalso.
      destruct (bare_address_here_token (Js.drop k s) (0 + k)%nat
                  ((0 + k)%nat, snd ((0 + k)%nat, (0 + k)%nat)) local' domain' post')
        as (Hrange & c & Hc); try assumption; [now rewrite Ht|].
      rewrite Hlonger in Hc; [discriminate Hc | lia].
  - exfalso. specialize (Hbefore (String.length pre') ltac:(lia)).
    rewrite Hs' in Hbefore at 1. rewrite drop_append in Hbefore.
    now apply (bare_address_here_is_Some _ _ _ local' domain' post' eq_refl) in Hbefore.
Qed.

Lemma bare_address_None s :
  Js.match_group1 EmailOperations.bare_address s = None -> no_bare_token s.
Proof.
  unfold Js.match_group1.
  destruct (Js.search _ s 0) as [[a b]|] eqn:Hsearch; [discriminate|]. intros _.
  intros pre local domain (post & Hs & Hl & Hlocal & Hd & Hdomain).
  assert (Hlen : (String.length pre <= String.length s)%nat)
    by (rewrite Hs, length_append; lia).
  pose proof (search_None _ _ _ Hsearch (String.length pre) Hlen) as Hnone.
  rewrite Hs in Hnone at 1. rewrite drop_append in Hnone.
  now apply (bare_address_here_is_Some _ _ _ local domain post eq_refl) in Hnone.
Qed.

(** *** The reply address of replyToMessage *)

(** The address [replyToMessage] replies to, in the words of the two
    patterns. *)
Lemma replyTo_of_cases from :
  (exists g, first_bracket_pair from g /\ EmailOperations.replyTo_of from = g)
  \/ (no_bracket_pair from
      /\ exists g, first_bare_token from g /\ EmailOperations.replyTo_of from = g)
  \/ (no_bracket_pair from /\ no_bare_token from
      /\ EmailOperations.replyTo_of from = from).
Proof.
  unfold EmailOperations.replyTo_of.
  destruct (Js.match_group1 EmailOperations.angle_address from) as [g|] eqn:Hangle.
  - left. exists g. split; [now apply angle_address_Some | reflexivity].
  - right. apply angle_address_None in Hangle.
    destruct (Js.match_group1 EmailOperations.bare_address from) as [g|] eqn:Hbare.
    + left. split; [exact Hangle|]. exists g.
      split; [now apply bare_address_Some | reflexivity].
    + right. split; [exact Hangle|]. split; [now apply bare_address_None | reflexivity].
Qed.

(** C7, as the code has it.  The reply address is the content of the
    first pair of angle brackets around a text that is not empty, else the
    first bare token [local@domain], else the whole From header; when it
    is empty or has no [@], [replyToMessage] resolves with a failure
    result and the sender is not invoked. *)
Theorem reply_address E p st m :
  fst (ImapService.getMessage E (ReplyToMessageParams.id p) st) = Resolved (Some m) ->
  ((exists g, first_bracket_pair (EmailMessage.from m) g
              /\ EmailOperations.replyTo_of (EmailMessage.from m) = g)
   \/ (no_bracket_pair (EmailMessage.from m)
       /\ exists g, first_bare_token (EmailMessage.from m) g
                    /\ EmailOperations.replyTo_of (EmailMessage.from m) = g)
   \/ (no_bracket_pair (EmailMessage.from m) /\ no_bare_token (EmailMessage.from m)
       /\ EmailOperations.replyTo_of (EmailMessage.from m) = EmailMessage.from m))
  /\ (EmailOperations.replyTo_of (EmailMessage.from m) = ""
      \/ Js.includes "@" (EmailOperations.replyTo_of (EmailMessage.from m)) = false ->
      EmailOperations.replyToMessage E p st
      = (Resolved (failure "Could not determine reply address from original message"),
         connected st)
      /\ calls (snd (EmailOperations.replyToMessage E p st)) = calls st)
  /\ EmailOperations.replyTo_of "Jane Doe <jane@example.com>" = "jane@example.com"
  /\ EmailOperations.replyTo_of "jane@example.com" = "jane@example.com"
  /\ EmailOperations.replyTo_of "Jane Doe" = "Jane Doe"
  /\ Js.includes "@" "Jane Doe" = false.
Proof.
  intros Hget. split; [apply replyTo_of_cases|]. split; [|now vm_compute].
  intros Hbad.
  assert (Hund : address_undetermined (EmailMessage.from m) = true).
  { unfold address_undetermined. destruct Hbad as [-> | ->]; [reflexivity|].
    apply orb_true_r. }
  rewrite replyToMessage_eq, Hget, Hund. now split.
Qed.

Lemma reply_address_witness :
  exists m,
    fst (ImapService.getMessage Scenario.mailbox "21" Scenario.start) = Resolved (Some m)
    /\ EmailMessage.from m = "Jane Doe"
    /\ EmailOperations.replyToMessage Scenario.mailbox
         (Scenario.reply "21" "Thanks!" true) Scenario.start
       = (Resolved (failure "Could not determine reply address from original message"),
          connected Scenario.start).
Proof.
  destruct (ImapService.getMessage Scenario.mailbox "21" Scenario.start)
    as [[[m|]|e] st'] eqn:Hget; try (vm_compute in Hget; discriminate Hget).
  assert (Hm : fst (ImapService.getMessage Scenario.mailbox
                 (ReplyToMessageParams.id (Scenario.reply "21" "Thanks!" true))
                 Scenario.start) = Resolved (Some m)).
  { cbn [ReplyToMessageParams.id Scenario.reply]. now rewrite Hget. }
  destruct (reply_address _ _ _ _ Hm) as (_ & Hfail & _).
  assert (Hfrom : EmailMessage.from m = "Jane Doe").
  { vm_compute in Hget. now injection Hget as <- _. }
  exists m. split; [reflexivity|]. split; [exact Hfrom|].
  apply Hfail. right. rewrite Hfrom. reflexivity.
Defined.

(** A From header that neither pattern matches and that has an [@]: the
    header itself is the address, and the reply is sent. *)
Lemma replyToMessage_unmatched_from_is_sent :
  exists m,
    fst (ImapService.getMessage Scenario.mailbox "22" Scenario.start) = Resolved (Some m)
    /\ Js.match_group1 EmailOperations.angle_address (EmailMessage.from m) = None
    /\ Js.match_group1 EmailOperations.bare_address (EmailMessage.from m) = None
    /\ fst (EmailOperations.replyToMessage Scenario.mailbox
              (Scenario.reply "22" "Thanks!" false) Scenario.start)
       = Resolved {| SendResult.messageId := "<sent@example.com>";
                     SendResult.success := true;
                     SendResult.message := "Reply sent successfully" |}
    /\ MailOptions.to <$>
         outgoing Scenario.mailbox (Scenario.reply "22" "Thanks!" false) Scenario.start
       = ["a@"].
Proof.
  eexists. split; [vm_compute; reflexivity|]. now vm_compute.
Qed.

(** * Further properties of the code *)

(** ** Connections and the sender *)

Lemma getThread_state E uid st :
  snd (ImapService.getThread E uid st) = connected_times 1 st
  \/ snd (ImapService.getThread E uid st) = connected_times 2 st.
Proof.
  unfold ImapService.getThread, try_catch, await.
  rewrite (getMessage_eq E uid st).
  destruct (fst (ImapService.getMessage E uid st)) as [[m|]|e]; cbn;
    [|now left..].
  destruct (length (ImapService.threadMessageIds m) =? 0)%nat; [now left|].
  cbn. destruct (Connection.connect _); [now right|].
  destruct (Connection.openBox _); [now right|].
  destruct (length (ImapService.uniqueUids _ _) =? 0)%nat; [now right|].
  destruct (Fetch.error _); now right.
Qed.

Lemma listMessages_state E count st :
  snd (ImapService.listMessages E count st) = connected_times 1 st.
Proof.
  unfold ImapService.listMessages, await, ImapService.createConnection,
    reject, resolve. cbn.
  destruct (Connection.connect _); [reflexivity|].
  destruct (Connection.openBox _) as [e|total]; [reflexivity|].
  destruct (total =? 0); [reflexivity|].
  now destruct (Fetch.error _).
Qed.

Lemma getAttachment_state E uid attachmentIndex maxSizeBytes st :
  snd (ImapService.getAttachment E uid attachmentIndex maxSizeBytes st)
  = connected_times 1 st.
Proof.
  unfold ImapService.getAttachment, await, ImapService.createConnection,
    reject, settle. cbn.
  destruct (Connection.connect _); [reflexivity|].
  now destruct (Connection.openBox _).
Qed.

(** Reading never sends: [getMessage], [listMessages], [getAttachment]
    open one connection each and [getThread] one or two, and none of them
    calls the sender. *)
Theorem reading_never_sends E uid count attachmentIndex maxSizeBytes st :
  snd (ImapService.getMessage E uid st) = connected_times 1 st
  /\ snd (ImapService.listMessages E count st) = connected_times 1 st
  /\ snd (ImapService.getAttachment E uid attachmentIndex maxSizeBytes st)
     = connected_times 1 st
  /\ (snd (ImapService.getThread E uid st) = connected_times 1 st
      \/ snd (ImapService.getThread E uid st) = connected_times 2 st)
  /\ calls (snd (ImapService.getThread E uid st)) = calls st
  /\ (fst (ImapService.getMessage E uid st) = Resolved None ->
      snd (ImapService.getThread E uid st) = connected_times 1 st).
Proof.
  split; [apply getMessage_state|]. split; [apply listMessages_state|].
  split; [apply getAttachment_state|]. split; [apply getThread_state|]. split.
  - now destruct (getThread_state E uid st) as [-> | ->].
  - intros Hnone. unfold ImapService.getThread, try_catch, await.
    rewrite (getMessage_fst E uid st _ Hnone). reflexivity.
Qed.

Lemma reading_never_sends_witness :
  snd (ImapService.getThread Scenario.mailbox "404" Scenario.start)
    = connected_times 1 Scenario.start
  /\ snd (ImapService.getThread Scenario.mailbox "19" Scenario.start)
     = connected_times 2 Scenario.start.
Proof.
  split.
  - apply (reading_never_sends Scenario.mailbox "404" 10 0 100 Scenario.start).
    reflexivity.
  - destruct (reading_never_sends Scenario.mailbox "19" 10 0 100 Scenario.start)
      as (_ & _ & _ & [H | H] & _); [|exact H].
    vm_compute in H. discriminate H.
Defined.

(** ** The thread resolver, further *)

Lemma Set_add_elem {A} `{EqDecision A} (x y : A) s :
  y ∈ Set_add x s <-> y = x \/ y ∈ s.
Proof.
  unfold Set_add. destruct (decide (x ∈ s)) as [Hin|Hnin].
  - split; [now right | intros [-> | H]; assumption].
  - rewrite elem_of_app, list_elem_of_singleton. tauto.
Qed.

Lemma Set_add_NoDup {A} `{EqDecision A} (x : A) s : NoDup s -> NoDup (Set_add x s).
Proof.
  intros Hs. unfold Set_add. destruct (decide (x ∈ s)) as [Hin|Hnin]; [exact Hs|].
  apply NoDup_app. split; [exact Hs|]. split; [|apply NoDup_singleton].
  intros y Hy ->%list_elem_of_singleton. contradiction.
Qed.

Lemma Set_add_all_elem {A} `{EqDecision A} (xs : list A) s y :
  y ∈ Set_add_all xs s <-> y ∈ xs \/ y ∈ s.
Proof.
  unfold Set_add_all. revert s. induction xs as [|x xs IH]; intros s; cbn.
  - rewrite elem_of_nil. tauto.
  - rewrite IH, Set_add_elem, elem_of_cons. tauto.
Qed.

Lemma Set_add_all_NoDup {A} `{EqDecision A} (xs : list A) s :
  NoDup s -> NoDup (Set_add_all xs s).
Proof.
  unfold Set_add_all. revert s. induction xs as [|x xs IH]; intros s Hs; cbn;
    [exact Hs|].
  apply IH. now apply Set_add_NoDup.
Qed.

Lemma truthy_ne s : Js.truthy s = true <-> s <> "".
Proof. destruct s; cbn; split; congruence. Qed.

(** The anchor tokens of a message are its Message-ID and its In-Reply-To
    when they are not empty, and all its References; no token is there
    twice. *)
Theorem threadMessageIds_are_the_headers (m : EmailMessage.t) :
  NoDup (ImapService.threadMessageIds m)
  /\ forall token,
       token ∈ ImapService.threadMessageIds m
       <-> (EmailMessage.messageId m = Some token /\ token <> "")
           \/ (EmailMessage.inReplyTo m = Some token /\ token <> "")
           \/ (exists refs, EmailMessage.references m = Some refs /\ token ∈ refs).
Proof.
  unfold ImapService.threadMessageIds.
  set (s1 := match EmailMessage.messageId m with
             | Some i => if Js.truthy i then Set_add i [] else []
             | None => []
             end).
  set (s2 := match EmailMessage.inReplyTo m with
             | Some i => if Js.truthy i then Set_add i s1 else s1
             | None => s1
             end).
  assert (H1 : NoDup s1 /\ forall token, token ∈ s1
             <-> EmailMessage.messageId m = Some token /\ token <> "").
  { subst s1. destruct (EmailMessage.messageId m) as [i|].
    - destruct (Js.truthy i) eqn:Hi.
      + split; [apply Set_add_NoDup, NoDup_nil_2|]. intros token.
        rewrite Set_add_elem, elem_of_nil. apply truthy_ne in Hi.
        split; [intros [-> | []]; now split | intros [[= ->] _]; now left].
      + split; [apply NoDup_nil_2|]. intros token. rewrite elem_of_nil.
        split; [intros [] | intros [[= ->] Hne%truthy_ne]; congruence].
    - split; [apply NoDup_nil_2|]. intros token. rewrite elem_of_nil.
      split; [intros [] | now intros [[=] _]]. }
  destruct H1 as [Hnd1 Hin1].
  assert (H2 : NoDup s2 /\ forall token, token ∈ s2
             <-> (EmailMessage.messageId m = Some token /\ token <> "")
                 \/ (EmailMessage.inReplyTo m = Some token /\ token <> "")).
  { subst s2. destruct (EmailMessage.inReplyTo m) as [i|].
    - destruct (Js.truthy i) eqn:Hi.
      + split; [now apply Set_add_NoDup|]. intros token.
        rewrite Set_add_elem, Hin1. apply truthy_ne in Hi.
        split; [intros [-> | H]; [right; now split | now left]
               | intros [H | [[= ->] _]]; [now right | now left]].
      + split; [exact Hnd1|]. intros token. rewrite Hin1.
        split; [now left | intros [H | [[= ->] Hne%truthy_ne]]; [exact H | congruence]].
    - split; [exact Hnd1|]. intros token. rewrite Hin1.
      split; [now left | intros [H | [[=] _]]; exact H]. }
  destruct H2 as [Hnd2 Hin2]. clearbody s1 s2.
  destruct (EmailMessage.references m) as [refs|].
  - split; [now apply Set_add_all_NoDup|]. intros token.
    rewrite Set_add_all_elem, Hin2. split.
    + intros [H | [H | H]]; [right; right; now exists refs | now left | now right; left].
    + intros [H | [H | (refs' & [= <-] & H)]]; [right; now left | right; now right | now left].
  - split; [exact Hnd2|]. intros token. rewrite Hin2. split.
    + intros [H | H]; [now left | now right; left].
    + intros [H | [H | (refs' & [=] & _)]]; [now left | now right].
Qed.

Lemma elem_of_concat {A} (x : A) (ls : list (list A)) :
  x ∈ concat ls <-> exists l, x ∈ l /\ l ∈ ls.
Proof.
  induction ls as [|l ls IH]; cbn.
  - rewrite elem_of_nil. split; [intros [] | intros (l & _ & H)].
    now apply elem_of_nil in H.
  - rewrite elem_of_app, IH. split.
    + intros [H | (l' & Hx & Hl')]; [exists l | exists l'];
        (split; [assumption|]); [left | now right].
    + intros (l' & Hx & [-> | Hl']%elem_of_cons); [now left | right; now exists l'].
Qed.

(** The UIDs of the second fetch are those that some search for an anchor
    token returned, each one once, also when several searches found it. *)
Theorem uniqueUids_is_the_union (c : Connection.t) (ids : list string) :
  NoDup (ImapService.uniqueUids c ids)
  /\ forall uid,
       uid ∈ ImapService.uniqueUids c ids
       <-> exists token,
             token ∈ ids
             /\ (uid ∈ ImapService.search_header c "MESSAGE-ID" token
                 \/ uid ∈ ImapService.search_header c "REFERENCES" token).
Proof.
  unfold ImapService.uniqueUids.
  split; [apply Set_add_all_NoDup, NoDup_nil_2|]. intros uid.
  rewrite Set_add_all_elem, elem_of_nil, concat_app, elem_of_app.
  rewrite !elem_of_concat. split.
  - intros [[(l & Huid & (token & -> & Htoken)%list_elem_of_fmap)
           | (l & Huid & (token & -> & Htoken)%list_elem_of_fmap)] | []];
      exists token; split; [assumption | now left | assumption | now right].
  - intros (token & Htoken & [Huid | Huid]); left; [left | right];
      eexists; (split; [exact Huid|]); apply list_elem_of_fmap; now exists token.
Qed.

(** When the target is fetched but the connection for the searches fails,
    or its box does not open, or the fetch of the found UIDs fails,
    [getThread] still resolves, with the target alone. *)
Theorem getThread_degrades_to_target E uid st m st1 :
  ImapService.getMessage E uid st = (Resolved (Some m), st1) ->
  (exists e, Connection.connect (server E (connections st1)) = Some e)
  \/ (exists e, Connection.openBox (server E (connections st1)) = inl e)
  \/ (exists e,
        Fetch.error
          (Connection.fetch (server E (connections st1))
             (pretty <$> ImapService.uniqueUids (server E (connections st1))
                           (ImapService.threadMessageIds m))) = Some e) ->
  fst (ImapService.getThread E uid st)
  = Resolved {| ThreadResult.messages := [m];
                ThreadResult.threadId := uid;
                ThreadResult.messageCount := 1 |}.
Proof.
  intros Hget Hcase.
  unfold ImapService.getThread, try_catch, await. rewrite Hget.
  destruct (length (ImapService.threadMessageIds m) =? 0)%nat; [reflexivity|].
  unfold ImapService.createConnection. cbn.
  destruct (Connection.connect _) as [e|] eqn:Hc; [reflexivity|].
  destruct (Connection.openBox _) as [e|total] eqn:Ho; [reflexivity|].
  destruct (length (ImapService.uniqueUids _ _) =? 0)%nat; [reflexivity|].
  destruct Hcase as [[e [=]] | [[e [=]] | [e He]]].
  now rewrite He.
Qed.

Lemma getThread_degrades_to_target_witness :
  exists m,
    fst (ImapService.getMessage Further.searches_unreachable "19" Scenario.start)
      = Resolved (Some m)
    /\ ImapService.threadMessageIds m <> []
    /\ fst (ImapService.getThread Further.searches_unreachable "19" Scenario.start)
       = Resolved {| ThreadResult.messages := [m];
                     ThreadResult.threadId := "19";
                     ThreadResult.messageCount := 1 |}.
Proof.
  destruct (ImapService.getMessage Further.searches_unreachable "19" Scenario.start)
    as [[[m|]|e] st1] eqn:Hget; try (vm_compute in Hget; discriminate Hget).
  exists m. split; [reflexivity|].
  assert (Hm : ImapService.threadMessageIds m = ["<m19@x>"; "<m18@x>"; "<m17@x>"]
               /\ st1 = connected Scenario.start).
  { vm_compute in Hget. now injection Hget as <- <-. }
  destruct Hm as [Hm ->]. split; [now rewrite Hm|].
  eapply getThread_degrades_to_target; [exact Hget|].
  left. now exists "connect ECONNREFUSED".
Defined.

(** Every thread result names the requested ID, counts its messages, and
    holds only messages that carry that ID as their thread and have a body
    (an empty one when the mail has no text). *)
Theorem getThread_result_shape E uid st r st' :
  ImapService.getThread E uid st = (Resolved r, st') ->
  ThreadResult.threadId r = uid
  /\ ThreadResult.messageCount r = Z.of_nat (length (ThreadResult.messages r))
  /\ Forall (fun m => EmailMessage.threadId m = uid
                      /\ EmailMessage.labels m = ["INBOX"]
                      /\ exists body, EmailMessage.body m = Some body)
       (ThreadResult.messages r).
Proof.
  intros Hthread.
  apply getThread_cases in Hthread as (Hid & Hcount & Hcases).
  split; [exact Hid|]. split; [exact Hcount|].
  destruct Hcases as [[_ ->] | [(m & Hget & ->) | (m0 & _ & ->)]].
  - constructor.
  - apply getMessage_fst, getMessage_message in Hget as (fm & parsed & ->).
    repeat constructor. now eexists.
  - apply Forall_forall. intros m Hm.
    rewrite <- (Array_sort_Permutation ImapService.oldest_first) in Hm.
    unfold ImapService.thread_messages in Hm.
    apply list_elem_of_omap in Hm as (fm & _ & Hfm).
    unfold ImapService.getThread_on_message in Hfm.
    destruct (simpleParser E _); [discriminate|].
    destruct (Fetched.attrs fm); [|discriminate].
    injection Hfm as <-. repeat split. now eexists.
Qed.

Lemma getThread_result_shape_witness :
  exists r,
    fst (ImapService.getThread Scenario.mailbox "19" Scenario.start) = Resolved r
    /\ ThreadResult.messageCount r = 3
    /\ Forall (fun m => EmailMessage.threadId m = "19") (ThreadResult.messages r).
Proof.
  destruct (ImapService.getThread Scenario.mailbox "19" Scenario.start)
    as [[r|e] st'] eqn:Hthread; [|vm_compute in Hthread; discriminate Hthread].
  destruct (getThread_result_shape _ _ _ _ _ Hthread) as (_ & Hcount & Hall).
  exists r. split; [reflexivity|]. split.
  - rewrite Hcount. vm_compute in Hthread. now injection Hthread as <- _.
  - eapply Forall_impl; [exact Hall|]. now intros m [H _].
Defined.

(** ** Messages and their attachments *)

Lemma take_is_prefix n s :
  (exists rest, s = Js.take n s +:+ rest)
  /\ String.length (Js.take n s) = Nat.min n (String.length s).
Proof.
  unfold Js.take. revert s. induction n as [|n IH]; intros s.
  - destruct s; (split; [eexists; reflexivity | reflexivity]).
  - destruct s as [|a s]; [split; [now exists "" | reflexivity]|].
    destruct (IH s) as [[rest Hrest] Hlen]. cbn. split.
    + exists rest. now rewrite <- Hrest.
    + now rewrite Hlen.
Qed.

Lemma or_else_not_empty o d : d <> "" -> Js.or_else o d <> "".
Proof.
  intros Hd. unfold Js.or_else. destruct o as [s|]; [|exact Hd].
  destruct (Js.truthy s) eqn:Hs; [now apply truthy_ne | exact Hd].
Qed.

Lemma pretty_Z_of_nat (n : nat) : pretty (Z.of_nat n) = pretty n.
Proof. destruct n; reflexivity. Qed.

(** A message of [getMessage] has the requested ID, a body, as snippet
    the first 200 characters of the body, and one descriptor for each
    attachment that the parser found in the fetched mail, in their order:
    the descriptor at position [i] has index [i], the size of the
    attachment, its file name ([attachment_i] when it has none or an empty
    one) and its content type ([application/octet-stream] when that is
    empty). *)
Theorem getMessage_result_shape E uid st m st' :
  ImapService.getMessage E uid st = (Resolved (Some m), st') ->
  EmailMessage.id m = uid /\ EmailMessage.threadId m = uid
  /\ (exists body rest,
        EmailMessage.body m = Some body
        /\ body = EmailMessage.snippet m +:+ rest
        /\ String.length (EmailMessage.snippet m)
           = Nat.min 200 (String.length body))
  /\ (exists fm parsed attachments descriptors,
        fm ∈ Fetch.msgs (Connection.fetch (server E (connections st)) [uid])
        /\ simpleParser E (Fetched.raw fm) = inr parsed
        /\ (ParsedMail.attachments parsed = Some attachments
            \/ (ParsedMail.attachments parsed = None /\ attachments = []))
        /\ EmailMessage.attachments m = Some descriptors
        /\ length descriptors = length attachments
        /\ forall i att,
             attachments !! i = Some att ->
             exists info,
               descriptors !! i = Some info
               /\ AttachmentInfo.index info = Z.of_nat i
               /\ AttachmentInfo.size info = Attachment.size att
               /\ (forall name, Attachment.filename att = Some name -> name <> "" ->
                                AttachmentInfo.filename info = name)
               /\ (Attachment.filename att = None \/ Attachment.filename att = Some "" ->
                   AttachmentInfo.filename info = "attachment_" +:+ pretty i)
               /\ (Attachment.contentType att <> "" ->
                   AttachmentInfo.contentType info = Attachment.contentType att)
               /\ (Attachment.contentType att = "" ->
                   AttachmentInfo.contentType info = "application/octet-stream")).
Proof.
  intros (fm & parsed & Hfm & Hparsed & ->)%getMessage_source.
  unfold ImapService.message_of_parsed.
  cbn [EmailMessage.id EmailMessage.threadId EmailMessage.body
       EmailMessage.snippet EmailMessage.attachments].
  split; [reflexivity|]. split; [reflexivity|]. split.
  - destruct (take_is_prefix 200 (Js.or_else (ParsedMail.text parsed) ""))
      as [[rest Hrest] Hlen].
    eexists; exists rest. split; [reflexivity|]. now split.
  - exists fm, parsed, (default [] (ParsedMail.attachments parsed)).
    eexists. split; [exact Hfm|]. split; [exact Hparsed|]. split.
    { destruct (ParsedMail.attachments parsed); [now left | now right]. }
    split; [reflexivity|]. split.
    { unfold ImapService.attachment_infos. apply length_imap. }
    intros i att Hatt.
    unfold ImapService.attachment_infos. rewrite list_lookup_imap, Hatt.
    eexists. split; [reflexivity|].
    cbn [AttachmentInfo.index AttachmentInfo.filename AttachmentInfo.contentType
         AttachmentInfo.size].
    split; [reflexivity|]. split; [reflexivity|]. repeat split.
    + intros name -> Hname. cbn. now destruct name.
    + now intros [-> | ->].
    + intros Hct. cbn. now destruct (Attachment.contentType att).
    + now intros ->.
Qed.

Lemma getMessage_result_shape_witness :
  exists m,
    fst (ImapService.getMessage Scenario.mailbox "19" Scenario.start) = Resolved (Some m)
    /\ EmailMessage.id m = "19"
    /\ EmailMessage.attachments m
       = Some [ {| AttachmentInfo.index := 0;
                   AttachmentInfo.filename := "report.pdf";
                   AttachmentInfo.contentType := "application/pdf";
                   AttachmentInfo.size := 2048 |} ].
Proof.
  destruct (ImapService.getMessage Scenario.mailbox "19" Scenario.start)
    as [[[m|]|e] st'] eqn:Hget; try (vm_compute in Hget; discriminate Hget).
  destruct (getMessage_result_shape _ _ _ _ _ Hget) as (Hid & _).
  exists m. split; [reflexivity|]. split; [exact Hid|].
  vm_compute in Hget. now injection Hget as <- _.
Defined.

(** *** The index of an attachment *)

Lemma Qred_inject_Z (z : Z) : Qred (inject_Z z) = inject_Z z.
Proof.
  unfold Qred, inject_Z.
  pose proof (Z.ggcd_gcd z 1) as Hgcd.
  pose proof (Z.ggcd_correct_divisors z 1) as Hdiv.
  destruct (Z.ggcd z 1) as [g [aa bb]]. cbn [fst snd] in *.
  rewrite Z.gcd_1_r in Hgcd. subst g. destruct Hdiv as [Ha Hb].
  rewrite Z.mul_1_l in Ha, Hb. now subst aa bb.
Qed.

Lemma array_index_position (x : Q) (n : nat) :
  (x == inject_Z (Z.of_nat n))%Q -> Js.array_index x = Some n.
Proof.
  intros Hx. unfold Js.array_index.
  rewrite (Qred_complete _ _ Hx), Qred_inject_Z. cbn.
  destruct (Z.leb_spec 0 (Z.of_nat n)); [|lia]. now rewrite Nat2Z.id.
Qed.

Lemma array_index_Some (x : Q) (n : nat) :
  Js.array_index x = Some n -> (x == inject_Z (Z.of_nat n))%Q.
Proof.
  unfold Js.array_index. intros H.
  destruct (Pos.eqb_spec (Qden (Qred x)) 1) as [Hden|]; [|discriminate].
  destruct (Z.leb_spec 0 (Qnum (Qred x))) as [Hnum|]; [|discriminate].
  injection H as <-. rewrite Z2Nat.id by exact Hnum.
  rewrite <- (Qred_correct x) at 1.
  destruct (Qred x) as [num den]. cbn in *. now subst den.
Qed.

Lemma number_text_position decimal (x : Q) (n : nat) :
  (x == inject_Z (Z.of_nat n))%Q -> Js.number_text decimal x = pretty n.
Proof.
  intros Hx. unfold Js.number_text.
  rewrite (Qred_complete _ _ Hx), Qred_inject_Z. cbn. apply pretty_Z_of_nat.
Qed.

(** [getAttachment] agrees with the descriptors of [getMessage].  When
    both fetch the same mail: for a mail without descriptor, and for an
    index at or past the number of descriptors, the result is [null]; for
    an index that is the position of a descriptor, it is the content with
    the file name, content type and size of the descriptor, or the
    size-limit rejection when that size is over the limit; and for an
    index below the number of descriptors that is no position (a negative
    number, or a number that is not an integer) it is the rejection of a
    failed parse. *)
Theorem getAttachment_matches_descriptor E uid (index maxSizeBytes : Q) st st2 fm
    parsed total total2 :
  Connection.connect (server E (connections st)) = None ->
  Connection.openBox (server E (connections st)) = inr total ->
  Connection.connect (server E (connections st2)) = None ->
  Connection.openBox (server E (connections st2)) = inr total2 ->
  Connection.fetch (server E (connections st)) [uid]
    = {| Fetch.msgs := [fm]; Fetch.error := None |} ->
  Connection.fetch (server E (connections st2)) [uid]
    = {| Fetch.msgs := [fm]; Fetch.error := None |} ->
  simpleParser E (Fetched.raw fm) = inr parsed ->
  exists m descriptors,
    fst (ImapService.getMessage E uid st) = Resolved (Some m)
    /\ EmailMessage.attachments m = Some descriptors
    /\ (descriptors = []
        \/ (inject_Z (Z.of_nat (length descriptors)) <= index)%Q ->
        fst (ImapService.getAttachment E uid index maxSizeBytes st2) = Resolved None)
    /\ (forall n info,
          (index == inject_Z (Z.of_nat n))%Q ->
          descriptors !! n = Some info ->
          ((inject_Z (AttachmentInfo.size info) <= maxSizeBytes)%Q ->
           exists content,
             fst (ImapService.getAttachment E uid index maxSizeBytes st2)
             = Resolved (Some content)
             /\ AttachmentContent.filename content = AttachmentInfo.filename info
             /\ AttachmentContent.contentType content = AttachmentInfo.contentType info
             /\ AttachmentContent.size content = AttachmentInfo.size info)
          /\ ((maxSizeBytes < inject_Z (AttachmentInfo.size info))%Q ->
              fst (ImapService.getAttachment E uid index maxSizeBytes st2)
              = Rejected (ImapService.size_limit_message E
                            (AttachmentInfo.size info) maxSizeBytes)))
    /\ (descriptors <> [] ->
        (index < inject_Z (Z.of_nat (length descriptors)))%Q ->
        (forall n : nat, ~ (index == inject_Z (Z.of_nat n))%Q) ->
        fst (ImapService.getAttachment E uid index maxSizeBytes st2)
        = Rejected ("Failed to parse attachment: " +:+
                    "Cannot read properties of undefined (reading 'size')")).
Proof.
  intros Hc Ho Hc2 Ho2 Hf Hf2 Hparsed.
  rewrite (getMessage_ready E uid st total Hc Ho), Hf.
  rewrite (getAttachment_ready E uid index maxSizeBytes st2 total2 Hc2 Ho2), Hf2.
  rewrite !first_settlement_one with (fm := fm) by reflexivity.
  unfold ImapService.getMessage_on_message, ImapService.getAttachment_on_message.
  rewrite Hparsed. cbn [fst].
  eexists; eexists. split; [reflexivity|]. split; [reflexivity|].
  set (attachments := default [] (ParsedMail.attachments parsed)).
  assert (Hlen : length (ImapService.attachment_infos attachments) = length attachments)
    by apply length_imap.
  rewrite Hlen. split; [|split].
  - intros [Hnil | Hpast].
    + rewrite Hnil in Hlen. cbn in Hlen. now rewrite <- Hlen.
    + destruct (length attachments =? 0)%nat; [reflexivity|].
      apply Qle_bool_iff in Hpast. now rewrite Hpast.
  - intros n info Hn Hinfo.
    unfold ImapService.attachment_infos in Hinfo. rewrite list_lookup_imap in Hinfo.
    destruct (attachments !! n) as [att|] eqn:Hatt; [|discriminate Hinfo].
    injection Hinfo as <-.
    assert (Hlt : (n < length attachments)%nat) by (eapply lookup_lt_Some; eauto).
    destruct (Nat.eqb_spec (length attachments) 0) as [|_]; [lia|].
    assert (Hbelow : Qle_bool (inject_Z (Z.of_nat (length attachments))) index = false).
    { destruct (Qle_bool _ index) eqn:Hle; [|reflexivity].
      apply Qle_bool_iff in Hle. rewrite Hn in Hle.
      rewrite <- Zle_Qle in Hle. lia. }
    rewrite Hbelow. unfold ImapService.array_get.
    rewrite (array_index_position index n Hn), Hatt.
    cbn [AttachmentInfo.size AttachmentInfo.filename AttachmentInfo.contentType].
    split.
    + intros Hfits%Qle_bool_iff. rewrite Hfits. cbn [negb].
      eexists. split; [reflexivity|].
      cbn [AttachmentContent.filename AttachmentContent.contentType
           AttachmentContent.size].
      now rewrite (number_text_position _ index n Hn).
    + intros Hover.
      destruct (Qle_bool (inject_Z (Attachment.size att)) maxSizeBytes) eqn:Hfits;
        [|reflexivity].
      apply Qle_bool_iff in Hfits. now apply Qlt_not_le in Hover.
  - intros Hsome Hbelow Hposition.
    destruct (Nat.eqb_spec (length attachments) 0) as [Hzero|_].
    { destruct Hsome. apply length_zero_iff_nil. now rewrite Hlen. }
    destruct (Qle_bool _ index) eqn:Hle.
    { apply Qle_bool_iff in Hle. now apply Qlt_not_le in Hbelow. }
    unfold ImapService.array_get.
    destruct (Js.array_index index) as [n|] eqn:Hindex; [|reflexivity].
    apply array_index_Some in Hindex. now destruct (Hposition n).
Qed.

Lemma getAttachment_matches_descriptor_witness :
  (exists content,
     fst (ImapService.getAttachment Scenario.mailbox "19" 0 4096 Scenario.start)
       = Resolved (Some content)
     /\ AttachmentContent.filename content = "report.pdf"
     /\ AttachmentContent.size content = 2048)
  /\ fst (ImapService.getAttachment Scenario.mailbox "19" (1 # 2) 4096 Scenario.start)
     = Rejected ("Failed to parse attachment: " +:+
                 "Cannot read properties of undefined (reading 'size')")
  /\ fst (ImapService.getAttachment Scenario.mailbox "19" (-1) 4096 Scenario.start)
     = Rejected ("Failed to parse attachment: " +:+
                 "Cannot read properties of undefined (reading 'size')").
Proof.
  assert (Hagree : forall index,
    exists m descriptors,
      fst (ImapService.getMessage Scenario.mailbox "19" Scenario.start)
        = Resolved (Some m)
      /\ EmailMessage.attachments m = Some descriptors
      /\ (descriptors = []
          \/ (inject_Z (Z.of_nat (length descriptors)) <= index)%Q ->
          fst (ImapService.getAttachment Scenario.mailbox "19" index 4096
                 Scenario.start) = Resolved None)
      /\ (forall n info,
            (index == inject_Z (Z.of_nat n))%Q ->
            descriptors !! n = Some info ->
            ((inject_Z (AttachmentInfo.size info) <= 4096)%Q ->
             exists content,
               fst (ImapService.getAttachment Scenario.mailbox "19" index 4096
                      Scenario.start) = Resolved (Some content)
               /\ AttachmentContent.filename content = AttachmentInfo.filename info
               /\ AttachmentContent.contentType content
                  = AttachmentInfo.contentType info
               /\ AttachmentContent.size content = AttachmentInfo.size info)
            /\ ((4096 < inject_Z (AttachmentInfo.size info))%Q ->
                fst (ImapService.getAttachment Scenario.mailbox "19" index 4096
                       Scenario.start)
                = Rejected (ImapService.size_limit_message Scenario.mailbox
                              (AttachmentInfo.size info) 4096)))
      /\ (descriptors <> [] ->
          (index < inject_Z (Z.of_nat (length descriptors)))%Q ->
          (forall n : nat, ~ (index == inject_Z (Z.of_nat n))%Q) ->
          fst (ImapService.getAttachment Scenario.mailbox "19" index 4096
                 Scenario.start)
          = Rejected ("Failed to parse attachment: " +:+
                      "Cannot read properties of undefined (reading 'size')"))).
  { intros index.
    exact (getAttachment_matches_descriptor Scenario.mailbox "19" index 4096
             Scenario.start Scenario.start (Scenario.arrived "raw19" 19)
             (Scenario.mail "Meeting" "Jane Doe <jane@example.com>" 2000
                ("line1" +:+ Js.nl +:+ "line2")
                (Some "<m19@x>") (Some "<m18@x>")
                (Some (Many ["<m17@x>"; "<m18@x>"]))
                (Some [Scenario.report_pdf]))
             2 2 eq_refl eq_refl eq_refl eq_refl eq_refl eq_refl eq_refl). }
  split; [|split].
  - destruct (Hagree 0%Q) as (m & descriptors & Hget & Hd & _ & Hat & _).
    vm_compute in Hget. injection Hget as <-. injection Hd as <-.
    destruct (Hat 0%nat _ ltac:(reflexivity) eq_refl) as [Hfits _].
    destruct Hfits as (content & Hcontent & Hname & _ & Hsize); [cbn; discriminate|].
    exists content. now repeat split.
  - destruct (Hagree (1 # 2)%Q) as (m & descriptors & Hget & Hd & _ & _ & Hno).
    vm_compute in Hget. injection Hget as <-. injection Hd as <-.
    apply Hno; [discriminate | reflexivity |].
    intros n Hn. unfold Qeq in Hn. cbn in Hn. lia.
  - destruct (Hagree (-1)%Q) as (m & descriptors & Hget & Hd & _ & _ & Hno).
    vm_compute in Hget. injection Hget as <-. injection Hd as <-.
    apply Hno; [discriminate | reflexivity |].
    intros n Hn. unfold Qeq in Hn. cbn in Hn. lia.
Defined.

(** ** parseHeaders *)

Lemma lower_char_idempotent c : Js.lower_char (Js.lower_char c) = Js.lower_char c.
Proof. destruct c as [[] [] [] [] [] [] [] []]; reflexivity. Qed.

Lemma toLowerCase_idempotent s : Js.toLowerCase (Js.toLowerCase s) = Js.toLowerCase s.
Proof.
  induction s as [|a s IH]; [reflexivity|]. cbn.
  now rewrite lower_char_idempotent, IH.
Qed.

Lemma toLowerCase_not_empty s : s <> "" -> Js.toLowerCase s <> "".
Proof. now destruct s. Qed.

Lemma lowercase_keys_save (headers : gmap string string) currentKey currentValue :
  lowercase_keys headers ->
  lowercase_keys
    (if Js.truthy currentKey
     then <[Js.toLowerCase currentKey := currentValue]> headers
     else headers).
Proof.
  intros Hinv. destruct (Js.truthy currentKey) eqn:Hk; [|exact Hinv].
  intros k v [[<- _] | [_ H]]%lookup_insert_Some; [|exact (Hinv k v H)].
  split; [apply toLowerCase_idempotent|].
  now apply toLowerCase_not_empty, truthy_ne.
Qed.

Lemma parseHeaders_line_keys st line :
  lowercase_keys (fst (fst st)) ->
  lowercase_keys (fst (fst (ImapService.parseHeaders_line st line))).
Proof.
  destruct st as [[headers currentKey] currentValue].
  unfold ImapService.parseHeaders_line. cbn [fst].
  destruct (_ || _); [trivial|].
  destruct (Js.indexOf ":" line); [|trivial].
  cbn [fst]. apply lowercase_keys_save.
Qed.

(** Whatever the header text, every key of the result of [parseHeaders]
    is a lower-case name that is not empty: a header is found under the
    lower-case form of its name, and under no other spelling. *)
Theorem parseHeaders_keys_are_lowercase headerStr k v :
  ImapService.parseHeaders headerStr !! k = Some v ->
  Js.toLowerCase k = k /\ k <> "".
Proof.
  unfold ImapService.parseHeaders.
  assert (Hfold : forall lines st,
            lowercase_keys (fst (fst st)) ->
            lowercase_keys (fst (fst (fold_left ImapService.parseHeaders_line lines st)))).
  { induction lines as [|line lines IH]; intros st Hst; [exact Hst|].
    cbn. apply IH. now apply parseHeaders_line_keys. }
  specialize (Hfold (Js.split_lines headerStr) (∅, "", "")).
  destruct (fold_left _ _ _) as [[headers currentKey] currentValue].
  cbn [fst] in Hfold.
  apply (lowercase_keys_save headers currentKey currentValue).
  apply Hfold. intros k' v' H. now rewrite lookup_empty in H.
Qed.

Lemma parseHeaders_keys_are_lowercase_witness :
  ImapService.parseHeaders ("Message-ID: <m18@x>" +:+ CRLF) !! "message-id"
    = Some "<m18@x>"
  /\ ImapService.parseHeaders ("Message-ID: <m18@x>" +:+ CRLF) !! "Message-ID" = None
  /\ Js.toLowerCase "message-id" = "message-id".
Proof.
  split; [now vm_compute|]. split; [now vm_compute|].
  apply (parseHeaders_keys_are_lowercase ("Message-ID: <m18@x>" +:+ CRLF)
           "message-id" "<m18@x>").
  now vm_compute.
Defined.

Lemma split_lines_plain a s :
  Ascii.eqb a Js.LF = false -> Ascii.eqb a Js.CR = false ->
  Js.split_lines (String a s) = Js.cons_head a (Js.split_lines s).
Proof.
  intros Hlf Hcr. destruct s as [|b s].
  - change (Js.split_lines (String a ""))
      with (if Ascii.eqb a Js.LF then "" :: Js.split_lines ""
            else Js.cons_head a (Js.split_lines "")).
    now rewrite Hlf.
  - change (Js.split_lines (String a (String b s)))
      with (if Ascii.eqb a Js.LF then "" :: Js.split_lines (String b s)
            else if Ascii.eqb a Js.CR && Ascii.eqb b Js.LF
                 then "" :: Js.split_lines s
                 else Js.cons_head a (Js.split_lines (String b s))).
    now rewrite Hlf, Hcr.
Qed.

Lemma split_lines_line line rest :
  all_in line_char line = true ->
  Js.split_lines (line +:+ CRLF +:+ rest) = line :: Js.split_lines rest.
Proof.
  induction line as [|a line IH]; [reflexivity|].
  cbn [all_in]. unfold line_char at 1.
  intros [[Hcr Hlf]%andb_true_iff Hline]%andb_true_iff.
  apply negb_true_iff in Hcr, Hlf.
  change (String a line +:+ CRLF +:+ rest) with (String a (line +:+ CRLF +:+ rest)).
  rewrite (split_lines_plain _ _ Hlf Hcr), (IH Hline). reflexivity.
Qed.

Lemma split_lines_text lines :
  Forall (fun line => all_in line_char line = true) lines ->
  Js.split_lines (lines_text lines) = lines ++ [""].
Proof.
  induction 1 as [|line lines Hline _ IH]; [reflexivity|].
  cbn [lines_text]. now rewrite (split_lines_line _ _ Hline), IH.
Qed.

Lemma name_char_line_char c : name_char c = true -> line_char c = true.
Proof.
  unfold name_char, line_char. intros [Hs _]%andb_true_iff.
  apply negb_true_iff in Hs.
  destruct (Ascii.eqb_spec c Js.CR) as [->|]; [discriminate Hs|].
  destruct (Ascii.eqb_spec c Js.LF) as [->|]; [discriminate Hs | reflexivity].
Qed.

Lemma all_in_impl (P Q : ascii -> bool) s :
  (forall c, P c = true -> Q c = true) -> all_in P s = true -> all_in Q s = true.
Proof.
  intros HPQ. induction s as [|a s IH]; [reflexivity|]. cbn.
  intros [Ha Hs]%andb_true_iff. now rewrite (HPQ a Ha), (IH Hs).
Qed.

Lemma all_in_append P s t :
  all_in P (s +:+ t) = all_in P s && all_in P t.
Proof.
  induction s as [|a s IH]; [reflexivity|]. cbn. now rewrite IH, andb_assoc.
Qed.

Lemma trimEnd_no_space s :
  all_in (fun c => negb (Js.is_space c)) s = true -> Js.trimEnd s = s.
Proof.
  induction s as [|a s IH]; [reflexivity|]. cbn.
  intros [Ha Hs]%andb_true_iff. rewrite (IH Hs).
  apply negb_true_iff in Ha. rewrite Ha. now destruct s.
Qed.

Lemma trim_no_space s :
  all_in (fun c => negb (Js.is_space c)) s = true -> Js.trim s = s.
Proof.
  intros Hs. unfold Js.trim.
  assert (Hstart : Js.trimStart s = s).
  { destruct s as [|a s]; [reflexivity|]. cbn in Hs |- *.
    apply andb_true_iff in Hs as [Ha _]. apply negb_true_iff in Ha. now rewrite Ha. }
  rewrite Hstart. now apply trimEnd_no_space.
Qed.

Lemma indexOf_append c name rest :
  all_in (fun a => negb (Ascii.eqb a c)) name = true ->
  Js.indexOf c (name +:+ String c rest) = Some (String.length name).
Proof.
  induction name as [|a name IH]; cbn.
  - now rewrite Ascii.eqb_refl.
  - intros [Ha Hn]%andb_true_iff. apply negb_true_iff in Ha.
    now rewrite Ha, (IH Hn).
Qed.

Lemma drop_append_cons name c rest :
  Js.drop (S (String.length name)) (name +:+ String c rest) = rest.
Proof. induction name as [|a name IH]; [reflexivity | exact IH]. Qed.

Lemma not_continuation a rest :
  Js.is_space a = false ->
  Js.startsWith " " (String a rest) || Js.startsWith (String Js.TAB "") (String a rest)
  = false.
Proof.
  intros Ha. unfold Js.startsWith. cbn [String.prefix].
  destruct (ascii_dec " " a) as [<-|]; [discriminate Ha|].
  destruct (ascii_dec Js.TAB a) as [<-|]; [discriminate Ha | reflexivity].
Qed.

Lemma parseHeaders_eq headerStr :
  ImapService.parseHeaders headerStr
  = save (fold_left ImapService.parseHeaders_line (Js.split_lines headerStr) (∅, "", "")).
Proof.
  unfold ImapService.parseHeaders, save.
  now destruct (fold_left _ _ _) as [[headers currentKey] currentValue].
Qed.

(** The line [name:value] ends the header before it and starts one. *)
Lemma parseHeaders_line_header st name value :
  name <> "" -> all_in name_char name = true ->
  ImapService.parseHeaders_line st (name +:+ ":" +:+ value)
  = (save st, name, Js.trim value).
Proof.
  intros Hne Hname. destruct st as [[headers currentKey] currentValue].
  unfold ImapService.parseHeaders_line.
  destruct name as [|a name]; [contradiction|].
  assert (Ha : Js.is_space a = false).
  { cbn in Hname. apply andb_true_iff in Hname as [Ha _].
    unfold name_char in Ha. apply andb_true_iff in Ha as [Ha _].
    now apply negb_true_iff in Ha. }
  change (String a name +:+ ":" +:+ value) with (String a (name +:+ ":" +:+ value)).
  rewrite (not_continuation _ _ Ha).
  change (String a (name +:+ ":" +:+ value))
    with (String a name +:+ String ":" value).
  rewrite indexOf_append
    by (eapply all_in_impl; [|exact Hname]; unfold name_char;
        now intros c [_ ?]%andb_true_iff).
  unfold Js.take. rewrite (substring_prefix (String a name) (String ":" value)).
  rewrite drop_append_cons.
  rewrite (trim_no_space (String a name))
    by (eapply all_in_impl; [|exact Hname]; unfold name_char;
        now intros c [? _]%andb_true_iff).
  reflexivity.
Qed.

(** A line that starts with a space continues the header before it. *)
Lemma parseHeaders_line_continuation headers currentKey currentValue w :
  ImapService.parseHeaders_line (headers, currentKey, currentValue) (" " +:+ w)
  = (headers, currentKey, currentValue +:+ " " +:+ Js.trim w).
Proof.
  unfold ImapService.parseHeaders_line.
  assert (Hstart : Js.startsWith " " (" " +:+ w) = true)
    by (apply startsWith_spec; now exists w).
  rewrite Hstart. reflexivity.
Qed.

Lemma fold_continuations headers currentKey currentValue more :
  fold_left ImapService.parseHeaders_line ((fun w => " " +:+ w) <$> more)
    (headers, currentKey, currentValue)
  = (headers, currentKey,
     fold_left (fun acc w => acc +:+ " " +:+ Js.trim w) more currentValue).
Proof.
  revert currentValue. induction more as [|w more IH]; intros currentValue;
    [reflexivity|].
  cbn [fmap list_fmap fold_left]. rewrite parseHeaders_line_continuation. apply IH.
Qed.

Lemma fold_header st h :
  header_ok h ->
  fold_left ImapService.parseHeaders_line (header_lines h) st
  = (save st, header_name h, folded_value h).
Proof.
  destruct h as [[name value] more]. intros (Hne & Hname & _ & _).
  cbn [header_lines fold_left].
  rewrite (parseHeaders_line_header st name value Hne Hname).
  apply fold_continuations.
Qed.

Lemma fold_headers hs st :
  Forall header_ok hs ->
  save (fold_left ImapService.parseHeaders_line (concat (header_lines <$> hs)) st)
  = stored_headers hs (save st).
Proof.
  intros Hok. revert st. induction Hok as [|h hs Hh _ IH]; intros st; [reflexivity|].
  cbn [fmap list_fmap concat]. rewrite fold_left_app, (fold_header st h Hh), IH.
  cbn [stored_headers fold_left]. f_equal.
  destruct h as [[name value] more]. destruct Hh as (Hne & _).
  unfold save, header_name. cbn [fst].
  now destruct name.
Qed.

Lemma header_lines_ok h :
  header_ok h -> Forall (fun line => all_in line_char line = true) (header_lines h).
Proof.
  destruct h as [[name value] more]. intros (_ & Hname & Hvalue & Hmore).
  cbn [header_lines]. constructor.
  - rewrite !all_in_append, Hvalue.
    rewrite (all_in_impl _ _ name name_char_line_char Hname). reflexivity.
  - apply Forall_fmap. eapply Forall_impl; [exact Hmore|].
    intros w Hw. cbn. exact Hw.
Qed.

Lemma parseHeaders_block hs :
  Forall header_ok hs ->
  ImapService.parseHeaders (header_block hs) = stored_headers hs ∅.
Proof.
  intros Hok. rewrite parseHeaders_eq. unfold header_block.
  rewrite split_lines_text.
  - rewrite fold_left_app. cbn [fold_left].
    set (st := fold_left _ _ _).
    assert (Hlast : ImapService.parseHeaders_line st "" = st)
      by now destruct st as [[? ?] ?].
    rewrite Hlast. subst st. now rewrite (fold_headers hs _ Hok).
  - apply Forall_concat, Forall_fmap.
    eapply Forall_impl; [exact Hok|]. apply header_lines_ok.
Qed.

Lemma stored_headers_app hs1 hs2 m :
  stored_headers (hs1 ++ hs2) m = stored_headers hs2 (stored_headers hs1 m).
Proof. apply fold_left_app. Qed.

Lemma stored_headers_other hs m k :
  Forall (fun h => Js.toLowerCase (header_name h) <> k) hs ->
  stored_headers hs m !! k = m !! k.
Proof.
  intros Hhs. revert m. induction Hhs as [|h hs Hh _ IH]; intros m; [reflexivity|].
  cbn [stored_headers fold_left]. fold (stored_headers hs).
  rewrite IH. now apply lookup_insert_ne.
Qed.

(** In a block of well-formed headers, a header is found under the
    lower-case form of its name, with the value of its last occurrence:
    the text after the colon and the continuation lines, each trimmed,
    with one space between them.  A name the block does not have is not
    stored.  The name [__proto__] is left out: an assignment to it does
    not store a property in a JavaScript object. *)
Theorem parseHeaders_keeps_last_occurrence hs1 h hs2 :
  Forall header_ok (hs1 ++ h :: hs2) ->
  Js.toLowerCase (header_name h) <> "__proto__" ->
  Forall (fun h' => Js.toLowerCase (header_name h') <> Js.toLowerCase (header_name h))
    hs2 ->
  ImapService.parseHeaders (header_block (hs1 ++ h :: hs2))
    !! Js.toLowerCase (header_name h) = Some (folded_value h)
  /\ forall k,
       Forall (fun h' => Js.toLowerCase (header_name h') <> k) (hs1 ++ h :: hs2) ->
       ImapService.parseHeaders (header_block (hs1 ++ h :: hs2)) !! k = None.
Proof.
  intros Hok _ Hlast. rewrite (parseHeaders_block _ Hok). split.
  - rewrite stored_headers_app. cbn [stored_headers fold_left].
    fold (stored_headers hs2).
    rewrite (stored_headers_other hs2 _ _ Hlast). apply lookup_insert_eq.
  - intros k Hk. now rewrite (stored_headers_other _ _ _ Hk), lookup_empty.
Qed.

Lemma parseHeaders_keeps_last_occurrence_witness :
  let block :=
    header_block [("Subject", " First", []);
                  ("References", " <a@x>", ["<b@x>"; "  <c@x> "]);
                  ("SUBJECT", " Second ", [])] in
  ImapService.parseHeaders block !! "subject" = Some "Second"
  /\ ImapService.parseHeaders block !! "references" = Some "<a@x> <b@x> <c@x>"
  /\ ImapService.parseHeaders block !! "cc" = None.
Proof.
  cbv zeta.
  assert (Hok : Forall header_ok
            ([("Subject", " First", []);
              ("References", " <a@x>", ["<b@x>"; "  <c@x> "])]
               ++ ("SUBJECT", " Second ", []) :: [])).
  { repeat constructor; discriminate. }
  assert (Hname : Js.toLowerCase (header_name ("SUBJECT", " Second ", []))
                  <> "__proto__") by discriminate.
  destruct (parseHeaders_keeps_last_occurrence _ _ _ Hok Hname (Forall_nil_2 _))
    as [Hlast Hnone].
  split; [exact Hlast|]. split; [now vm_compute|].
  apply Hnone. repeat constructor; discriminate.
Defined.

(** A line without colon that does not start with a space or a tab is
    ignored: the block with the line and the block without it give the
    same headers. *)
Theorem parseHeaders_ignores_line_without_colon before line after :
  Forall (fun l => all_in line_char l = true) (before ++ line :: after) ->
  Js.indexOf ":" line = None ->
  Js.startsWith " " line = false ->
  Js.startsWith (String Js.TAB "") line = false ->
  ImapService.parseHeaders (lines_text (before ++ line :: after))
  = ImapService.parseHeaders (lines_text (before ++ after)).
Proof.
  intros Hlines Hcolon Hspace Htab.
  assert (Hlines' : Forall (fun l => all_in line_char l = true) (before ++ after)).
  { apply Forall_app in Hlines as [Hb Ha]. apply Forall_app. split; [exact Hb|].
    now inversion Ha. }
  rewrite !parseHeaders_eq, (split_lines_text _ Hlines), (split_lines_text _ Hlines').
  rewrite <- !app_assoc, !fold_left_app. cbn [app fold_left].
  set (st := fold_left ImapService.parseHeaders_line before _).
  assert (Hskip : ImapService.parseHeaders_line st line = st).
  { destruct st as [[? ?] ?]. unfold ImapService.parseHeaders_line.
    now rewrite Hspace, Htab, Hcolon. }
  now rewrite Hskip.
Qed.

Lemma parseHeaders_ignores_line_without_colon_witness :
  ImapService.parseHeaders
    (lines_text ["Subject: Hello"; "no colon here"; " world"; "From: a@b"])
  = ImapService.parseHeaders (lines_text ["Subject: Hello"; " world"; "From: a@b"])
  /\ ImapService.parseHeaders
       (lines_text ["Subject: Hello"; " world"; "From: a@b"]) !! "subject"
     = Some "Hello world".
Proof.
  split; [|now vm_compute].
  apply (parseHeaders_ignores_line_without_colon ["Subject: Hello"]
           "no colon here" [" world"; "From: a@b"]); try reflexivity.
  repeat constructor.
Defined.

(** ** Quoting is lossless *)

Lemma join_cons sep x y r :
  Js.join sep (x :: y :: r) = x +:+ sep +:+ Js.join sep (y :: r).
Proof. reflexivity. Qed.

Lemma join_split c s : Js.join (String c "") (Js.split c s) = s.
Proof.
  induction s as [|a s IH]; [reflexivity|]. cbn [Js.split].
  destruct (Ascii.eqb_spec a c) as [->|Hne].
  - destruct (Js.split c s) as [|h t] eqn:Hsplit; [now apply split_not_nil in Hsplit|].
    rewrite join_cons, IH. reflexivity.
  - destruct (Js.split c s) as [|h t] eqn:Hsplit; [now apply split_not_nil in Hsplit|].
    cbn [Js.cons_head]. destruct t as [|y t].
    + cbn in IH |- *. now rewrite IH.
    + rewrite join_cons. rewrite join_cons in IH. now rewrite <- IH.
Qed.

(** The body of the original can be read back from its quotation: taking
    the two characters of the quote mark off every line of
    [quotedBody body] gives [body]. *)
Theorem quotedBody_unquote body :
  unquote (EmailOperations.quotedBody body) = body.
Proof.
  unfold unquote. rewrite quotedBody_lines, <- list_fmap_compose.
  assert (Hid : forall lines : list string,
            (Js.drop 2 ∘ (fun line => "> " +:+ line)) <$> lines = lines).
  { induction lines as [|line lines IH]; [reflexivity|].
    cbn [fmap list_fmap]. f_equal. exact IH. }
  rewrite Hid. apply (join_split Js.LF).
Qed.

(** ** The messages of listMessages *)

Lemma split_ws_pieces in_ws s :
  Forall (fun piece => all_in not_space piece = true) (Js.split_ws_from in_ws s).
Proof.
  revert in_ws. induction s as [|a s IH]; intros in_ws; cbn [Js.split_ws_from];
    [now repeat constructor|].
  destruct (Js.is_space a) eqn:Ha.
  - destruct in_ws; [apply IH | constructor; [reflexivity | apply IH]].
  - specialize (IH false). destruct (Js.split_ws_from false s) as [|h t]; cbn.
    + repeat constructor. cbn. unfold not_space. now rewrite Ha.
    + inversion IH as [|? ? Hh Ht]; subst. constructor; [|exact Ht].
      cbn. unfold not_space at 1. now rewrite Ha, Hh.
Qed.

Lemma trimStart_all_in P s : all_in P s = true -> all_in P (Js.trimStart s) = true.
Proof.
  induction s as [|a s IH]; [reflexivity|]. cbn [Js.trimStart].
  destruct (Js.is_space a); [|trivial].
  cbn. now intros [_ Hs]%andb_true_iff; apply IH.
Qed.

Lemma trimEnd_all_in P s : all_in P s = true -> all_in P (Js.trimEnd s) = true.
Proof.
  induction s as [|a s IH]; [reflexivity|]. cbn [Js.trimEnd all_in].
  intros [Ha Hs]%andb_true_iff. specialize (IH Hs).
  destruct (Js.trimEnd s) as [|b t].
  - destruct (Js.is_space a); [reflexivity | cbn; now rewrite Ha].
  - change (P a && all_in P (String b t) = true). now rewrite Ha, IH.
Qed.

Lemma trimEnd_idempotent s : Js.trimEnd (Js.trimEnd s) = Js.trimEnd s.
Proof.
  induction s as [|a s IH]; [reflexivity|]. cbn [Js.trimEnd].
  destruct (Js.trimEnd s) as [|b t] eqn:Ht.
  - destruct (Js.is_space a) eqn:Ha; [reflexivity|]. cbn. now rewrite Ha.
  - cbn [Js.trimEnd] in IH |- *. now rewrite IH.
Qed.

Lemma trimStart_trimEnd s :
  Js.trimStart (Js.trimEnd (Js.trimStart s)) = Js.trimEnd (Js.trimStart s).
Proof.
  induction s as [|a s IH]; [reflexivity|]. cbn [Js.trimStart].
  destruct (Js.is_space a) eqn:Ha; [exact IH|].
  cbn [Js.trimEnd]. destruct (Js.trimEnd s); rewrite ?Ha; cbn; now rewrite Ha.
Qed.

Lemma trim_idempotent s : Js.trim (Js.trim s) = Js.trim s.
Proof. unfold Js.trim. now rewrite trimStart_trimEnd, trimEnd_idempotent. Qed.

Lemma address_list_entries s :
  Forall (fun a => a <> "" /\ Js.trim a = a /\ all_in not_comma a = true)
    (ImapService.address_list s).
Proof.
  unfold ImapService.address_list. apply Forall_forall. intros a Ha.
  apply list_elem_of_In, filter_In in Ha as [Ha Htruthy].
  apply list_elem_of_In, list_elem_of_fmap in Ha as (piece & -> & Hpiece).
  split; [now apply truthy_ne|]. split; [apply trim_idempotent|].
  unfold Js.trim. apply trimEnd_all_in, trimStart_all_in.
  pose proof (split_pieces "," s) as Hpieces.
  rewrite Forall_forall in Hpieces. specialize (Hpieces piece Hpiece).
  clear -Hpieces. induction piece as [|c piece IH]; [reflexivity|].
  cbn in Hpieces |- *. unfold not_comma at 1.
  destruct (Ascii.eqb c ","); [discriminate|].
  destruct (Js.indexOf "," piece); [discriminate|]. now apply IH.
Qed.

(** A message of [listMessages] is its own thread and has no body; its
    recipients are trimmed texts without comma, none of them empty; its
    References, when the header is there, are tokens without white space,
    none of them empty. *)
Theorem listMessages_message_shape E count st l st' m :
  ImapService.listMessages E count st = (Resolved l, st') ->
  m ∈ l ->
  EmailMessage.threadId m = EmailMessage.id m
  /\ EmailMessage.body m = None
  /\ Forall (fun a => a <> "" /\ Js.trim a = a /\ all_in not_comma a = true)
       (EmailMessage.to m)
  /\ forall refs,
       EmailMessage.references m = Some refs ->
       Forall (fun r => r <> "" /\ all_in not_space r = true) refs.
Proof.
  intros (pushed & Hpushed & ->)%listMessages_cases Hm.
  rewrite <- (Array_sort_Permutation ImapService.newest_first) in Hm.
  rewrite Forall_forall in Hpushed. destruct (Hpushed m Hm) as (fm & Hfm).
  unfold ImapService.listMessages_on_message in Hfm.
  destruct (Fetched.attrs fm); [|discriminate]. injection Hfm as <-.
  cbn [EmailMessage.threadId EmailMessage.id EmailMessage.body EmailMessage.to
       EmailMessage.references].
  split; [reflexivity|]. split; [reflexivity|].
  split; [apply address_list_entries|].
  intros refs Hrefs.
  destruct (ImapService.parseHeaders (Fetched.raw fm) !! "references") as [text|];
    [|discriminate].
  injection Hrefs as <-. apply Forall_forall. intros r Hr.
  apply list_elem_of_In, filter_In in Hr as [Hr Htruthy].
  split; [now apply truthy_ne|].
  pose proof (split_ws_pieces false text) as Hpieces.
  rewrite Forall_forall in Hpieces. apply Hpieces. now apply list_elem_of_In.
Qed.

Lemma listMessages_message_shape_witness :
  exists l m,
    fst (ImapService.listMessages Scenario.mailbox 10 Scenario.start) = Resolved l
    /\ m ∈ l
    /\ EmailMessage.references m = Some ["<m17@x>"; "<m18@x>"]
    /\ EmailMessage.threadId m = EmailMessage.id m.
Proof.
  destruct (ImapService.listMessages Scenario.mailbox 10 Scenario.start)
    as [[l|e] st'] eqn:Hlist; [|vm_compute in Hlist; discriminate Hlist].
  assert (Hl : exists m rest, l = m :: rest
                 /\ EmailMessage.references m = Some ["<m17@x>"; "<m18@x>"]).
  { vm_compute in Hlist. injection Hlist as <- _. now eexists; eexists. }
  destruct Hl as (m & rest & -> & Hrefs).
  exists (m :: rest), m. split; [reflexivity|].
  split; [apply list_elem_of_here|]. split; [exact Hrefs|].
  now apply (listMessages_message_shape _ _ _ _ _ m Hlist); [apply list_elem_of_here].
Defined.

(** ** Replies, further *)

(** A reply succeeds exactly when the target is there, its address can be
    determined and the transport takes the mail; the result then has the
    identifier the transport gave.  A failed reply has no identifier.
    [replyToMessage] opens one connection and hands over one mail at
    most. *)
Theorem replyToMessage_succeeds_iff E p st r :
  fst (EmailOperations.replyToMessage E p st) = Resolved r ->
  (SendResult.success r = true
   <-> exists m mo,
         fst (ImapService.getMessage E (ReplyToMessageParams.id p) st)
           = Resolved (Some m)
         /\ address_undetermined (EmailMessage.from m) = false
         /\ outgoing E p st = [mo]
         /\ sendMail E mo = inr (SendResult.messageId r))
  /\ (SendResult.success r = false -> SendResult.messageId r = "")
  /\ (length (outgoing E p st) <= 1)%nat
  /\ connections (snd (EmailOperations.replyToMessage E p st)) = S (connections st).
Proof.
  rewrite outgoing_eq, replyToMessage_eq.
  destruct (fst (ImapService.getMessage E _ st)) as [[m|]|e] eqn:Hget.
  - destruct (address_undetermined (EmailMessage.from m)) eqn:Hund.
    + intros [= <-]. cbn. repeat split; try discriminate; try lia.
      intros (m' & mo & [= <-] & _ & [=] & _).
    + cbn [fst snd connections].
      destruct (sendMail E _) as [e|messageId] eqn:Hsend; intros [= <-]; cbn.
      * repeat split; try discriminate; try lia.
        intros (m' & mo & [= <-] & _ & [= <-] & Hmo). rewrite Hsend in Hmo.
        discriminate Hmo.
      * repeat split; try discriminate; try lia.
        intros _. exists m. eexists. split; [reflexivity|]. split; [exact Hund|].
        split; [reflexivity | exact Hsend].
  - intros [= <-]. cbn. repeat split; try discriminate; try lia.
    intros (m' & mo & [=] & _).
  - intros [= <-]. cbn. repeat split; try discriminate; try lia.
    intros (m' & mo & [=] & _).
Qed.

Lemma replyToMessage_succeeds_iff_witness :
  exists r,
    fst (EmailOperations.replyToMessage Scenario.mailbox
           (Scenario.reply "19" "Thanks!" false) Scenario.start) = Resolved r
    /\ SendResult.success r = true
    /\ exists mo,
         outgoing Scenario.mailbox (Scenario.reply "19" "Thanks!" false)
           Scenario.start = [mo]
         /\ sendMail Scenario.mailbox mo = inr (SendResult.messageId r).
Proof.
  destruct (EmailOperations.replyToMessage Scenario.mailbox
              (Scenario.reply "19" "Thanks!" false) Scenario.start)
    as [[r|e] st'] eqn:Hreply; [|vm_compute in Hreply; discriminate Hreply].
  assert (Hr : fst (EmailOperations.replyToMessage Scenario.mailbox
                      (Scenario.reply "19" "Thanks!" false) Scenario.start)
               = Resolved r) by now rewrite Hreply.
  assert (Hsuccess : SendResult.success r = true).
  { vm_compute in Hreply. now injection Hreply as <- _. }
  destruct (replyToMessage_succeeds_iff _ _ _ _ Hr) as (Hiff & _).
  destruct (proj1 Hiff Hsuccess) as (m & mo & _ & _ & Hout & Hsend).
  exists r. split; [reflexivity|]. split; [exact Hsuccess|].
  exists mo. now split.
Defined.

(** The mail of a reply goes to the reply address of the target, which
    is not empty and has an [@]; it is from the configured user and has
    no copy recipient. *)
Theorem reply_recipient E p st m mo :
  fst (ImapService.getMessage E (ReplyToMessageParams.id p) st) = Resolved (Some m) ->
  mo ∈ outgoing E p st ->
  MailOptions.to mo = EmailOperations.replyTo_of (EmailMessage.from m)
  /\ MailOptions.to mo <> ""
  /\ Js.includes "@" (MailOptions.to mo) = true
  /\ MailOptions.from mo = smtp_user E
  /\ MailOptions.cc mo = None.
Proof.
  intros Hget Hmo. pose proof Hmo as Hin.
  rewrite outgoing_eq, Hget in Hin.
  destruct (address_undetermined (EmailMessage.from m)) eqn:Hund;
    [now apply elem_of_nil in Hin|].
  apply list_elem_of_singleton in Hin as ->.
  unfold address_undetermined in Hund.
  apply orb_false_iff in Hund as [Hne Hat].
  apply negb_false_iff in Hne, Hat.
  cbn. repeat split; [now apply truthy_ne | exact Hat].
Qed.

Lemma reply_recipient_witness :
  exists mo,
    outgoing Scenario.mailbox (Scenario.reply "19" "Thanks!" false) Scenario.start
      = [mo]
    /\ MailOptions.to mo = "jane@example.com"
    /\ MailOptions.from mo = "me@example.com".
Proof.
  destruct (outgoing Scenario.mailbox (Scenario.reply "19" "Thanks!" false)
              Scenario.start) as [|mo [|]] eqn:Hout;
    try (vm_compute in Hout; discriminate Hout).
  destruct (ImapService.getMessage Scenario.mailbox "19" Scenario.start)
    as [[[m|]|e] st'] eqn:Hget; try (vm_compute in Hget; discriminate Hget).
  assert (Hm : fst (ImapService.getMessage Scenario.mailbox
                 (ReplyToMessageParams.id (Scenario.reply "19" "Thanks!" false))
                 Scenario.start) = Resolved (Some m)).
  { cbn [ReplyToMessageParams.id Scenario.reply]. now rewrite Hget. }
  assert (Hin : mo ∈ outgoing Scenario.mailbox
                  (Scenario.reply "19" "Thanks!" false) Scenario.start).
  { rewrite Hout. apply list_elem_of_here. }
  destruct (reply_recipient _ _ _ _ _ Hm Hin) as (Hto & _ & _ & Hfrom & _).
  exists mo. split; [reflexivity|].
  vm_compute in Hget. injection Hget as <- _.
  split; [exact Hto | exact Hfrom].
Defined.

(** [sendReply] never rejects.  A recipient that is empty or has no [@]
    gives the failure result of the check and no mail reaches the
    transport; any other recipient gives one mail, with the options the
    parameters determine, and the result the transport decides. *)
Theorem sendReply_checks_recipient E params st :
  (ReplyParams.to params = "" \/ Js.includes "@" (ReplyParams.to params) = false ->
   fst (SmtpService.sendReply E params st)
     = Resolved (failure "Invalid recipient email address")
   /\ mails_sent st (snd (SmtpService.sendReply E params st)) = [])
  /\ (ReplyParams.to params <> "" -> Js.includes "@" (ReplyParams.to params) = true ->
      mails_sent st (snd (SmtpService.sendReply E params st))
        = [SmtpService.mailOptions_of E params]
      /\ fst (SmtpService.sendReply E params st)
         = Resolved
             match sendMail E (SmtpService.mailOptions_of E params) with
             | inl e => failure ("Failed to send reply: " +:+ e)
             | inr messageId =>
                 {| SendResult.messageId := messageId;
                    SendResult.success := true;
                    SendResult.message := "Reply sent successfully" |}
             end)
  /\ exists r, fst (SmtpService.sendReply E params st) = Resolved r.
Proof.
  unfold SmtpService.sendReply, SmtpService.transporter_sendMail,
    try_catch, await, record_call, resolve, reject.
  cbn [connections calls].
  destruct (negb (Js.truthy (ReplyParams.to params))
            || negb (Js.includes "@" (ReplyParams.to params))) eqn:Hbad.
  - split; [|split].
    + intros _. cbn [fst snd]. split; [reflexivity|]. now rewrite mails_sent_app.
    + intros Hne Hat. apply truthy_ne in Hne. now rewrite Hne, Hat in Hbad.
    + now eexists.
  - apply orb_false_iff in Hbad as [Hne Hat].
    apply negb_false_iff in Hne, Hat. split; [|split].
    + intros [Hempty | Hno]; [rewrite Hempty in Hne; discriminate Hne|].
      rewrite Hno in Hat. discriminate Hat.
    + intros _ _. cbn [connections calls].
      destruct (sendMail E _); cbn [fst snd];
        (split; [|reflexivity]); rewrite <- app_assoc; now rewrite mails_sent_app.
    + destruct (sendMail E _); now eexists.
Qed.

Lemma sendReply_checks_recipient_witness :
  fst (SmtpService.sendReply Scenario.mailbox
         {| ReplyParams.to := "Jane Doe"; ReplyParams.subject := "Hi";
            ReplyParams.body := "x"; ReplyParams.inReplyTo := None;
            ReplyParams.references := None; ReplyParams.cc := None |}
         Scenario.start)
  = Resolved (failure "Invalid recipient email address").
Proof.
  apply (sendReply_checks_recipient Scenario.mailbox
           {| ReplyParams.to := "Jane Doe"; ReplyParams.subject := "Hi";
              ReplyParams.body := "x"; ReplyParams.inReplyTo := None;
              ReplyParams.references := None; ReplyParams.cc := None |}
           Scenario.start).
  now right.
Defined.

(** [extractEmail] gives the address that [replyToMessage] replies to:
    the content of the first pair of angle brackets around a text that is
    not empty, else the first bare token [local@domain], else the header
    as it is. *)
Theorem extractEmail_is_the_reply_address header :
  ImapServiceRest.extractEmail header = EmailOperations.replyTo_of header
  /\ ((exists g, first_bracket_pair header g
                 /\ ImapServiceRest.extractEmail header = g)
      \/ (no_bracket_pair header
          /\ exists g, first_bare_token header g
                       /\ ImapServiceRest.extractEmail header = g)
      \/ (no_bracket_pair header /\ no_bare_token header
          /\ ImapServiceRest.extractEmail header = header)).
Proof.
  assert (Heq : ImapServiceRest.extractEmail header
                = EmailOperations.replyTo_of header).
  { unfold ImapServiceRest.extractEmail, EmailOperations.replyTo_of.
    now destruct header. }
  split; [exact Heq|]. rewrite Heq. apply replyTo_of_cases.
Qed.

(** ** Searching, flags and new mail *)

Lemma length_omap_le {A B} (f : A -> option B) (l : list A) :
  (length (omap f l) <= length l)%nat.
Proof.
  induction l as [|x l IH]; [reflexivity|]. cbn.
  destruct (f x); cbn; lia.
Qed.

Lemma slice_last_length {A} n (xs : list A) :
  (length (slice_last n xs) <= n)%nat /\ (length (slice_last n xs) <= length xs)%nat.
Proof. unfold slice_last. rewrite length_skipn. lia. Qed.

Lemma searchMessages_on_message_shape fm m :
  ImapServiceRest.searchMessages_on_message fm = Some m ->
  EmailMessage.threadId m = EmailMessage.id m
  /\ EmailMessage.body m = None /\ EmailMessage.messageId m = None
  /\ EmailMessage.hasAttachments m = None.
Proof.
  unfold ImapServiceRest.searchMessages_on_message.
  destruct (Fetched.attrs fm); [|discriminate]. now intros [= <-].
Qed.

(** A search result repeats the query and counts every hit of the
    search, while its messages are sorted newest first and are header-only
    (each its own thread, no body, no Message-ID, no attachment flag); on a
    server that delivers one message at most for each UID, they are 50 at
    most and never more than the count. *)
Theorem searchMessages_result E X query st r st' :
  ImapServiceRest.searchMessages E X query st = (Resolved r, st') ->
  SearchResult.query r = query
  /\ (exists hits,
        MailboxOps.search_text (ops X (connections st)) query = inr hits
        /\ SearchResult.totalCount r = Z.of_nat (length (default [] hits)))
  /\ StronglySorted (fun a b => EmailMessage.date b <= EmailMessage.date a)
       (SearchResult.messages r)
  /\ Forall (fun m => EmailMessage.threadId m = EmailMessage.id m
                      /\ EmailMessage.body m = None
                      /\ EmailMessage.messageId m = None
                      /\ EmailMessage.hasAttachments m = None)
       (SearchResult.messages r)
  /\ (one_message_per_uid (ops X (connections st)) ->
      (length (SearchResult.messages r) <= 50)%nat
      /\ Z.of_nat (length (SearchResult.messages r)) <= SearchResult.totalCount r).
Proof.
  unfold ImapServiceRest.searchMessages, await, ImapServiceRest.createConnection,
    reject, resolve.
  cbn [connections calls].
  destruct (Connection.connect _); [discriminate|].
  destruct (Connection.openBox _); [discriminate|].
  destruct (MailboxOps.search_text _ query) as [e|hits] eqn:Hsearch; [discriminate|].
  destruct (Nat.eqb_spec (length (default [] hits)) 0) as [Hzero|Hpos].
  - intros [= <- _]. cbn. split; [reflexivity|].
    split; [exists hits; split; [reflexivity | now rewrite Hzero]|].
    split; [constructor|]. split; [constructor|]. intros _. lia.
  - destruct (Fetch.error _); [discriminate|].
    intros [= <- _]. cbn [SearchResult.query SearchResult.totalCount
                           SearchResult.messages].
    split; [reflexivity|]. split; [now exists hits|].
    split; [apply newest_first_sorted|]. split.
    + apply Forall_forall. intros m Hm.
      rewrite <- (Array_sort_Permutation ImapService.newest_first) in Hm.
      apply list_elem_of_omap in Hm as (fm & _ & Hfm).
      now apply searchMessages_on_message_shape in Hfm.
    + intros Hone.
      rewrite <- (Permutation_length
                    (Array_sort_Permutation ImapService.newest_first _)).
      pose proof (length_omap_le ImapServiceRest.searchMessages_on_message
                    (Fetch.msgs (MailboxOps.fetch_headers (ops X (connections st))
                       (pretty <$> slice_last 50 (default [] hits))))) as Hpushed.
      specialize (Hone (pretty <$> slice_last 50 (default [] hits))).
      rewrite length_fmap in Hone.
      destruct (slice_last_length 50 (default [] hits)) as [H50 Hall].
      split; lia.
Qed.

Lemma searchMessages_result_witness :
  exists r,
    fst (ImapServiceRest.searchMessages Scenario.mailbox Further.services
           "meeting" Scenario.start) = Resolved r
    /\ SearchResult.totalCount r = 60
    /\ length (SearchResult.messages r) = 50%nat.
Proof.
  destruct (ImapServiceRest.searchMessages Scenario.mailbox Further.services
              "meeting" Scenario.start) as [[r|e] st'] eqn:Hsearch;
    [|vm_compute in Hsearch; discriminate Hsearch].
  destruct (searchMessages_result _ _ _ _ _ _ Hsearch)
    as (_ & (hits & Hhits & Hcount) & _ & _ & Hbound).
  exists r. split; [reflexivity|]. split.
  - rewrite Hcount. injection Hhits as <-. reflexivity.
  - assert (Hone : one_message_per_uid
                     (ops Further.services (connections Scenario.start))).
    { intros uids. cbn. now rewrite length_fmap. }
    destruct (Hbound Hone) as [Hle _].
    apply Nat.le_antisymm; [exact Hle|].
    vm_compute in Hsearch. injection Hsearch as <- _. cbn. lia.
Defined.

(** [markAsRead] of [EmailOperations] never rejects.  It succeeds exactly
    when the connection is ready, the box opens for writing and the flag
    operation (adding the flag to mark as read, deleting it to mark as
    unread) reports no error; every other outcome is a result with
    [success] false. *)
Theorem markAsRead_never_rejects E X id read st :
  exists r,
    fst (EmailOperationsRest.markAsRead E X id read st) = Resolved r
    /\ (OperationResult.success r = true
        <-> Connection.connect (server E (connections st)) = None
            /\ (exists total,
                  MailboxOps.openBox_rw (ops X (connections st)) = inr total)
            /\ flag_operation (ops X (connections st)) id read = None)
    /\ (OperationResult.success r = true ->
        OperationResult.message r
        = if read then "Message marked as read successfully"
          else "Message marked as unread successfully").
Proof.
  unfold EmailOperationsRest.markAsRead, ImapServiceRest.markAsRead, try_catch,
    await, ImapServiceRest.createConnection, reject, resolve, flag_operation.
  cbn [connections calls].
  destruct (Connection.connect _) as [e|].
  { eexists. split; [reflexivity|]. cbn. split; [|discriminate].
    split; [discriminate | now intros [[=] _]]. }
  destruct (MailboxOps.openBox_rw _) as [e|total].
  { eexists. split; [reflexivity|]. cbn. split; [|discriminate].
    split; [discriminate | now intros (_ & [? [=]] & _)]. }
  destruct ((if read then _ else _) [id] ["\Seen"]) as [e|] eqn:Hflag.
  - eexists. split; [reflexivity|]. cbn. split; [|discriminate].
    split; [discriminate | now intros (_ & _ & [=])].
  - eexists. split; [reflexivity|]. cbn. split.
    + split; [intros _; split; [reflexivity|]; split; [now exists total | reflexivity]
             | reflexivity].
    + intros _. now destruct read.
Qed.

Lemma markAsRead_never_rejects_witness :
  fst (EmailOperationsRest.markAsRead Scenario.mailbox Further.services
         "19" true Scenario.start)
    = Resolved {| OperationResult.success := true;
                  OperationResult.message := "Message marked as read successfully" |}
  /\ fst (EmailOperationsRest.markAsRead Scenario.mailbox Further.services
            "19" false Scenario.start)
     = Resolved {| OperationResult.success := false;
                   OperationResult.message :=
                     "Failed to mark as unread: Mailbox is read-only" |}.
Proof.
  split; [|reflexivity].
  destruct (markAsRead_never_rejects Scenario.mailbox Further.services
              "19" true Scenario.start) as (r & Hr & Hiff & Hmessage).
  rewrite Hr. f_equal.
  assert (Hsuccess : OperationResult.success r = true).
  { apply Hiff. split; [reflexivity|]. split; [now exists 2 | reflexivity]. }
  specialize (Hmessage Hsuccess).
  destruct r as [success message]. cbn in *. now subst.
Defined.

(** [sendMessage] of [EmailOperations] never rejects and opens no
    connection.  It hands the transport the recipient, subject, body and
    copy recipients of the caller, from the configured user; it succeeds
    exactly when the transport takes the mail, with the identifier the
    transport gave, and otherwise reports the error of the transport after
    the words [Failed to send email: ]. *)
Theorem sendMessage_never_rejects E X params st :
  let mailOptions :=
    {| MessageOptions.from := smtp_user E;
       MessageOptions.to := SendMessageParams.to params;
       MessageOptions.subject := SendMessageParams.subject params;
       MessageOptions.text := SendMessageParams.body params;
       MessageOptions.cc := SendMessageParams.cc params;
       MessageOptions.bcc := SendMessageParams.bcc params |} in
  exists r,
    EmailOperationsRest.sendMessage E X params st = (Resolved r, st)
    /\ (SendResult.success r = true
        <-> sendMail_message X mailOptions = inr (SendResult.messageId r))
    /\ (forall e, sendMail_message X mailOptions = inl e ->
                  r = failure ("Failed to send email: " +:+ e)).
Proof.
  cbv zeta.
  unfold EmailOperationsRest.sendMessage, SmtpServiceRest.sendMessage,
    SmtpServiceRest.transporter_sendMail, try_catch, await, reject, resolve.
  destruct (sendMail_message X _) as [e|messageId].
  - eexists. split; [reflexivity|]. cbn. split; [split; discriminate|].
    now intros e' [= <-].
  - eexists. split; [reflexivity|]. cbn. split; [now split | discriminate].
Qed.

Lemma sendMessage_never_rejects_witness :
  fst (EmailOperationsRest.sendMessage Scenario.mailbox Further.services
         (Further.message_to "nobody") Scenario.start)
  = Resolved (failure "Failed to send email: No recipients defined").
Proof.
  destruct (sendMessage_never_rejects Scenario.mailbox Further.services
              (Further.message_to "nobody") Scenario.start)
    as (r & -> & _ & Hfail).
  cbn [fst]. f_equal. now apply Hfail.
Defined.

(** ** The callers in EmailOperations *)

(** The callers in [EmailOperations] pass on what [ImapService] resolves
    with, unchanged.  An error comes back behind the words of the caller;
    for [getThread], whose only errors are those of the fetch of the
    target, the words [Failed to get thread: ] stand twice. *)
Theorem EmailOperations_callers E uid count attachmentIndex maxSizeBytes st :
  (forall r, fst (EmailOperations.getThread E uid st) = Resolved r
             <-> fst (ImapService.getThread E uid st) = Resolved r)
  /\ (forall e, fst (EmailOperations.getThread E uid st) = Rejected e
                <-> exists e0,
                      fst (ImapService.getMessage E uid st) = Rejected e0
                      /\ e = "Failed to get thread: " +:+ "Failed to get thread: "
                               +:+ e0)
  /\ (forall r, fst (EmailOperations.getMessage E uid st) = Resolved r
                <-> fst (ImapService.getMessage E uid st) = Resolved r)
  /\ (forall e, fst (EmailOperations.getMessage E uid st) = Rejected e
                <-> exists e0,
                      fst (ImapService.getMessage E uid st) = Rejected e0
                      /\ e = "Failed to get message: " +:+ e0)
  /\ (forall r, fst (EmailOperations.listMessages E count st) = Resolved r
                <-> fst (ImapService.listMessages E count st) = Resolved r)
  /\ (forall r,
        fst (EmailOperations.getAttachment E uid attachmentIndex maxSizeBytes st)
          = Resolved r
        <-> fst (ImapService.getAttachment E uid attachmentIndex maxSizeBytes st)
            = Resolved r).
Proof.
  assert (Hwrap : forall A (p : promise A) prefix,
    (forall r, fst (try_catch p (fun error => reject (prefix +:+ error)) st)
                 = Resolved r <-> fst (p st) = Resolved r)
    /\ (forall e, fst (try_catch p (fun error => reject (prefix +:+ error)) st)
                    = Rejected e
                  <-> exists e0, fst (p st) = Rejected e0 /\ e = prefix +:+ e0)).
  { intros A p prefix. unfold try_catch, reject.
    destruct (p st) as [[a|e0] st1]; cbn; split.
    - reflexivity.
    - split; [discriminate | now intros (e' & [=] & _)].
    - split; discriminate.
    - intros e. split; [intros [= <-]; now exists e0 | now intros (e' & [= <-] & ->)]. }
  split; [apply (Hwrap _ (ImapService.getThread E uid))|].
  split.
  { intros e. unfold EmailOperations.getThread.
    rewrite (proj2 (Hwrap _ (ImapService.getThread E uid) "Failed to get thread: ") e).
    split.
    - intros (e1 & (e0 & Hget & ->)%getThread_rejected & ->). now exists e0.
    - intros (e0 & Hget & ->). exists ("Failed to get thread: " +:+ e0).
      split; [|reflexivity]. apply getThread_rejected. now exists e0. }
  split; [apply (Hwrap _ (ImapService.getMessage E uid))|].
  split; [apply (Hwrap _ (ImapService.getMessage E uid))|].
  split; [apply (Hwrap _ (ImapService.listMessages E count))|].
  apply (Hwrap _ (ImapService.getAttachment E uid attachmentIndex maxSizeBytes)).
Qed.

Lemma EmailOperations_callers_witness :
  fst (EmailOperations.getThread (Scenario.env_of Scenario.broken) "19" Scenario.start)
  = Rejected "Failed to get thread: Failed to get thread: Fetch error: socket closed".
Proof.
  apply (EmailOperations_callers (Scenario.env_of Scenario.broken) "19" 10 0 100
           Scenario.start).
  now exists "Fetch error: socket closed".
Defined.

(** [findMessages] rejects in four cases and no other, each with the
    words [Failed to search messages: ] before the cause: the connection
    fails, the box does not open, the search fails, or the search has hits
    and their fetch fails.  A search without hits fetches nothing and
    resolves with the empty result, whatever a fetch would do. *)
Theorem findMessages_errors E X query st :
  let imap := server E (connections st) in
  let more := ops X (connections st) in
  (forall e,
     fst (EmailOperationsRest.findMessages E X query st) = Rejected e
     <-> exists cause,
           e = "Failed to search messages: " +:+ cause
           /\ ((exists e0, Connection.connect imap = Some e0
                           /\ cause = "IMAP connection error: " +:+ e0)
               \/ (Connection.connect imap = None
                   /\ exists e0, Connection.openBox imap = inl e0
                                 /\ cause = "Failed to open inbox: " +:+ e0)
               \/ (Connection.connect imap = None
                   /\ (exists total, Connection.openBox imap = inr total)
                   /\ exists e0, MailboxOps.search_text more query = inl e0
                                 /\ cause = "Search error: " +:+ e0)
               \/ (Connection.connect imap = None
                   /\ (exists total, Connection.openBox imap = inr total)
                   /\ exists hits e0,
                        MailboxOps.search_text more query = inr hits
                        /\ default [] hits <> []
                        /\ Fetch.error
                             (MailboxOps.fetch_headers more
                                (pretty <$> slice_last 50 (default [] hits)))
                           = Some e0
                        /\ cause = "Fetch error: " +:+ e0)))
  /\ (Connection.connect imap = None ->
      (exists total, Connection.openBox imap = inr total) ->
      (exists hits, MailboxOps.search_text more query = inr hits
                    /\ default [] hits = []) ->
      fst (EmailOperationsRest.findMessages E X query st)
      = Resolved {| SearchResult.messages := [];
                    SearchResult.totalCount := 0;
                    SearchResult.query := query |}).
Proof.
  cbv zeta.
  unfold EmailOperationsRest.findMessages, ImapServiceRest.searchMessages,
    try_catch, await, ImapServiceRest.createConnection, reject, resolve.
  cbn [connections calls].
  destruct (Connection.connect _) as [e0|].
  { split; [|discriminate]. intros e. cbn. split.
    - intros [= <-]. eexists. split; [reflexivity|]. left. now exists e0.
    - intros (cause & -> & [(e1 & [= <-] & ->)|[([=] & _)|[([=] & _)|([=] & _)]]]).
      reflexivity. }
  destruct (Connection.openBox _) as [e0|total].
  { split; [|now intros _ [? [=]]]. intros e. cbn. split.
    - intros [= <-]. eexists. split; [reflexivity|]. right. left.
      split; [reflexivity|]. now exists e0.
    - intros (cause & -> & [(e1 & [=] & _)|[(_ & e1 & [= <-] & ->)
                           |[(_ & [? [=]] & _)|(_ & [? [=]] & _)]]]).
      reflexivity. }
  destruct (MailboxOps.search_text _ query) as [e0|hits].
  { split; [|now intros _ _ (? & [=] & _)]. intros e. cbn. split.
    - intros [= <-]. eexists. split; [reflexivity|]. right. right. left.
      split; [reflexivity|]. split; [now exists total|]. now exists e0.
    - intros (cause & -> & [(e1 & [=] & _)|[(_ & e1 & [=] & _)
                           |[(_ & _ & e1 & [= <-] & ->)|(_ & _ & ? & ? & [=] & _)]]]).
      reflexivity. }
  destruct (Nat.eqb_spec (length (default [] hits)) 0) as [Hzero|Hpos].
  { split; [|reflexivity]. intros e. cbn. split; [discriminate|].
    intros (cause & -> & [(e1 & [=] & _)|[(_ & e1 & [=] & _)
                         |[(_ & _ & e1 & [=] & _)|(_ & _ & hits' & e1 & [= <-] & Hne & _)]]]).
    destruct (default [] hits); [now destruct Hne | discriminate Hzero]. }
  split.
  - intros e. destruct (Fetch.error _) as [e0|] eqn:Hfetch; cbn; split.
    + intros [= <-]. eexists. split; [reflexivity|]. right. right. right.
      split; [reflexivity|]. split; [now exists total|]. exists hits, e0.
      split; [reflexivity|]. split; [|now split].
      intros Hnil. now rewrite Hnil in Hpos.
    + intros (cause & -> & [(e1 & [=] & _)|[(_ & e1 & [=] & _)
                           |[(_ & _ & e1 & [=] & _)
                            |(_ & _ & hits' & e1 & [= <-] & _ & Herr & ->)]]]).
      rewrite Hfetch in Herr. now injection Herr as <-.
    + discriminate.
    + intros (cause & -> & [(e1 & [=] & _)|[(_ & e1 & [=] & _)
                           |[(_ & _ & e1 & [=] & _)
                            |(_ & _ & hits' & e1 & [= <-] & _ & Herr & _)]]]).
      rewrite Hfetch in Herr. discriminate Herr.
  - intros _ _ (hits' & [= <-] & Hnil). now rewrite Hnil in Hpos.
Qed.

Lemma findMessages_errors_witness :
  fst (EmailOperationsRest.findMessages Scenario.mailbox Further.services
         "holiday" Scenario.start)
  = Resolved {| SearchResult.messages := [];
                SearchResult.totalCount := 0;
                SearchResult.query := "holiday" |}.
Proof.
  apply (findMessages_errors Scenario.mailbox Further.services "holiday"
           Scenario.start).
  - reflexivity.
  - now exists 2.
  - now exists None.
Defined.
